(** * chainspark-oss: the call scheduler and the extraction pipeline

    A shallow embedding of [src/lib/core/errors.ts], [src/lib/core/rate-limiter.ts]
    and [src/lib/core/extraction-pipeline.ts], with the properties the
    specification states about them.

    Conventions of the embedding:
    - JavaScript strings are [string]s, one [ascii] per code unit, for the
      code units 0 to 255; letter case and white space are what
      [toLowerCase] and [trim] make of them on that range.
    - Integral JavaScript numbers (times, delays, indices) are [Z]; counters
      that only ever count up from zero are [nat].
    - [async] code is sequential code over an explicit state: the scheduler
      object and the world outside it (clock, external calls, timers). A
      timer is [setTimeout]: it fires when the world says, and a delay out
      of its range is set to 1 ms.
      [try]/[catch] and [throw] are a result type with a [Throw] case.
    - Logging ([logger.*], [console.error]) has no effect on any value the
      program computes and is left out. *)

From Stdlib Require Import ZArith QArith Lia Lqa String Ascii List Bool.
From stdpp Require Import base option list gmap strings pretty.

Set Warnings "-register-all".

Local Open Scope string_scope.
Local Open Scope Z_scope.
Local Open Scope list_scope.

(** ** JavaScript string primitives used by the sources *)

Module JsString.

(** [s.length] *)
Definition len (s : string) : Z := Z.of_nat (String.length s).

(** [toLowerCase] on one code unit below 256: the letters A to Z, and the
    letters from 192 to 222 but for the multiplication sign (215), move up
    by 32. *)
Definition lower_ascii (c : ascii) : ascii :=
  let n := nat_of_ascii c in
  if (((65 <=? n) && (n <=? 90))
      || ((192 <=? n) && (n <=? 222) && negb (n =? 215)))%nat
  then ascii_of_nat (n + 32) else c.

(** [s.toLowerCase()] *)
Fixpoint toLowerCase (s : string) : string :=
  match s with
  | EmptyString => EmptyString
  | String c r => String (lower_ascii c) (toLowerCase r)
  end.

(** White space and line terminators removed by [trim], below 256: TAB, LF,
    VT, FF, CR, SPACE and the no-break space (160). *)
Definition is_space (c : ascii) : bool :=
  let n := nat_of_ascii c in
  (((9 <=? n) && (n <=? 13)) || (n =? 32) || (n =? 160))%nat.

Fixpoint trimStart (s : string) : string :=
  match s with
  | EmptyString => EmptyString
  | String c r => if is_space c then trimStart r else s
  end.

Definition is_empty (s : string) : bool :=
  match s with EmptyString => true | _ => false end.

Fixpoint trimEnd (s : string) : string :=
  match s with
  | EmptyString => EmptyString
  | String c r =>
      let r' := trimEnd r in
      if is_empty r' && is_space c then EmptyString else String c r'
  end.

(** [s.trim()] *)
Definition trim (s : string) : string := trimEnd (trimStart s).

(** [s.includes(pat)] *)
Fixpoint includes (s pat : string) : bool :=
  String.prefix pat s
  || match s with
     | EmptyString => false
     | String _ r => includes r pat
     end.

(** Relative index of [slice]: negative counts from the end, and the
    result is clamped to [0, len]. *)
Definition clamp_index (n i : Z) : Z :=
  if i <? 0 then Z.max (n + i) 0 else Z.min i n.

(** [s.slice(start, end)] *)
Definition slice (s : string) (start end_ : Z) : string :=
  let from := clamp_index (len s) start in
  let to := clamp_index (len s) end_ in
  String.substring (Z.to_nat from) (Z.to_nat (to - from)) s.

(** [s.slice(start)] *)
Definition slice_from (s : string) (start : Z) : string :=
  slice s start (len s).

Fixpoint skip (n : nat) (s : string) : string :=
  match n, s with
  | O, _ => s
  | S n', String _ r => skip n' r
  | S _, EmptyString => EmptyString
  end.

(** Candidates [i], [i-1], ..., [0] in descending order. *)
Fixpoint lastIndexOf_down (s pat : string) (i : nat) : Z :=
  if String.prefix pat (skip i s) then Z.of_nat i
  else match i with
       | O => -1
       | S i' => lastIndexOf_down s pat i'
       end.

(** [s.lastIndexOf(pat, fromIndex)]: the largest index not above
    [fromIndex] where [pat] occurs, or [-1]. *)
Definition lastIndexOf (s pat : string) (fromIndex : Z) : Z :=
  if len s <? len pat then -1
  else lastIndexOf_down s pat
         (Z.to_nat (Z.min (Z.max fromIndex 0) (len s - len pat))).

End JsString.

(** ** errors.ts *)

Module Errors.

Inductive ErrorCode :=
| RATE_LIMIT | API_KEY_MISSING | API_KEY_INVALID | SCHEMA_VALIDATION_FAILED
| PARSE_FAILED | TIMEOUT | INVALID_INPUT | EXTRACTOR_NOT_FOUND
| NETWORK_ERROR | UNKNOWN.

(** A built-in [Error] (or a subclass from outside this library). *)
Record JsError := { err_message : string }.

(** The metadata fields the scheduler and [wrapError] fill in; the fields
    of the other error classes are never written on these paths. *)
Record ExtractionErrorMetadata := {
  retryAfter : option Z;
  attemptsMade : option nat;
  cause : option JsError
}.

Inductive ErrorClass := ClsExtractionError | ClsRateLimitError | ClsOtherSubclass.

Record ExtractionError := {
  cls : ErrorClass;
  code : ErrorCode;
  message : string;
  metadata : option ExtractionErrorMetadata
}.

(** What a [catch] clause can receive. [ThrownValue repr] is a value that
    is not an [Error]; [repr] is what [String(value)] yields for it. *)
Inductive Thrown :=
| ThrownExtraction (e : ExtractionError)
| ThrownError (e : JsError)
| ThrownValue (repr : string).

(** [new RateLimitError(message, retryAfterMs, attemptsMade)]; its fields
    [retryAfterMs] and [attemptsMade] repeat what the metadata holds. *)
Definition RateLimitError (msg : string) (retryAfterMs : Z) (attempts : nat)
  : ExtractionError :=
  {| cls := ClsRateLimitError; code := RATE_LIMIT; message := msg;
     metadata := Some {| retryAfter := Some retryAfterMs;
                         attemptsMade := Some attempts;
                         cause := None |} |}.

(** [context ? `${context}: ${message}` : message]; the empty string is falsy. *)
Definition with_context (context : option string) (msg : string) : string :=
  match context with
  | Some c => if JsString.is_empty c then msg else c +:+ ": " +:+ msg
  | None => msg
  end.

Definition wrapError (error : Thrown) (context : option string) : ExtractionError :=
  match error with
  | ThrownExtraction e => e
  | ThrownError e =>
      {| cls := ClsExtractionError; code := UNKNOWN;
         message := with_context context (err_message e);
         metadata := Some {| retryAfter := None; attemptsMade := None;
                             cause := Some e |} |}
  | ThrownValue repr =>
      {| cls := ClsExtractionError; code := UNKNOWN;
         message := with_context context repr;
         metadata := Some {| retryAfter := None; attemptsMade := None;
                             cause := None |} |}
  end.

(** [error instanceof Error ? error : new Error(String(error))] *)
Definition as_Error (error : Thrown) : Thrown :=
  match error with
  | ThrownValue repr => ThrownError {| err_message := repr |}
  | _ => error
  end.

(** [error.message] of a value that is an [Error]. *)
Definition message_of (error : Thrown) : string :=
  match error with
  | ThrownExtraction e => message e
  | ThrownError e => err_message e
  | ThrownValue repr => repr
  end.

End Errors.

(** ** The world outside the scheduler, and sequential effectful code *)

Module Runtime.
Import Errors.

(** What the program does that an observer outside can see. *)
Inductive Event :=
| EvSleep (ms : Z)                                   (* [await sleep(ms)] *)
| EvCall                                             (* the wrapped operation is invoked *)
| EvProgress (current total : nat) (status : string) (* [onProgress] *).

(** The clock reads [now] milliseconds ([Date.now()]); [calls] counts the
    invocations of wrapped operations so far; [trace] lists the events,
    oldest first. [timer n d] is how long a timer takes to fire when it is
    set for [d] milliseconds as event number [n]: timers belong to the world,
    and may fire earlier or later than asked. *)
Record World := {
  now : Z;
  calls : nat;
  trace : list Event;
  timer : nat -> Z -> N
}.

Inductive Res (A : Type) :=
| Ok (a : A)
| Throw (e : Thrown).
Arguments Ok {A} a.
Arguments Throw {A} e.

(** How a pending call settles, and how long it was pending. *)
Record Completion (T : Type) := { settled : Res T; took : N }.
Arguments settled {T} c.
Arguments took {T} c.

(** A caller's [() => Promise<T>]: its result may depend on everything in
    the world (the time, how many calls came before). It stays pending for
    a non-negative time, and it does not reach into the scheduler that
    runs it. *)
Definition Operation (T : Type) := World -> Completion T.

Section Monad.
Context {S : Type}.

Definition M (A : Type) := S -> Res A * S.

Definition ret {A} (a : A) : M A := fun s => (Ok a, s).
Definition throw {A} (e : Thrown) : M A := fun s => (Throw e, s).

Definition bind {A B} (c : M A) (k : A -> M B) : M B :=
  fun s => match c s with
           | (Ok a, s') => k a s'
           | (Throw e, s') => (Throw e, s')
           end.

(** [try { c } catch (error) { handler(error) }] *)
Definition try_catch {A} (c : M A) (handler : Thrown -> M A) : M A :=
  fun s => match c s with
           | (Ok a, s') => (Ok a, s')
           | (Throw e, s') => handler e s'
           end.

Definition gets {A} (f : S -> A) : M A := fun s => (Ok (f s), s).
Definition modify (f : S -> S) : M unit := fun s => (Ok tt, f s).
End Monad.
Arguments M : clear implicits.

Module Import Notations.
Notation "'let*' x := c 'in' k" := (bind c (fun x => k))
  (at level 10, x name, c at level 100, k at level 200).
End Notations.

(** The longest delay [setTimeout] takes: [2^31 - 1] ms. *)
Definition TIMEOUT_MAX : Z := 2147483647.

(** The delay [setTimeout(callback, ms)] sets the timer for: a delay below
    1 or above [TIMEOUT_MAX] is set to 1. *)
Definition timeout_delay (ms : Z) : Z :=
  if (1 <=? ms) && (ms <=? TIMEOUT_MAX) then ms else 1.
Arguments timeout_delay : simpl never.

(** How long [setTimeout(resolve, ms)] takes to call [resolve] in [w]. *)
Definition timer_wait (w : World) (ms : Z) : Z :=
  Z.of_N (timer w (length (trace w)) (timeout_delay ms)).

(** [new Promise((resolve) => setTimeout(resolve, ms))], awaited. *)
Definition world_sleep (ms : Z) (w : World) : World :=
  {| now := now w + timer_wait w ms; calls := calls w;
     trace := trace w ++ [EvSleep ms]; timer := timer w |}.

Definition world_call {T} (fn : Operation T) (w : World) : World :=
  {| now := now w + Z.of_N (took (fn w)); calls := Datatypes.S (calls w);
     trace := trace w ++ [EvCall]; timer := timer w |}.

Definition world_progress (current total : nat) (status : string) (w : World) : World :=
  {| now := now w; calls := calls w;
     trace := trace w ++ [EvProgress current total status]; timer := timer w |}.

End Runtime.

(** ** types.ts *)

Module Types.

(** [maxRetries] only bounds a loop counter that starts at 1: a negative or
    fractional value is outside the model (a negative one runs the loop as
    often as [0] does). *)
Record RateLimitConfig := { delayMs : Z; maxRetries : nat }.

Definition DEFAULT_RATE_LIMIT : RateLimitConfig :=
  {| delayMs := 7000; maxRetries := 3 |}.

(** [Partial<RateLimitConfig>] *)
Record PartialRateLimitConfig := {
  opt_delayMs : option Z;
  opt_maxRetries : option nat
}.

(** [{ ...DEFAULT_RATE_LIMIT, ...config }] *)
Definition merge_config (partial : PartialRateLimitConfig) : RateLimitConfig :=
  {| delayMs := default (delayMs DEFAULT_RATE_LIMIT) (opt_delayMs partial);
     maxRetries := default (maxRetries DEFAULT_RATE_LIMIT) (opt_maxRetries partial) |}.

Definition full_config (c : RateLimitConfig) : PartialRateLimitConfig :=
  {| opt_delayMs := Some (delayMs c); opt_maxRetries := Some (maxRetries c) |}.

End Types.

(** ** rate-limiter.ts *)

Module RateLimiter.
Import Errors Runtime Runtime.Notations Types.

Record RateLimiterMetrics := {
  totalExecutions : nat;
  totalWaitTimeMs : Z;
  totalRetries : nat;
  totalFailures : nat;
  lastExecutionAt : option Z
}.

Definition zero_metrics : RateLimiterMetrics :=
  {| totalExecutions := 0; totalWaitTimeMs := 0; totalRetries := 0;
     totalFailures := 0; lastExecutionAt := None |}.

(** The fields of a [RateLimiter] object. *)
Record RateLimiter := {
  lastCallTime : Z;
  config : RateLimitConfig;
  metrics : RateLimiterMetrics
}.

(** [new RateLimiter(config)] *)
Definition new_RateLimiter (partial : PartialRateLimitConfig) : RateLimiter :=
  {| lastCallTime := 0; config := merge_config partial; metrics := zero_metrics |}.

(** A scheduler object ([this]) and the world it runs in. *)
Record St := { this : RateLimiter; world : World }.

Definition on_world (f : World -> World) (st : St) : St :=
  {| this := this st; world := f (world st) |}.

Definition on_metrics (f : RateLimiterMetrics -> RateLimiterMetrics) (st : St) : St :=
  {| this := {| lastCallTime := lastCallTime (this st);
                config := config (this st);
                metrics := f (metrics (this st)) |};
     world := world st |}.

Definition set_lastCallTime (t : Z) (st : St) : St :=
  {| this := {| lastCallTime := t;
                config := config (this st);
                metrics := metrics (this st) |};
     world := world st |}.

Definition add_wait (ms : Z) (m : RateLimiterMetrics) : RateLimiterMetrics :=
  {| totalExecutions := totalExecutions m;
     totalWaitTimeMs := totalWaitTimeMs m + ms;
     totalRetries := totalRetries m;
     totalFailures := totalFailures m;
     lastExecutionAt := lastExecutionAt m |}.

Definition incr_executions (m : RateLimiterMetrics) : RateLimiterMetrics :=
  {| totalExecutions := S (totalExecutions m);
     totalWaitTimeMs := totalWaitTimeMs m;
     totalRetries := totalRetries m;
     totalFailures := totalFailures m;
     lastExecutionAt := lastExecutionAt m |}.

Definition set_lastExecutionAt (t : Z) (m : RateLimiterMetrics) : RateLimiterMetrics :=
  {| totalExecutions := totalExecutions m;
     totalWaitTimeMs := totalWaitTimeMs m;
     totalRetries := totalRetries m;
     totalFailures := totalFailures m;
     lastExecutionAt := Some t |}.

Definition incr_retries (m : RateLimiterMetrics) : RateLimiterMetrics :=
  {| totalExecutions := totalExecutions m;
     totalWaitTimeMs := totalWaitTimeMs m;
     totalRetries := S (totalRetries m);
     totalFailures := totalFailures m;
     lastExecutionAt := lastExecutionAt m |}.

Definition incr_failures (m : RateLimiterMetrics) : RateLimiterMetrics :=
  {| totalExecutions := totalExecutions m;
     totalWaitTimeMs := totalWaitTimeMs m;
     totalRetries := totalRetries m;
     totalFailures := S (totalFailures m);
     lastExecutionAt := lastExecutionAt m |}.

(** [Date.now()] *)
Definition Date_now : M St Z := gets (fun st => now (world st)).

(** [await sleep(ms)] *)
Definition sleep (ms : Z) : M St unit := modify (on_world (world_sleep ms)).

(** [await fn()] *)
Definition await_call {T} (fn : Operation T) : M St T :=
  fun st => (settled (fn (world st)), on_world (world_call fn) st).

Definition waitForNextSlot : M St Z :=
  let* now := Date_now in
  let* lastCall := gets (fun st => lastCallTime (this st)) in
  let elapsed := now - lastCall in
  let* delay := gets (fun st => delayMs (config (this st))) in
  let remaining := delay - elapsed in
  let* _ :=
    (if 0 <? remaining then
       let* _ := sleep remaining in
       modify (on_metrics (add_wait remaining))
     else ret tt) in
  let* now' := Date_now in
  let* _ := modify (set_lastCallTime now') in
  ret (Z.max 0 remaining).

Definition rate_limit_patterns : list string :=
  ["429"; "rate limit"; "rate_limit"; "quota"; "too many requests"].

Definition isRateLimitError (error : Thrown) : bool :=
  let message := JsString.toLowerCase (message_of error) in
  JsString.includes message "429"
  || JsString.includes message "rate limit"
  || JsString.includes message "rate_limit"
  || JsString.includes message "quota"
  || JsString.includes message "too many requests".

Definition exhausted_message (operationName : string) (attempt : nat) : string :=
  operationName +:+ " failed: Rate limit exceeded after " +:+ pretty attempt
    +:+ " attempts. "
    +:+ "Consider increasing delayMs or reducing request volume.".

(** The [for] loop of [execute], entered with [attempt] and [remaining]
    iterations for which the guard [attempt <= maxRetries] still holds;
    with none left, control reaches the statement after the loop. *)
Fixpoint execute_loop {T} (fn : Operation T) (operationName : string)
    (remaining attempt : nat) (lastError : option Thrown) : M St T :=
  match remaining with
  | O =>
      let* retries := gets (fun st => maxRetries (config (this st))) in
      throw (match lastError with
             | Some e => e
             | None => ThrownError {| err_message :=
                 operationName +:+ " failed after " +:+ pretty retries
                   +:+ " attempts" |}
             end)
  | S remaining' =>
      let* _ := waitForNextSlot in
      try_catch
        (let* result := await_call fn in
         let* _ := modify (on_metrics incr_executions) in
         let* t := Date_now in
         let* _ := modify (on_metrics (set_lastExecutionAt t)) in
         ret result)
        (fun error =>
           let lastError := as_Error error in
           let isRateLimit := isRateLimitError lastError in
           let* cfg := gets (fun st => config (this st)) in
           if isRateLimit && (attempt <? maxRetries cfg)%nat then
             let* _ := modify (on_metrics incr_retries) in
             let backoffMs := 2 ^ Z.of_nat attempt * delayMs cfg in
             let* _ := sleep backoffMs in
             let* _ := modify (on_metrics (add_wait backoffMs)) in
             execute_loop fn operationName remaining' (S attempt) (Some lastError)
           else
             let* _ := modify (on_metrics incr_failures) in
             if isRateLimit then
               throw (ThrownExtraction
                        (RateLimitError (exhausted_message operationName attempt)
                           (delayMs cfg * 2 ^ Z.of_nat attempt) attempt))
             else
               throw (ThrownExtraction (wrapError lastError (Some operationName))))
  end.

Definition execute {T} (fn : Operation T) (operationName : string) : M St T :=
  let* retries := gets (fun st => maxRetries (config (this st))) in
  execute_loop fn operationName retries 1%nat None.

Definition getConfig (l : RateLimiter) : RateLimitConfig := config l.
Definition getMetrics (l : RateLimiter) : RateLimiterMetrics := metrics l.

Definition resetMetrics (l : RateLimiter) : RateLimiter :=
  {| lastCallTime := lastCallTime l; config := config l; metrics := zero_metrics |}.

End RateLimiter.

(** ** Extracted items

    An item is a JSON object validated against the extractor's schema: its
    own properties in insertion order. Numbers are rationals here: rounding
    of IEEE doubles is outside the model, and validated JSON holds neither
    NaN nor an infinity. *)

Module Json.

Inductive JsValue :=
| JsNull
| JsBool (b : bool)
| JsNum (q : Q)
| JsStr (s : string)
| JsArr (elems : list JsValue)
| JsObj (fields : list (string * JsValue)).

Definition Item := list (string * JsValue).

(** [item[name]]; [None] is [undefined]. *)
Fixpoint prop (item : Item) (name : string) : option JsValue :=
  match item with
  | [] => None
  | (k, v) :: rest => if String.eqb k name then Some v else prop rest name
  end.

(** [typeof v === "number"] *)
Definition is_number (v : option JsValue) : bool :=
  match v with Some (JsNum _) => true | _ => false end.

Definition Qis_zero (q : Q) : bool := (Qnum q =? 0)%Z.

(** Truthiness, as [||] tests it. *)
Definition truthy (v : option JsValue) : bool :=
  match v with
  | None | Some JsNull => false
  | Some (JsBool b) => b
  | Some (JsNum q) => negb (Qis_zero q)
  | Some (JsStr s) => negb (JsString.is_empty s)
  | Some (JsArr _) | Some (JsObj _) => true
  end.

(** [v || 0] *)
Definition or_zero (v : option JsValue) : JsValue :=
  match v with
  | Some x => if truthy v then x else JsNum 0
  | None => JsNum 0
  end.

(** The running value of [sum + x] started from the number [0]: a number
    as long as [x] is a number, a boolean or [null]; once [x] is a string,
    an array or an object, [+] concatenates text and the sum stays text. *)
Inductive Sum :=
| SumNum (q : Q)
| SumText.

Definition js_add (sum : Sum) (x : JsValue) : Sum :=
  match sum, x with
  | SumNum a, JsNum b => SumNum (a + b)
  | SumNum a, JsBool b => SumNum (a + (if b then 1 else 0))
  | SumNum a, JsNull => SumNum a
  | _, _ => SumText
  end.

(** [sum / n]: the quotient of a number, or of text converted to a number
    (about which the model says nothing more). *)
Inductive Average :=
| AvgNum (q : Q)
| AvgOfText.

Definition js_div (sum : Sum) (n : nat) : Average :=
  match sum with
  | SumNum a => AvgNum (a / inject_Z (Z.of_nat n))
  | SumText => AvgOfText
  end.

End Json.

(** ** extraction-pipeline.ts *)

Module Pipeline.
Import Errors Runtime Runtime.Notations Types RateLimiter Json.

Record PageChunk := { content : string; pageNumber : nat }.

(** [ExtractorConfig]; the schema is part of the generation capability
    below. [buildPrompt] is caller code and may throw. *)
Record ExtractorConfig := {
  name : string;
  description : string;
  buildPrompt : string -> Res string;
  rateLimit : option RateLimitConfig
}.

(** [PageExtractionResult<T>] (fields prefixed: [items] and [pageNumber]
    also name fields of other records). *)
Record PageExtractionResult := {
  page_items : list Item;
  page_pageNumber : nat;
  page_success : bool;
  page_error : option string;
  page_errorCode : option ErrorCode
}.

Record ExtractionMetrics := {
  totalItems : nat;
  itemsBeforeDedup : nat;
  processingTimeMs : Z;
  averageConfidence : option Average
}.

Record ExtractionResult := {
  items : list Item;
  pagesProcessed : nat;
  pagesFailed : nat;
  pageResults : list PageExtractionResult;
  metrics : ExtractionMetrics
}.

Definition dquote : string := String (ascii_of_nat 34) EmptyString.
Definition newline : string := String (ascii_of_nat 10) EmptyString.

Section WithCapabilities.
(** [JSON.stringify] on items. *)
Variable stringify : Item -> string.
(** [generateObject] of the AI SDK for this pipeline's model and
    temperature, the extractor's schema and a prompt: the validated
    [object.items], or a failure. *)
Variable generateObject : ExtractorConfig -> string -> Operation (list Item).
(** Whether the pipeline was constructed with an [onProgress] callback. *)
Variable onProgress : bool.

(** [() => this.extractSingle(text, extractor)] as the scheduler calls it. *)
Definition extractSingle (text : string) (extractor : ExtractorConfig)
  : Operation (list Item) :=
  fun w =>
    match buildPrompt extractor text with
    | Throw e => {| settled := Throw e; took := 0%N |}
    | Ok prompt =>
        let pending := generateObject extractor prompt w in
        {| settled :=
             match settled pending with
             | Ok object_items => Ok object_items
             | Throw error =>
                 Throw (ThrownExtraction
                          (wrapError error
                             (Some ("Extraction failed for schema " +:+ dquote
                                      +:+ name extractor +:+ dquote))))
             end;
           took := took pending |}
    end.

Definition dedup_key (item : Item) : string :=
  match prop item "description" with
  | Some (JsStr d) => JsString.trim (JsString.toLowerCase d)
  | _ => stringify item
  end.

Definition dedup_step (acc : gset string * list Item) (item : Item)
  : gset string * list Item :=
  let '(seen, deduplicated) := acc in
  let key := dedup_key item in
  if decide (key ∈ seen) then (seen, deduplicated)
  else ({[ key ]} ∪ seen, deduplicated ++ [item]).

Definition deduplicateItems (items : list Item) : list Item :=
  snd (fold_left dedup_step items (∅, [])).

(** [this.onProgress?.(current, total, status)]; the callback returns. *)
Definition report_progress (current total : nat) (status : string) : M St unit :=
  if onProgress then modify (on_world (world_progress current total status))
  else ret tt.

Definition page_ok (items : list Item) (pageNum : nat) : PageExtractionResult :=
  {| page_items := items; page_pageNumber := pageNum; page_success := true;
     page_error := None; page_errorCode := None |}.

Definition page_failed (exError : ExtractionError) (pageNum : nat)
  : PageExtractionResult :=
  {| page_items := []; page_pageNumber := pageNum; page_success := false;
     page_error := Some (message exError);
     page_errorCode := Some (code exError) |}.

(** The [for] loop over [chunks], entered at index [i] with the chunks
    from [i] on still to do. *)
Fixpoint pages_loop (extractor : ExtractorConfig) (total i : nat)
    (todo : list PageChunk)
    (pageResults : list PageExtractionResult) (allItems : list Item)
  : M St (list PageExtractionResult * list Item) :=
  match todo with
  | [] => ret (pageResults, allItems)
  | chunk :: rest =>
      let pageNum := pageNumber chunk in
      let* _ := report_progress (i + 1) total
                  ("Processing page " +:+ pretty pageNum) in
      let* acc :=
        try_catch
          (let* items :=
             execute (extractSingle (content chunk) extractor)
               ("Page " +:+ pretty pageNum +:+ " extraction") in
           ret (pageResults ++ [page_ok items pageNum], allItems ++ items))
          (fun error =>
             let exError := wrapError error None in
             ret (pageResults ++ [page_failed exError pageNum], allItems)) in
      pages_loop extractor total (S i) rest (fst acc) (snd acc)
  end.

Definition confidence_total (allItems : list Item) : Sum :=
  fold_left (fun sum item => js_add sum (or_zero (prop item "confidence")))
    allItems (SumNum 0).

Definition compute_averageConfidence (allItems : list Item) : option Average :=
  match allItems with
  | first :: _ =>
      if is_number (prop first "confidence")
      then Some (js_div (confidence_total allItems) (length allItems))
      else None
  | [] => None
  end.

Definition extractFromPages_run (chunks : list PageChunk)
    (extractor : ExtractorConfig) (startTime : Z) : M St ExtractionResult :=
  let* acc := pages_loop extractor (length chunks) 0 chunks [] [] in
  let pageResults := fst acc in
  let itemsBeforeDedup := length (snd acc) in
  let allItems := deduplicateItems (snd acc) in
  let* finish := Date_now in
  let processingTimeMs := finish - startTime in
  let pagesFailed := length (filter (fun r => page_success r = false) pageResults) in
  ret {| items := allItems;
         pagesProcessed := length chunks;
         pagesFailed := pagesFailed;
         pageResults := pageResults;
         metrics := {| totalItems := length allItems;
                       itemsBeforeDedup := itemsBeforeDedup;
                       processingTimeMs := processingTimeMs;
                       averageConfidence := compute_averageConfidence allItems |} |}.

(** The scheduler each run creates:
    [new RateLimiter(extractor.rateLimit || DEFAULT_RATE_LIMIT)]. *)
Definition run_limiter (extractor : ExtractorConfig) : RateLimiter :=
  new_RateLimiter (full_config (default DEFAULT_RATE_LIMIT (rateLimit extractor))).

(** [extractFromPages]: the result (or what it throws) and the world
    afterwards, together with the run's scheduler as it was left. *)
Definition extractFromPages (chunks : list PageChunk)
    (extractor : ExtractorConfig) (w : World) : Res ExtractionResult * St :=
  let startTime := now w in
  extractFromPages_run chunks extractor startTime
    {| this := run_limiter extractor; world := w |}.

End WithCapabilities.

(** The [while] loop of [chunkBySize]. It need not end (it does not for
    [maxChunkSize = 0] and a non-blank text), so the model counts
    iterations: [None] when [fuel] iterations were not enough. *)
Fixpoint chunkBySize_loop (fuel : nat) (maxChunkSize : Z) (remaining : string)
    (pageNum : nat) (chunks : list PageChunk) : option (list PageChunk) :=
  if 0 <? JsString.len remaining then
    match fuel with
    | O => None
    | S fuel' =>
        let splitIndex :=
          if maxChunkSize <? JsString.len remaining then
            let paragraphBreak :=
              JsString.lastIndexOf remaining (newline +:+ newline) maxChunkSize in
            (* paragraphBreak > maxChunkSize * 0.5 *)
            if maxChunkSize <? 2 * paragraphBreak then paragraphBreak
            else
              let sentenceBreak :=
                JsString.lastIndexOf remaining ". " maxChunkSize in
              if maxChunkSize <? 2 * sentenceBreak then sentenceBreak + 1
              else maxChunkSize
          else JsString.len remaining in
        chunkBySize_loop fuel' maxChunkSize
          (JsString.trim (JsString.slice_from remaining splitIndex))
          (S pageNum)
          (chunks ++ [{| content := JsString.trim (JsString.slice remaining 0 splitIndex);
                         pageNumber := pageNum |}])
    end
  else Some chunks.

(** [chunkBySize(text, maxChunkSize)] run for at most [fuel] iterations. *)
Definition chunkBySize_fuel (fuel : nat) (text : string) (maxChunkSize : Z)
  : option (list PageChunk) :=
  chunkBySize_loop fuel maxChunkSize text 1%nat [].

(** Every iteration of a run with [1 <= maxChunkSize] consumes a character,
    so as many iterations as the text has characters are enough. *)
Definition chunkBySize (text : string) (maxChunkSize : Z) : option (list PageChunk) :=
  chunkBySize_fuel (String.length text) text maxChunkSize.

End Pipeline.

(** ** Vocabulary of the statements *)

Module Expected.
Import Errors Runtime Types RateLimiter.

(** What [waitForNextSlot] computes from the state it is called in. *)
Definition slot_remaining (st : St) : Z :=
  delayMs (config (this st)) - (now (world st) - lastCallTime (this st)).

(** How long [waitForNextSlot] is suspended: the time its timer takes. *)
Definition slot_wait (st : St) : Z :=
  if 0 <? slot_remaining st then timer_wait (world st) (slot_remaining st) else 0.

(** The state [waitForNextSlot] leaves. *)
Definition after_slot (st : St) : St :=
  if 0 <? slot_remaining st then
    set_lastCallTime (now (world st) + slot_wait st)
      (on_metrics (add_wait (slot_remaining st))
         (on_world (world_sleep (slot_remaining st)) st))
  else set_lastCallTime (now (world st)) st.

(** The state after [waitForNextSlot] and the invocation of [fn], and after
    the back-off that follows a throttled attempt. *)
Definition after_call {T} (fn : Operation T) (st : St) : St :=
  on_world (world_call fn) (after_slot st).

Definition after_backoff {T} (fn : Operation T) (attempt : nat) (st : St) : St :=
  let backoffMs := 2 ^ Z.of_nat attempt * delayMs (config (this st)) in
  on_metrics (add_wait backoffMs)
    (on_world (world_sleep backoffMs)
       (on_metrics incr_retries (after_call fn st))).

(** The events of one [waitForNextSlot]: a sleep, or nothing. *)
Definition slot_events (st : St) : list Event :=
  if 0 <? slot_remaining st then [EvSleep (slot_remaining st)] else [].

(** Attempts [k], [k+1], ..., [k+more], each followed by its back-off sleep
    except the last. *)
Fixpoint backoff_schedule (d : Z) (k more : nat) : list Event :=
  match more with
  | O => [EvCall]
  | S more' => EvCall :: EvSleep (2 ^ Z.of_nat k * d) :: backoff_schedule d (S k) more'
  end.

(** Every back-off timer of the attempts from [lo] to [hi - 1] lasts at
    least [delayMs], whenever it is set. *)
Definition backoffs_last (st : St) (lo hi : nat) : Prop :=
  forall n k,
    (lo <= k < hi)%nat ->
    delayMs (config (this st))
    <= Z.of_N (timer (world st) n
                 (timeout_delay (2 ^ Z.of_nat k * delayMs (config (this st))))).

(** No timer of [w] set for at most [limit] ms fires more than [eps] ms
    early. *)
Definition fires_within (w : World) (eps limit : Z) : Prop :=
  forall n d, 1 <= d <= limit -> d - eps <= Z.of_N (timer w n d).

(** The code units below 256 that are upper-case letters: A to Z, and 192
    to 222 but for the multiplication sign. Their lower-case forms are 32
    above them. *)
Definition upper_case (c : ascii) : Prop :=
  (65 <= nat_of_ascii c <= 90)%nat
  \/ ((192 <= nat_of_ascii c <= 222)%nat /\ nat_of_ascii c <> 215%nat).

(** The test of [lower_ascii], on the number of a code unit. *)
Definition moves_up (n : nat) : bool :=
  (((65 <=? n) && (n <=? 90)) || ((192 <=? n) && (n <=? 222) && negb (n =? 215)))%nat.

(** The same code unit up to letter case. *)
Definition same_letter (a b : ascii) : Prop :=
  a = b
  \/ (upper_case a /\ nat_of_ascii b = (nat_of_ascii a + 32)%nat)
  \/ (upper_case b /\ nat_of_ascii a = (nat_of_ascii b + 32)%nat).

(** The same text up to letter case. *)
Fixpoint same_text (a b : string) : Prop :=
  match a, b with
  | EmptyString, EmptyString => True
  | String x a', String y b' => same_letter x y /\ same_text a' b'
  | _, _ => False
  end.

(** [pat] occurs in [msg], in any letter case. *)
Definition occurs_ci (msg pat : string) : Prop :=
  exists pre mid post, msg = pre +:+ mid +:+ post /\ same_text mid pat.

(** The white space below 256: TAB, LF, VT, FF, CR, SPACE, NBSP. *)
Definition white_space (c : ascii) : bool :=
  existsb (Nat.eqb (nat_of_ascii c)) [9; 10; 11; 12; 13; 32; 160]%nat.

(** [msg] contains [pat] up to letter case. *)
Definition contains_ci (msg pat : string) : Prop :=
  exists pre mid post,
    msg = pre +:+ mid +:+ post
    /\ JsString.toLowerCase mid = JsString.toLowerCase pat.

(** Counter by counter, [a] is not above [b]. *)
Definition metrics_le (a b : RateLimiterMetrics) : Prop :=
  (totalExecutions a <= totalExecutions b)%nat
  /\ totalWaitTimeMs a <= totalWaitTimeMs b
  /\ (totalRetries a <= totalRetries b)%nat
  /\ (totalFailures a <= totalFailures b)%nat.

(** A caller's use of a scheduler: one of its two asynchronous methods.
    A caller that catches what [execute] throws goes on with the scheduler
    in the state the call left it in. *)
Inductive LimiterCall (T : Type) :=
| CallWaitForNextSlot
| CallExecute (fn : Operation T) (operationName : string).
Arguments CallWaitForNextSlot {T}.
Arguments CallExecute {T} fn operationName.

(** [limiter.execute(fn, operationName)] as such a use. *)
Definition as_call {T} (op : Operation T * string) : LimiterCall T :=
  CallExecute (fst op) (snd op).

Definition run_call {T} (st : St) (c : LimiterCall T) : St :=
  match c with
  | CallWaitForNextSlot => snd (waitForNextSlot st)
  | CallExecute fn operationName => snd (execute fn operationName st)
  end.

Definition run_calls {T} (cs : list (LimiterCall T)) (st : St) : St :=
  fold_left run_call cs st.

End Expected.

Module PipelineExpected.
Import Errors Runtime Types RateLimiter Json Pipeline.

Definition progress_status (chunk : PageChunk) : string :=
  "Processing page " +:+ pretty (pageNumber chunk).

Definition execute_label (chunk : PageChunk) : string :=
  "Page " +:+ pretty (pageNumber chunk) +:+ " extraction".

(** The state after the progress report for the chunk at index [i]. *)
Definition after_progress (onProgress : bool) (total i : nat) (chunk : PageChunk)
    (st : St) : St :=
  if onProgress
  then on_world (world_progress (i + 1) total (progress_status chunk)) st
  else st.

(** What the loop records for a chunk, by the way [execute] ended. *)
Definition recorded (chunk : PageChunk) (ended : Res (list Item))
  : PageExtractionResult :=
  match ended with
  | Ok items => page_ok items (pageNumber chunk)
  | Throw e => page_failed (wrapError e None) (pageNumber chunk)
  end.

(** What an ended [execute] adds to the aggregate. *)
Definition items_of (ended : Res (list Item)) : list Item :=
  match ended with
  | Ok items => items
  | Throw _ => []
  end.

(** [pr] is what the loop records for [chunk] when the scheduler's [execute]
    of the chunk's extraction, started in some state, ends as it does. *)
Definition chunk_outcome
    (generateObject : ExtractorConfig -> string -> Operation (list Item))
    (extractor : ExtractorConfig) (chunk : PageChunk)
    (pr : PageExtractionResult) : Prop :=
  exists st,
    pr = recorded chunk
           (fst (execute (extractSingle generateObject (content chunk) extractor)
                   (execute_label chunk) st)).

(** How the scheduler's [execute] ends for each chunk of a run, the chunks
    taken in order from index [i] and state [st], each started in the state
    the one before left the scheduler and the world in. *)
Fixpoint chunk_endings
    (generateObject : ExtractorConfig -> string -> Operation (list Item))
    (onProgress : bool) (extractor : ExtractorConfig) (total i : nat)
    (todo : list PageChunk) (st : St) : list (Res (list Item)) :=
  match todo with
  | [] => []
  | chunk :: rest =>
      let ran :=
        execute (extractSingle generateObject (content chunk) extractor)
          (execute_label chunk) (after_progress onProgress total i chunk st) in
      fst ran :: chunk_endings generateObject onProgress extractor total (S i) rest (snd ran)
  end.

(** No sleep comes before the first invocation. *)
Fixpoint starts_without_wait (evs : list Event) : bool :=
  match evs with
  | [] => true
  | EvCall :: _ => true
  | EvSleep _ :: _ => false
  | EvProgress _ _ _ :: rest => starts_without_wait rest
  end.

(** The first-seen survivors of [l], given the keys [seen] before it. *)
Fixpoint dedup_from (key : Item -> string) (seen : gset string) (l : list Item)
  : list Item :=
  match l with
  | [] => []
  | x :: r =>
      if decide (key x ∈ seen) then dedup_from key seen r
      else x :: dedup_from key ({[ key x ]} ∪ seen) r
  end.

(** The arithmetic mean. *)
Definition mean (qs : list Q) : Q :=
  (fold_right Qplus 0 qs / inject_Z (Z.of_nat (length qs)))%Q.

(** An item's [confidence] when it is a number, and [0] otherwise. *)
Definition confidence_or_zero (item : Item) : Q :=
  match prop item "confidence" with
  | Some (JsNum q) => q
  | _ => 0%Q
  end.

(** The item has a numeric [confidence], or none at all. *)
Definition numeric_or_absent (item : Item) : Prop :=
  prop item "confidence" = None \/ exists q, prop item "confidence" = Some (JsNum q).

Fixpoint all_space (s : string) : bool :=
  match s with
  | EmptyString => true
  | String c r => Expected.white_space c && all_space r
  end.

(** [d] is [base] up to letter case and surrounding white space. *)
Definition case_space_variant (base d : string) : Prop :=
  exists pre mid post,
    d = pre +:+ mid +:+ post
    /\ all_space pre = true
    /\ all_space post = true
    /\ Expected.same_text mid base.

(** The index at which an iteration of [chunkBySize] splits. *)
Definition splitIndex_of (maxChunkSize : Z) (remaining : string) : Z :=
  if maxChunkSize <? JsString.len remaining then
    if maxChunkSize <? 2 * JsString.lastIndexOf remaining (newline +:+ newline) maxChunkSize
    then JsString.lastIndexOf remaining (newline +:+ newline) maxChunkSize
    else if maxChunkSize <? 2 * JsString.lastIndexOf remaining ". " maxChunkSize
         then JsString.lastIndexOf remaining ". " maxChunkSize + 1
         else maxChunkSize
  else JsString.len remaining.

End PipelineExpected.

(** ** Concrete schedulers, operations and runs used as examples *)

Module Fixtures.
Import Errors Runtime Types RateLimiter Json Pipeline.

(** Timers that fire on time. *)
Definition punctual : nat -> Z -> N := fun _ d => Z.to_N d.

(** Timers that fire a millisecond early. *)
Definition early : nat -> Z -> N := fun _ d => Z.to_N (d - 1).

(** A clock reading in November 2026, nothing having happened yet, and
    timers that fire on time. *)
Definition world0 : World :=
  {| now := 1793000000000; calls := 0; trace := []; timer := punctual |}.

(** [new RateLimiter({ delayMs: 10, maxRetries: 2 })] at that time. *)
Definition limiter0 : St :=
  {| this := new_RateLimiter {| opt_delayMs := Some 10; opt_maxRetries := Some 2%nat |};
     world := world0 |}.

(** [() => { throw new Error("429 Too Many Requests") }], 5 ms per call. *)
Definition always_throttled : Operation nat :=
  fun _ => {| settled := Throw (ThrownError {| err_message := "429 Too Many Requests" |});
              took := 5%N |}.

(** [() => { throw new Error("Database connection failed") }] *)
Definition always_broken : Operation nat :=
  fun _ => {| settled := Throw (ThrownError {| err_message := "Database connection failed" |});
              took := 5%N |}.

(** [() => Promise.resolve(1)] *)
Definition always_fine : Operation nat :=
  fun _ => {| settled := Ok 1%nat; took := 5%N |}.

(** [new RateLimiter({ delayMs: -5, maxRetries: 2 })] *)
Definition negative_limiter : St :=
  {| this := new_RateLimiter {| opt_delayMs := Some (-5); opt_maxRetries := Some 2%nat |};
     world := world0 |}.


(** [new RateLimiter({ delayMs: 10, maxRetries: 5 })] *)
Definition limiter5 : St :=
  {| this := new_RateLimiter {| opt_delayMs := Some 10; opt_maxRetries := Some 5%nat |};
     world := world0 |}.

(** An operation that answers "429 Too Many Requests" on the first
    invocation ever made and "Database connection failed" afterwards. *)
Definition throttled_then_broken : Operation nat :=
  fun w => if (calls w <? 1)%nat then always_throttled w else always_broken w.

(** A scheduler whose interval (2 * 10^12 ms) exceeds the clock reading. *)
Definition patient_limiter : St :=
  {| this := new_RateLimiter {| opt_delayMs := Some 2000000000000;
                                opt_maxRetries := None |};
     world := world0 |}.

(** The extractor of the integration tests. *)
Definition testExtractor : ExtractorConfig :=
  {| name := "test-extractor";
     description := "A test extractor for integration tests";
     buildPrompt := fun text => Ok ("Extract from: " +:+ text);
     rateLimit := Some {| delayMs := 10; maxRetries := 2 |} |}.

(** A stand-in for [JSON.stringify]: the property names. Every item of the
    examples has a textual description, so no key of theirs depends on it. *)
Definition property_names (item : Item) : string :=
  String.concat "," (map fst item).

Definition three_pages : list PageChunk :=
  [ {| content := "Success 1"; pageNumber := 1 |};
    {| content := "Fail 2"; pageNumber := 2 |};
    {| content := "Success 3"; pageNumber := 3 |} ].

Definition header_item : Item :=
  [("name", JsStr "Header"); ("description", JsStr "Quarterly report")].

(** A generation capability that fails on the second page and finds the
    same page header on the others. *)
Definition header_generation : ExtractorConfig -> string -> Operation (list Item) :=
  fun _ prompt _ =>
    if String.eqb prompt "Extract from: Fail 2"
    then {| settled := Throw (ThrownError {| err_message := "Simulated LLM Failure" |});
            took := 3%N |}
    else {| settled := Ok [header_item]; took := 3%N |}.

Definition page1_item : Item := [("name", JsStr "Page 1 Item"); ("description", JsStr "first")].
Definition page3_item : Item := [("name", JsStr "Page 3 Item"); ("description", JsStr "third")].

(** The generation capability of the error-isolation test: page 2 fails. *)
Definition isolation_generation : ExtractorConfig -> string -> Operation (list Item) :=
  fun _ prompt _ =>
    if String.eqb prompt "Extract from: Fail 2"
    then {| settled := Throw (ThrownError {| err_message := "Simulated LLM Failure" |});
            took := 3%N |}
    else if String.eqb prompt "Extract from: Success 1"
         then {| settled := Ok [page1_item]; took := 3%N |}
         else {| settled := Ok [page3_item]; took := 3%N |}.

Definition rated_item : Item :=
  [("description", JsStr "alpha"); ("confidence", JsNum (9 # 10))].

Definition unrated_item : Item :=
  [("description", JsStr "beta")].

(** A generation capability that finds an item with a confidence and one
    without. *)
Definition mixed_generation : ExtractorConfig -> string -> Operation (list Item) :=
  fun _ _ _ => {| settled := Ok [rated_item; unrated_item]; took := 3%N |}.

Definition one_page : list PageChunk :=
  [ {| content := "Page 1"; pageNumber := 1 |} ].

Definition shared_upper : Item :=
  [("name", JsStr "Original"); ("description", JsStr "Shared ID")].

Definition shared_lower : Item :=
  [("name", JsStr "Duplicate"); ("description", JsStr "  shared id ")].

(** Code units above 127: E with acute accent, upper and lower case, and
    the no-break space. *)
Definition E_acute : string := String (ascii_of_nat 201) EmptyString.
Definition e_acute : string := String (ascii_of_nat 233) EmptyString.
Definition nbsp : string := String (ascii_of_nat 160) EmptyString.

Definition cafe_upper : Item :=
  [("name", JsStr "first"); ("description", JsStr ("CAF" +:+ E_acute))].

Definition cafe_lower : Item :=
  [("name", JsStr "second");
   ("description", JsStr (nbsp +:+ "caf" +:+ e_acute +:+ nbsp))].

End Fixtures.

(** ** More of the sources: [String.prototype.split] and [splitIntoPages] *)

Module PipelineUtils.
Import Pipeline.

(** The scan of [s.split(sep)] for a non-empty [sep]: [cur] is the piece
    being read, [skipping] counts the characters of a separator just found
    that are still to be passed over. *)
Fixpoint split_scan (sep : string) (skipping : nat) (cur : string) (s : string)
  : list string :=
  match s with
  | EmptyString => [cur]
  | String c r =>
      match skipping with
      | S k => split_scan sep k cur r
      | O =>
          if String.prefix sep s
          then cur :: split_scan sep (String.length sep - 1) EmptyString r
          else split_scan sep 0 (cur +:+ String c EmptyString) r
      end
  end.

Fixpoint code_units (s : string) : list string :=
  match s with
  | EmptyString => []
  | String c r => String c EmptyString :: code_units r
  end.

(** [s.split(sep)]: with an empty separator, the code units of [s]. *)
Definition split (s sep : string) : list string :=
  if JsString.is_empty sep then code_units s else split_scan sep 0 EmptyString s.

(** No occurrence of [sep] starts inside [cur] when [cur] is followed by
    the text still to scan. *)
Definition clear_of (sep cur s : string) : Prop :=
  forall q, String.prefix q s = true ->
            JsString.includes (cur +:+ q) sep = JsString.includes q sep.

(** The default delimiter of [splitIntoPages]. *)
Definition PAGE_DELIMITER : string := newline +:+ "---PAGE---" +:+ newline.

(** [pages.map((content, index) => ({ content: content.trim(), pageNumber: index + 1 }))] *)
Definition number_pages (pages : list string) : list PageChunk :=
  imap (fun index content =>
          {| content := JsString.trim content; pageNumber := index + 1 |}) pages.

(** [ExtractionPipeline.splitIntoPages(text, delimiter)] *)
Definition splitIntoPages (text delimiter : string) : list PageChunk :=
  number_pages (split text delimiter).

End PipelineUtils.

(** ** More vocabulary *)

Module Accounting.
Import Errors Runtime.

(** What [execute] throws when [maxRetries] is 0. *)
Definition never_attempted (label : string) : Errors.Thrown :=
  ThrownError {| err_message := label +:+ " failed after " +:+ pretty 0%nat
                                  +:+ " attempts" |}.


(** The milliseconds asked of [sleep] in a stretch of events. *)
Fixpoint sleep_total (evs : list Event) : Z :=
  match evs with
  | [] => 0
  | EvSleep ms :: rest => ms + sleep_total rest
  | _ :: rest => sleep_total rest
  end.

(** The invocations in a stretch of events. *)
Fixpoint call_count (evs : list Event) : nat :=
  match evs with
  | [] => 0
  | EvCall :: rest => S (call_count rest)
  | _ :: rest => call_count rest
  end.

(** The progress reports in a stretch of events, oldest first. *)
Fixpoint progress_reports (evs : list Event) : list (nat * nat * string) :=
  match evs with
  | [] => []
  | EvProgress current total status :: rest =>
      (current, total, status) :: progress_reports rest
  | _ :: rest => progress_reports rest
  end.

(** A string without its white space. *)
Fixpoint strip_space (s : string) : string :=
  match s with
  | EmptyString => EmptyString
  | String c r =>
      if Expected.white_space c then strip_space r else String c (strip_space r)
  end.

(** Whether a string starts with white space. *)
Definition starts_with_space (s : string) : bool :=
  match s with
  | EmptyString => false
  | String c _ => Expected.white_space c
  end.

(** The contents of chunks, one after the other. *)
Fixpoint join_contents (chunks : list Pipeline.PageChunk) : string :=
  match chunks with
  | [] => EmptyString
  | chunk :: rest => Pipeline.content chunk +:+ join_contents rest
  end.

End Accounting.

(** ** More operations and extractors used as examples *)

Module MoreFixtures.
Import Errors Runtime Types RateLimiter Json Pipeline Fixtures.

(** An operation that answers "429 Too Many Requests" on the first
    invocation ever made and resolves to 7 afterwards. *)
Definition throttled_once : Operation nat :=
  fun w =>
    if (calls w <? 1)%nat
    then {| settled := Throw (ThrownError {| err_message := "429 Too Many Requests" |});
            took := 5%N |}
    else {| settled := Ok 7%nat; took := 5%N |}.

(** The world of [world0] with timers that fire a millisecond early. *)
Definition early_world : World :=
  {| now := 1793000000000; calls := 0; trace := []; timer := early |}.

(** A scheduler with [delayMs = 10] whose last slot was 4 ms ago, in that
    world. *)
Definition recent_limiter : St :=
  {| this := {| lastCallTime := 1793000000000 - 4;
                config := {| delayMs := 10; maxRetries := 2 |};
                RateLimiter.metrics := zero_metrics |};
     world := early_world |}.

(** An operation that fails until 5 ms after the clock reading of [world0]
    and resolves to 1 from then on. *)
Definition fine_from_slot : Operation nat :=
  fun w => if now w <? now world0 + 5 then always_broken w else always_fine w.

(** An extractor whose name contains "quota". *)
Definition quotaExtractor : ExtractorConfig :=
  {| name := "Quota-report";
     description := "Extracts the lines of a quota report";
     buildPrompt := fun text => Ok ("Extract from: " +:+ text);
     rateLimit := Some {| delayMs := 10; maxRetries := 2 |} |}.

(** A generation capability that always fails, with a message of its own. *)
Definition failing_generation : ExtractorConfig -> string -> Operation (list Item) :=
  fun _ _ _ =>
    {| settled := Throw (ThrownError {| err_message := "Simulated LLM Failure" |});
       took := 3%N |}.

Definition two_paragraphs : string :=
  "First paragraph. It has two sentences." +:+ newline +:+ newline
  +:+ "Second paragraph of the text.".

Definition two_page_text : string :=
  " Page one " +:+ PipelineUtils.PAGE_DELIMITER +:+ "Page two".

End MoreFixtures.

(** * Properties *)

(** ** Strings *)

Module JsStringFacts.
Import JsString.

Lemma append_cons (c : ascii) (a b : string) :
  String c a +:+ b = String c (a +:+ b).
Proof. reflexivity. Qed.

Lemma append_nil (b : string) : EmptyString +:+ b = b.
Proof. reflexivity. Qed.

Lemma prefix_spec (p s : string) :
  String.prefix p s = true <-> exists post, s = p +:+ post.
Proof.
  revert s. induction p as [|a p IH]; intros s.
  - split; [intros _; by exists s | intros _; by destruct s].
  - destruct s as [|b s]; cbn [String.prefix].
    + split; [done | intros (post & H); discriminate].
    + destruct (ascii_dec a b) as [->|Hne].
      * rewrite IH. split; intros (post & H); exists post.
        -- by rewrite append_cons, H.
        -- rewrite append_cons in H. by injection H.
      * split; [done | intros (post & H)].
        rewrite append_cons in H. by injection H.
Qed.

Lemma includes_spec (s pat : string) :
  includes s pat = true <-> exists pre post, s = pre +:+ pat +:+ post.
Proof.
  induction s as [|c s IH].
  - cbn [includes]. rewrite orb_false_r, prefix_spec. split.
    + intros (post & H). by exists EmptyString, post.
    + intros (pre & post & H). destruct pre; [by exists post | discriminate].
  - cbn [includes]. rewrite orb_true_iff, prefix_spec, IH. split.
    + intros [(post & H)|(pre & post & H)].
      * by exists EmptyString, post.
      * exists (String c pre), post. by rewrite append_cons, H.
    + intros (pre & post & H). destruct pre as [|c' pre].
      * left. by exists post.
      * right. exists pre, post. rewrite append_cons in H. by injection H.
Qed.

Lemma toLowerCase_app (a b : string) :
  toLowerCase (a +:+ b) = toLowerCase a +:+ toLowerCase b.
Proof.
  induction a as [|c a IH]; [done|].
  rewrite append_cons. cbn [toLowerCase]. by rewrite append_cons, IH.
Qed.

Lemma toLowerCase_split (s a b : string) :
  toLowerCase s = a +:+ b ->
  exists s1 s2, s = s1 +:+ s2 /\ toLowerCase s1 = a /\ toLowerCase s2 = b.
Proof.
  revert s. induction a as [|c a IH]; intros s H.
  - by exists EmptyString, s.
  - destruct s as [|c' s]; [discriminate|].
    rewrite append_cons in H. cbn [toLowerCase] in H. injection H as Hc Hs.
    destruct (IH s Hs) as (s1 & s2 & -> & H1 & H2).
    exists (String c' s1), s2. cbn [toLowerCase]. by rewrite Hc, H1.
Qed.

(** [toLowerCase(msg).includes(pat)], for a pattern written in lower case,
    finds the occurrences of [pat] in [msg] in any letter case. *)
Lemma includes_toLowerCase (msg pat : string) :
  toLowerCase pat = pat ->
  includes (toLowerCase msg) pat = true <-> Expected.contains_ci msg pat.
Proof.
  intros Hpat. rewrite includes_spec. unfold Expected.contains_ci. split.
  - intros (pre & post & H).
    destruct (toLowerCase_split _ _ _ H) as (s1 & s2 & -> & H1 & H2).
    destruct (toLowerCase_split _ _ _ H2) as (mid & s3 & -> & H3 & H4).
    exists s1, mid, s3. by rewrite Hpat.
  - intros (pre & mid & post & -> & H).
    exists (toLowerCase pre), (toLowerCase post).
    by rewrite !toLowerCase_app, H, Hpat.
Qed.

Lemma is_space_lower (c : ascii) : is_space (lower_ascii c) = is_space c.
Proof. by destruct c as [[] [] [] [] [] [] [] []]. Qed.

(** [trim] removes the white space below 256, and nothing else. *)
Lemma is_space_white (c : ascii) : is_space c = Expected.white_space c.
Proof. by destruct c as [[] [] [] [] [] [] [] []]. Qed.

Lemma white_space_lower (c : ascii) :
  Expected.white_space (lower_ascii c) = Expected.white_space c.
Proof. by rewrite <- !is_space_white, is_space_lower. Qed.

Lemma moves_up_spec (c : ascii) :
  Expected.moves_up (nat_of_ascii c) = true <-> Expected.upper_case c.
Proof.
  unfold Expected.moves_up, Expected.upper_case.
  rewrite orb_true_iff, !andb_true_iff, negb_true_iff, !Nat.leb_le, Nat.eqb_neq.
  lia.
Qed.

Lemma nat_lower_ascii (c : ascii) :
  nat_of_ascii (lower_ascii c)
  = if Expected.moves_up (nat_of_ascii c) then (nat_of_ascii c + 32)%nat else nat_of_ascii c.
Proof. by destruct c as [[] [] [] [] [] [] [] []]. Qed.

Lemma nat_of_ascii_inj (a b : ascii) : nat_of_ascii a = nat_of_ascii b -> a = b.
Proof.
  intros H. rewrite <- (ascii_nat_embedding a), <- (ascii_nat_embedding b).
  by rewrite H.
Qed.

(** [toLowerCase] identifies two code units exactly when they are the same
    up to letter case. *)
Lemma lower_ascii_same (a b : ascii) :
  lower_ascii a = lower_ascii b <-> Expected.same_letter a b.
Proof.
  unfold Expected.same_letter. rewrite <- !moves_up_spec. split.
  - intros H%(f_equal nat_of_ascii). rewrite !nat_lower_ascii in H.
    pose proof (moves_up_spec a) as Ha. pose proof (moves_up_spec b) as Hb.
    unfold Expected.upper_case in Ha, Hb.
    destruct (Expected.moves_up (nat_of_ascii a)), (Expected.moves_up (nat_of_ascii b)).
    + left. apply nat_of_ascii_inj. lia.
    + right. left. split; [reflexivity | lia].
    + right. right. split; [reflexivity | lia].
    + left. by apply nat_of_ascii_inj.
  - intros Hsame. apply nat_of_ascii_inj. rewrite !nat_lower_ascii.
    pose proof (moves_up_spec a) as Ha. pose proof (moves_up_spec b) as Hb.
    unfold Expected.upper_case in Ha, Hb.
    destruct Hsame as [->|[[Hup Hn]|[Hup Hn]]]; [reflexivity| |].
    + rewrite Hup. destruct (Expected.moves_up (nat_of_ascii b)) eqn:Hmb; [|lia].
      apply Ha in Hup. destruct Hb as [Hb _]. specialize (Hb eq_refl). lia.
    + rewrite Hup. destruct (Expected.moves_up (nat_of_ascii a)) eqn:Hma; [|lia].
      apply Hb in Hup. destruct Ha as [Ha _]. specialize (Ha eq_refl). lia.
Qed.

Lemma toLowerCase_same (a b : string) :
  toLowerCase a = toLowerCase b <-> Expected.same_text a b.
Proof.
  revert b. induction a as [|x a IH]; intros [|y b]; cbn; try (split; [discriminate | tauto]).
  - tauto.
  - rewrite <- IH, <- lower_ascii_same. split.
    + intros H. by injection H.
    + by intros [-> ->].
Qed.

(** [toLowerCase(msg).includes(pat)], for a pattern that [toLowerCase]
    leaves as it is, finds the occurrences of [pat] in [msg] in any letter
    case. *)
Lemma includes_occurs_ci (msg pat : string) :
  toLowerCase pat = pat ->
  includes (toLowerCase msg) pat = true <-> Expected.occurs_ci msg pat.
Proof.
  intros Hpat. rewrite includes_toLowerCase by exact Hpat.
  unfold Expected.contains_ci, Expected.occurs_ci.
  split; intros (pre & mid & post & Hmsg & Hmid); exists pre, mid, post;
    (split; [exact Hmsg|]); by apply toLowerCase_same.
Qed.

Lemma all_space_lower (s : string) :
  PipelineExpected.all_space (toLowerCase s) = PipelineExpected.all_space s.
Proof.
  induction s as [|c s IH]; [done|].
  cbn [toLowerCase PipelineExpected.all_space]. by rewrite white_space_lower, IH.
Qed.

Lemma trimStart_blank (b : string) :
  PipelineExpected.all_space b = true -> trimStart b = EmptyString.
Proof.
  induction b as [|c b IH]; [done|]. cbn [PipelineExpected.all_space trimStart].
  intros [Hc Hb]%andb_true_iff. rewrite is_space_white, Hc. auto.
Qed.

Lemma trimEnd_blank (b : string) :
  PipelineExpected.all_space b = true -> trimEnd b = EmptyString.
Proof.
  induction b as [|c b IH]; [done|]. cbn [PipelineExpected.all_space trimEnd].
  intros [Hc Hb]%andb_true_iff. by rewrite (IH Hb), is_space_white, Hc.
Qed.

Lemma trimStart_skip_blank (a s : string) :
  PipelineExpected.all_space a = true -> trimStart (a +:+ s) = trimStart s.
Proof.
  induction a as [|c a IH]; [done|]. cbn [PipelineExpected.all_space].
  intros [Hc Ha]%andb_true_iff. rewrite append_cons. cbn [trimStart].
  rewrite is_space_white, Hc. auto.
Qed.

Lemma trimEnd_skip_blank (s b : string) :
  PipelineExpected.all_space b = true -> trimEnd (s +:+ b) = trimEnd s.
Proof.
  intros Hb. induction s as [|c s IH].
  - rewrite append_nil. by apply trimEnd_blank.
  - rewrite append_cons. cbn [trimEnd]. by rewrite IH.
Qed.

Lemma trim_app_blank (k b : string) :
  PipelineExpected.all_space b = true -> trim (k +:+ b) = trim k.
Proof.
  intros Hb. unfold trim. induction k as [|c k IH].
  - rewrite append_nil, (trimStart_blank b Hb). reflexivity.
  - rewrite append_cons. cbn [trimStart]. destruct (is_space c); [exact IH|].
    rewrite <- append_cons. by apply trimEnd_skip_blank.
Qed.

Lemma lower_ascii_idem (c : ascii) : lower_ascii (lower_ascii c) = lower_ascii c.
Proof. by destruct c as [[] [] [] [] [] [] [] []]. Qed.

Lemma toLowerCase_idem (s : string) : toLowerCase (toLowerCase s) = toLowerCase s.
Proof.
  induction s as [|c s IH]; [reflexivity|]. cbn [toLowerCase].
  by rewrite lower_ascii_idem, IH.
Qed.

Lemma trimStart_decompose (s : string) :
  exists pre, s = pre +:+ trimStart s /\ PipelineExpected.all_space pre = true.
Proof.
  induction s as [|c s IH]; [by exists EmptyString|]. cbn [trimStart].
  destruct (is_space c) eqn:Hc.
  - destruct IH as (pre & Hs & Hpre). exists (String c pre).
    rewrite append_cons, <- Hs. split; [reflexivity|].
    cbn [PipelineExpected.all_space]. by rewrite <- is_space_white, Hc, Hpre.
  - by exists EmptyString.
Qed.

Lemma trimEnd_decompose (s : string) :
  exists post, s = trimEnd s +:+ post /\ PipelineExpected.all_space post = true.
Proof.
  induction s as [|c s IH]; [by exists EmptyString|]. cbn [trimEnd].
  destruct IH as (post & Hs & Hpost).
  destruct (is_empty (trimEnd s)) eqn:He; cbn [andb].
  - destruct (trimEnd s); [|discriminate]. rewrite append_nil in Hs. subst post.
    destruct (is_space c) eqn:Hc.
    + exists (String c s). rewrite append_nil. split; [reflexivity|].
      cbn [PipelineExpected.all_space]. by rewrite <- is_space_white, Hc, Hpost.
    + exists s. by rewrite append_cons, append_nil.
  - exists post. by rewrite append_cons, <- Hs.
Qed.

(** [trim] only removes white space, from both ends. *)
Lemma trim_decompose (s : string) :
  exists pre post,
    s = pre +:+ trim s +:+ post
    /\ PipelineExpected.all_space pre = true
    /\ PipelineExpected.all_space post = true.
Proof.
  destruct (trimStart_decompose s) as (pre & Hs & Hpre).
  destruct (trimEnd_decompose (trimStart s)) as (post & Ht & Hpost).
  exists pre, post. unfold trim. by rewrite <- Ht, <- Hs.
Qed.

(** A description is a variant, up to letter case and surrounding white
    space, of its own lower-cased and trimmed form. *)
Lemma variant_of_key (d : string) :
  PipelineExpected.case_space_variant (trim (toLowerCase d)) d.
Proof.
  destruct (trim_decompose (toLowerCase d)) as (pre & post & Hd & Hpre & Hpost).
  destruct (toLowerCase_split _ _ _ Hd) as (s1 & s23 & Hs & H1 & H23).
  destruct (toLowerCase_split _ _ _ H23) as (s2 & s3 & Hs' & H2 & H3).
  exists s1, s2, s3. split; [by rewrite Hs, Hs'|].
  rewrite <- (all_space_lower s1), <- (all_space_lower s3), H1, H3.
  split; [exact Hpre|]. split; [exact Hpost|].
  apply toLowerCase_same. by rewrite <- H2, toLowerCase_idem.
Qed.

(** Letter case and surrounding white space do not change
    [toLowerCase().trim()]. *)
Lemma variant_key (base d : string) :
  PipelineExpected.case_space_variant base d ->
  trim (toLowerCase d) = trim (toLowerCase base).
Proof.
  intros (pre & mid & post & -> & Hpre & Hpost & Hmid).
  apply toLowerCase_same in Hmid.
  rewrite !toLowerCase_app, Hmid. unfold trim at 1.
  rewrite trimStart_skip_blank by (by rewrite all_space_lower).
  fold (trim (toLowerCase base +:+ toLowerCase post)).
  apply trim_app_blank. by rewrite all_space_lower.
Qed.

End JsStringFacts.

(** ** The call scheduler *)

Module RateLimiterFacts.
Import Errors Runtime Runtime.Notations Types RateLimiter Expected.

Ltac run_monad :=
  cbv beta iota zeta delta
    [bind ret gets modify throw try_catch Date_now sleep await_call fst snd].

Lemma waitForNextSlot_eq (st : St) :
  waitForNextSlot st = (Ok (Z.max 0 (slot_remaining st)), after_slot st).
Proof.
  unfold waitForNextSlot, after_slot, slot_wait. run_monad.
  fold (slot_remaining st).
  destruct (Z.ltb_spec 0 (slot_remaining st)) as [Hpos|Hle]; reflexivity.
Qed.

Lemma timeout_delay_in_range (ms : Z) :
  1 <= ms <= TIMEOUT_MAX -> timeout_delay ms = ms.
Proof.
  intros [Hlo Hhi]. unfold timeout_delay.
  destruct (Z.leb_spec 1 ms); [|lia]. destruct (Z.leb_spec ms TIMEOUT_MAX); [|lia].
  reflexivity.
Qed.

Lemma timeout_delay_out_of_range (ms : Z) :
  ms < 1 \/ TIMEOUT_MAX < ms -> timeout_delay ms = 1.
Proof.
  intros Hout. unfold timeout_delay.
  destruct (Z.leb_spec 1 ms); [|reflexivity].
  destruct (Z.leb_spec ms TIMEOUT_MAX); [lia | reflexivity].
Qed.


Lemma execute_loop_step {T} (fn : Operation T) name r attempt lastErr st :
  execute_loop fn name (S r) attempt lastErr st =
  match settled (fn (world (after_slot st))) with
  | Ok result =>
      (Ok result,
       on_metrics (set_lastExecutionAt (now (world (after_call fn st))))
         (on_metrics incr_executions (after_call fn st)))
  | Throw error =>
      let cfg := config (this st) in
      if isRateLimitError (as_Error error) && (attempt <? maxRetries cfg)%nat then
        execute_loop fn name r (S attempt) (Some (as_Error error))
          (after_backoff fn attempt st)
      else if isRateLimitError (as_Error error) then
        (Throw (ThrownExtraction
                  (RateLimitError (exhausted_message name attempt)
                     (delayMs cfg * 2 ^ Z.of_nat attempt) attempt)),
         on_metrics incr_failures (after_call fn st))
      else
        (Throw (ThrownExtraction (wrapError (as_Error error) (Some name))),
         on_metrics incr_failures (after_call fn st))
  end.
Proof.
  cbn [execute_loop]. run_monad. rewrite waitForNextSlot_eq.
  assert (Hcfg : config (this (after_slot st)) = config (this st)).
  { unfold after_slot. destruct (0 <? slot_remaining st); reflexivity. }
  unfold after_backoff, after_call.
  destruct (settled (fn (world (after_slot st)))) as [result|error]; [reflexivity|].
  cbn [on_world this config]. rewrite Hcfg.
  destruct (isRateLimitError (as_Error error)); cbn [andb].
  - destruct (attempt <? maxRetries (config (this st)))%nat; reflexivity.
  - reflexivity.
Qed.

Lemma execute_unfold {T} (fn : Operation T) name st :
  execute fn name st
  = execute_loop fn name (maxRetries (config (this st))) 1%nat None st.
Proof. reflexivity. Qed.

Lemma execute_loop_zero {T} (fn : Operation T) name attempt st :
  execute_loop fn name 0 attempt None st =
  (Throw (ThrownError {| err_message :=
            name +:+ " failed after " +:+ pretty (maxRetries (config (this st)))
              +:+ " attempts" |}), st).
Proof. reflexivity. Qed.

Lemma after_slot_config st : config (this (after_slot st)) = config (this st).
Proof. unfold after_slot. destruct (0 <? slot_remaining st); reflexivity. Qed.

Lemma slot_wait_nonneg st : 0 <= slot_wait st.
Proof.
  unfold slot_wait, timer_wait. destruct (0 <? slot_remaining st); lia.
Qed.

(** [waitForNextSlot] moves the clock on by the time its timer took. *)
Lemma after_slot_clock st : now (world (after_slot st)) = now (world st) + slot_wait st.
Proof.
  unfold after_slot, slot_wait.
  destruct (Z.ltb_spec 0 (slot_remaining st)); cbn; lia.
Qed.

Lemma after_slot_lastCallTime st :
  lastCallTime (this (after_slot st)) = now (world (after_slot st)).
Proof.
  rewrite after_slot_clock. unfold after_slot, slot_wait.
  destruct (0 <? slot_remaining st); cbn; lia.
Qed.

Lemma after_slot_now st : now (world st) <= now (world (after_slot st)).
Proof. rewrite after_slot_clock. pose proof (slot_wait_nonneg st). lia. Qed.

Lemma after_slot_calls st : calls (world (after_slot st)) = calls (world st).
Proof. unfold after_slot. destruct (0 <? slot_remaining st); reflexivity. Qed.

Lemma after_slot_timer st : timer (world (after_slot st)) = timer (world st).
Proof. unfold after_slot. destruct (0 <? slot_remaining st); reflexivity. Qed.

Lemma after_slot_trace st :
  trace (world (after_slot st)) = trace (world st) ++ slot_events st.
Proof.
  unfold after_slot, slot_events.
  destruct (0 <? slot_remaining st); cbn; [reflexivity | by rewrite app_nil_r].
Qed.

Lemma after_slot_free st :
  slot_remaining st <= 0 -> after_slot st = set_lastCallTime (now (world st)) st.
Proof.
  intros H. unfold after_slot.
  destruct (Z.ltb_spec 0 (slot_remaining st)); [lia | reflexivity].
Qed.

Lemma after_backoff_config {T} (fn : Operation T) a st :
  config (this (after_backoff fn a st)) = config (this st).
Proof. cbn. apply after_slot_config. Qed.

Lemma after_backoff_timer {T} (fn : Operation T) a st :
  timer (world (after_backoff fn a st)) = timer (world st).
Proof. cbn. apply after_slot_timer. Qed.

Lemma pow2_ge_1 (a : nat) : 1 <= 2 ^ Z.of_nat a.
Proof. pose proof (Z.pow_pos_nonneg 2 (Z.of_nat a)). lia. Qed.

(** After a back-off whose timer lasted at least [delayMs], the next slot
    is free. *)
Lemma after_backoff_free {T} (fn : Operation T) a st :
  backoffs_last st a (S a) ->
  slot_remaining (after_backoff fn a st) <= 0.
Proof.
  intros Hlast. unfold slot_remaining.
  rewrite after_backoff_config.
  cbn. rewrite after_slot_lastCallTime. unfold timer_wait. cbn.
  rewrite after_slot_timer.
  pose proof (N2Z.is_nonneg (took (fn (world (after_slot st))))).
  specialize (Hlast (length (trace (world (after_slot st)) ++ [EvCall])) a ltac:(lia)).
  lia.
Qed.

Lemma backoffs_last_after {T} (fn : Operation T) a st lo hi :
  backoffs_last st lo hi -> backoffs_last (after_backoff fn a st) lo hi.
Proof.
  intros Hlast n k Hk. rewrite after_backoff_config, after_backoff_timer.
  by apply Hlast.
Qed.

Lemma backoffs_last_narrow st lo hi lo' hi' :
  (lo <= lo')%nat -> (hi' <= hi)%nat ->
  backoffs_last st lo hi -> backoffs_last st lo' hi'.
Proof. intros Hlo Hhi Hlast n k Hk. apply Hlast. lia. Qed.

Lemma slot_events_free st : slot_remaining st <= 0 -> slot_events st = [].
Proof.
  intros H. unfold slot_events.
  destruct (Z.ltb_spec 0 (slot_remaining st)); [lia | reflexivity].
Qed.

Lemma after_slot_wait st :
  totalWaitTimeMs (metrics (this (after_slot st)))
  = totalWaitTimeMs (metrics (this st)) + Z.max 0 (slot_remaining st).
Proof.
  unfold after_slot. destruct (Z.ltb_spec 0 (slot_remaining st)); cbn; lia.
Qed.

Lemma after_slot_counters st :
  totalExecutions (metrics (this (after_slot st))) = totalExecutions (metrics (this st))
  /\ totalRetries (metrics (this (after_slot st))) = totalRetries (metrics (this st))
  /\ totalFailures (metrics (this (after_slot st))) = totalFailures (metrics (this st)).
Proof. unfold after_slot. destruct (0 <? slot_remaining st); cbn; auto. Qed.

(** The loop of [execute] against an operation that is throttled every
    time: what it throws and what it counts, whatever the timers do. *)
Lemma execute_loop_exhausts {T} (fn : Operation T) name :
  (forall w, exists e, settled (fn w) = Throw e /\ isRateLimitError (as_Error e) = true) ->
  forall more attempt lastErr st,
    maxRetries (config (this st)) = (attempt + more)%nat ->
    exists st',
      execute_loop fn name (S more) attempt lastErr st
      = (Throw (ThrownExtraction
                  (RateLimitError (exhausted_message name (attempt + more))
                     (delayMs (config (this st)) * 2 ^ Z.of_nat (attempt + more))
                     (attempt + more))), st')
      /\ config (this st') = config (this st)
      /\ calls (world st') = (calls (world st) + S more)%nat
      /\ totalRetries (metrics (this st')) = (totalRetries (metrics (this st)) + more)%nat
      /\ totalFailures (metrics (this st')) = S (totalFailures (metrics (this st)))
      /\ totalExecutions (metrics (this st')) = totalExecutions (metrics (this st)).
Proof.
  intros Hfn more. induction more as [|more IH]; intros attempt lastErr st Hmax.
  - rewrite execute_loop_step.
    destruct (Hfn (world (after_slot st))) as (e & He & Hrl). rewrite He.
    cbv zeta. rewrite Hrl, Hmax, Nat.add_0_r, Nat.ltb_irrefl. cbn [andb].
    eexists. split; [reflexivity|].
    destruct (after_slot_counters st) as (Hx & Hr & Hf).
    cbn. rewrite ?after_slot_config, ?after_slot_calls, ?Hx, ?Hr, ?Hf.
    repeat split; lia.
  - rewrite execute_loop_step.
    destruct (Hfn (world (after_slot st))) as (e & He & Hrl). rewrite He.
    cbv zeta. rewrite Hrl, Hmax.
    replace (attempt <? attempt + S more)%nat with true
      by (symmetry; apply Nat.ltb_lt; lia).
    cbn [andb].
    destruct (IH (S attempt) (Some (as_Error e)) (after_backoff fn attempt st))
      as (st' & Hrun & Hcfg & Hcalls & Hretries & Hfail & Hexec).
    { rewrite after_backoff_config. lia. }
    rewrite after_backoff_config in *.
    replace (S attempt + more)%nat with (attempt + S more)%nat in * by lia.
    exists st'. split; [exact Hrun|].
    destruct (after_slot_counters st) as (Hx & Hr & Hf).
    rewrite Hcfg, Hcalls, Hretries, Hfail, Hexec.
    cbn. rewrite ?after_slot_calls, ?Hx, ?Hr, ?Hf.
    repeat split; lia.
Qed.


Lemma backoff_schedule_length d k more :
  length (backoff_schedule d k more) = (2 * more + 1)%nat.
Proof.
  revert k. induction more as [|more IH]; intros k; cbn; [reflexivity|].
  rewrite IH. lia.
Qed.

Lemma backoff_schedule_call d k more j :
  (j <= more)%nat -> backoff_schedule d k more !! (2 * j)%nat = Some EvCall.
Proof.
  revert k j. induction more as [|more IH]; intros k j Hj.
  - replace j with 0%nat by lia. reflexivity.
  - destruct j as [|j]; [reflexivity|].
    replace (2 * S j)%nat with (S (S (2 * j))) by lia. cbn.
    apply IH. lia.
Qed.

Lemma backoff_schedule_sleep d k more j :
  (j < more)%nat ->
  backoff_schedule d k more !! (2 * j + 1)%nat
  = Some (EvSleep (2 ^ Z.of_nat (k + j) * d)).
Proof.
  revert k j. induction more as [|more IH]; intros k j Hj; [lia|].
  destruct j as [|j].
  - cbn. by rewrite Nat.add_0_r.
  - replace (2 * S j + 1)%nat with (S (S (2 * j + 1))) by lia.
    transitivity (backoff_schedule d (S k) more !! (2 * j + 1)%nat); [reflexivity|].
    rewrite IH by lia. do 4 f_equal. lia.
Qed.


(** A first invocation that fails without being classified as throttling. *)
Lemma execute_not_throttled {T} (fn : Operation T) (name : string) (st : St)
    (e : Thrown) :
  (1 <= maxRetries (config (this st)))%nat ->
  settled (fn (world (after_slot st))) = Throw e ->
  isRateLimitError (as_Error e) = false ->
  execute fn name st
  = (Throw (ThrownExtraction (wrapError (as_Error e) (Some name))),
     on_metrics incr_failures (after_call fn st)).
Proof.
  intros Hpos Hfail Hnot.
  destruct (maxRetries (config (this st))) as [|more] eqn:Hm; [lia|].
  unfold execute. run_monad. rewrite Hm, execute_loop_step, Hfail.
  cbv zeta. rewrite Hnot. reflexivity.
Qed.

(** C4. A scheduler with a positive [maxRetries], whatever its value, and
    an operation whose first invocation fails with an error that is not
    classified as throttling: [execute] throws after that one invocation,
    with no back-off sleep, one more failure counted and no retry. What it
    throws is the failure itself when that is an [ExtractionError], and
    otherwise an [ExtractionError] of code [UNKNOWN] whose message is the
    operation name, a colon and the failure's message. *)
Theorem execute_fails_fast {T} (fn : Operation T) (name : string) (st : St)
    (e : Thrown) :
  (1 <= maxRetries (config (this st)))%nat ->
  settled (fn (world (snd (waitForNextSlot st)))) = Throw e ->
  isRateLimitError (as_Error e) = false ->
  exists st' raised,
    execute fn name st = (Throw (ThrownExtraction raised), st')
    /\ calls (world st') = S (calls (world st))
    /\ trace (world st') = trace (world st) ++ slot_events st ++ [EvCall]
    /\ totalFailures (metrics (this st')) = S (totalFailures (metrics (this st)))
    /\ totalRetries (metrics (this st')) = totalRetries (metrics (this st))
    /\ totalExecutions (metrics (this st')) = totalExecutions (metrics (this st))
    /\ raised = wrapError (as_Error e) (Some name)
    /\ match e with
       | ThrownExtraction original => raised = original
       | ThrownError original =>
           code raised = UNKNOWN
           /\ message raised = with_context (Some name) (err_message original)
       | ThrownValue repr =>
           code raised = UNKNOWN
           /\ message raised = with_context (Some name) repr
       end.
Proof.
  intros Hpos Hfail Hnot.
  rewrite waitForNextSlot_eq in Hfail. cbn [snd] in Hfail.
  exists (on_metrics incr_failures (after_call fn st)),
    (wrapError (as_Error e) (Some name)).
  split; [by apply execute_not_throttled|].
  destruct (after_slot_counters st) as (Hx & Hr & Hf).
  cbn. rewrite ?after_slot_calls, ?after_slot_trace, ?Hx, ?Hr, ?Hf.
  repeat split; try reflexivity.
  - by rewrite <- app_assoc.
  - destruct e; repeat split; reflexivity.
Qed.

Lemma message_of_as_Error e : message_of (as_Error e) = message_of e.
Proof. by destruct e. Qed.

(** With an operation that never fails in a way classified as throttling,
    the loop of [execute] makes at most one invocation and no retry. *)
Lemma execute_loop_no_retry {T} (fn : Operation T) name :
  (forall w e, settled (fn w) = Throw e -> isRateLimitError (as_Error e) = false) ->
  forall r attempt lastErr st,
    totalRetries (metrics (this (snd (execute_loop fn name r attempt lastErr st))))
    = totalRetries (metrics (this st))
    /\ (calls (world (snd (execute_loop fn name r attempt lastErr st)))
        <= S (calls (world st)))%nat.
Proof.
  intros Hfn r attempt lastErr st.
  destruct (after_slot_counters st) as (Hx & Hr & Hf).
  destruct r as [|r].
  - cbn. lia.
  - rewrite execute_loop_step.
    destruct (settled (fn (world (after_slot st)))) as [v|e] eqn:He.
    + cbn. rewrite after_slot_calls, Hr. lia.
    + cbv zeta. rewrite (Hfn _ _ He). cbn. rewrite after_slot_calls, Hr. lia.
Qed.

(** The loop against an operation that is throttled [j] more times and
    then fails in a way that is not classified as throttling. *)
Lemma execute_loop_breaks {T} (fn : Operation T) name (e : Thrown) :
  isRateLimitError (as_Error e) = false ->
  forall j attempt lastErr st r,
    maxRetries (config (this st)) = (attempt + r)%nat ->
    (j <= r)%nat ->
    (forall w, (calls (world st) <= calls w < calls (world st) + j)%nat ->
               exists t, settled (fn w) = Throw t
                         /\ isRateLimitError (as_Error t) = true) ->
    (forall w, calls w = (calls (world st) + j)%nat -> settled (fn w) = Throw e) ->
    exists st',
      execute_loop fn name (S r) attempt lastErr st
      = (Throw (ThrownExtraction (wrapError (as_Error e) (Some name))), st')
      /\ calls (world st') = (calls (world st) + S j)%nat
      /\ totalRetries (metrics (this st')) = (totalRetries (metrics (this st)) + j)%nat
      /\ totalFailures (metrics (this st')) = S (totalFailures (metrics (this st)))
      /\ totalExecutions (metrics (this st')) = totalExecutions (metrics (this st)).
Proof.
  intros Hnot. induction j as [|j IH]; intros attempt lastErr st r Hmax Hj Hfail Hlast;
    rewrite execute_loop_step;
    destruct (after_slot_counters st) as (Hx & Hr & Hf).
  - rewrite (Hlast (world (after_slot st))) by (rewrite after_slot_calls; lia).
    cbv zeta. rewrite Hnot. cbn [andb].
    eexists. split; [reflexivity|].
    cbn. rewrite after_slot_calls, Hx, Hr, Hf. repeat split; lia.
  - destruct r as [|r]; [lia|].
    destruct (Hfail (world (after_slot st))) as (t & Ht & Hrl);
      [rewrite after_slot_calls; lia|].
    rewrite Ht. cbv zeta. rewrite Hrl, Hmax.
    replace (attempt <? attempt + S r)%nat with true
      by (symmetry; apply Nat.ltb_lt; lia).
    cbn [andb].
    assert (Hc : calls (world (after_backoff fn attempt st)) = S (calls (world st)))
      by (cbn; by rewrite after_slot_calls).
    destruct (IH (S attempt) (Some (as_Error t)) (after_backoff fn attempt st) r)
      as (st' & Hrun & Hcalls & Hretries & Hfailures & Hexec).
    { rewrite after_backoff_config. lia. }
    { lia. }
    { intros w Hw. apply Hfail. lia. }
    { intros w Hw. apply Hlast. lia. }
    exists st'. split; [exact Hrun|].
    rewrite Hcalls, Hretries, Hfailures, Hexec, Hc.
    cbn. rewrite Hx, Hr, Hf. repeat split; lia.
Qed.

(** C5. The scheduler classifies what an operation threw as throttling
    exactly when its message (for a value that is not an [Error], its
    string conversion) contains, in any letter case, one of "429",
    "rate limit", "rate_limit", "quota", "too many requests". No other
    error is retried: when an invocation fails with an error that is not
    classified so, after any number [k] of throttled invocations, [execute]
    throws that error (wrapped) at once, having made [k + 1] invocations and
    counted [k] retries; and an operation whose failures are never
    classified so is invoked at most once. *)
Theorem isRateLimitError_spec :
  (forall e : Thrown,
      isRateLimitError (as_Error e) = true
      <-> exists pat, pat ∈ rate_limit_patterns /\ occurs_ci (message_of e) pat)
  /\ (forall T (fn : Operation T) (name : string) (st : St) (k : nat) (e : Thrown),
        (k < maxRetries (config (this st)))%nat ->
        (forall w, (calls (world st) <= calls w < calls (world st) + k)%nat ->
                   exists t, settled (fn w) = Throw t
                             /\ isRateLimitError (as_Error t) = true) ->
        (forall w, calls w = (calls (world st) + k)%nat -> settled (fn w) = Throw e) ->
        isRateLimitError (as_Error e) = false ->
        exists st',
          execute fn name st
          = (Throw (ThrownExtraction (wrapError (as_Error e) (Some name))), st')
          /\ calls (world st') = (calls (world st) + k + 1)%nat
          /\ totalRetries (metrics (this st')) = (totalRetries (metrics (this st)) + k)%nat
          /\ totalFailures (metrics (this st')) = S (totalFailures (metrics (this st))))
  /\ (forall T (fn : Operation T) (name : string) (st : St),
        (forall w e, settled (fn w) = Throw e ->
                     isRateLimitError (as_Error e) = false) ->
        totalRetries (metrics (this (snd (execute fn name st))))
        = totalRetries (metrics (this st))
        /\ (calls (world (snd (execute fn name st))) <= S (calls (world st)))%nat).
Proof.
  split; [|split].
  - intros e. unfold isRateLimitError, rate_limit_patterns.
    rewrite message_of_as_Error, !orb_true_iff.
    rewrite !JsStringFacts.includes_occurs_ci by reflexivity.
    split.
    + intros [[[[H|H]|H]|H]|H]; eexists; (split; [|exact H]); set_solver.
    + intros (pat & Hin & H).
      rewrite !elem_of_cons, elem_of_nil in Hin.
      destruct Hin as [->|[->|[->|[->|[->|[]]]]]]; tauto.
  - intros T fn name st k e Hk Hfail Hlast Hnot. rewrite execute_unfold.
    destruct (maxRetries (config (this st))) as [|r] eqn:Hm; [lia|].
    destruct (execute_loop_breaks fn name e Hnot k 1%nat None st r)
      as (st' & Hrun & Hcalls & Hretries & Hfailures & _);
      [by rewrite Hm | lia | exact Hfail | exact Hlast |].
    exists st'. split; [exact Hrun|]. repeat split; [lia | exact Hretries | exact Hfailures].
  - intros T fn name st Hfn. unfold execute. run_monad.
    apply execute_loop_no_retry, Hfn.
Qed.

Lemma metrics_le_refl m : metrics_le m m.
Proof. unfold metrics_le. lia. Qed.

Lemma metrics_le_trans a b c : metrics_le a b -> metrics_le b c -> metrics_le a c.
Proof. unfold metrics_le. lia. Qed.

Lemma after_slot_le st : metrics_le (metrics (this st)) (metrics (this (after_slot st))).
Proof.
  destruct (after_slot_counters st) as (Hx & Hr & Hf).
  unfold metrics_le. rewrite after_slot_wait, Hx, Hr, Hf. lia.
Qed.

(** The loop of [execute] keeps the configuration, and with a non-negative
    [delayMs] no counter goes down. *)
Lemma execute_loop_le {T} (fn : Operation T) name r :
  forall attempt lastErr st,
    0 <= delayMs (config (this st)) ->
    config (this (snd (execute_loop fn name r attempt lastErr st))) = config (this st)
    /\ metrics_le (metrics (this st))
         (metrics (this (snd (execute_loop fn name r attempt lastErr st)))).
Proof.
  induction r as [|r IH]; intros attempt lastErr st Hd.
  - destruct lastErr; cbn; split; auto using metrics_le_refl.
  - rewrite execute_loop_step.
    pose proof (after_slot_le st) as Hslot.
    pose proof (after_slot_config st) as Hcfg.
    destruct (settled (fn (world (after_slot st)))) as [v|e].
    + cbn. split; [done|]. revert Hslot. unfold metrics_le. cbn. lia.
    + cbv zeta.
      destruct (isRateLimitError (as_Error e)
                && (attempt <? maxRetries (config (this st)))%nat).
      * destruct (IH (S attempt) (Some (as_Error e)) (after_backoff fn attempt st))
          as (Hc & Hle); [by rewrite after_backoff_config|].
        rewrite after_backoff_config in Hc. split; [done|].
        eapply metrics_le_trans; [|exact Hle].
        pose proof (pow2_ge_1 attempt).
        revert Hslot. unfold metrics_le. cbn. nia.
      * destruct (isRateLimitError (as_Error e)); cbn; (split; [done|]);
          revert Hslot; unfold metrics_le; cbn; lia.
Qed.

Lemma run_call_le {T} (c : LimiterCall T) st :
  0 <= delayMs (config (this st)) ->
  config (this (run_call st c)) = config (this st)
  /\ metrics_le (metrics (this st)) (metrics (this (run_call st c))).
Proof.
  intros Hd. destruct c as [|fn name]; cbn [run_call].
  - rewrite waitForNextSlot_eq. cbn [snd].
    split; [apply after_slot_config | apply after_slot_le].
  - unfold execute. run_monad. by apply execute_loop_le.
Qed.

Lemma run_calls_cons {T} (c : LimiterCall T) cs st :
  run_calls (c :: cs) st = run_calls cs (run_call st c).
Proof. reflexivity. Qed.

Lemma run_calls_app {T} (cs1 cs2 : list (LimiterCall T)) st :
  run_calls (cs1 ++ cs2) st = run_calls cs2 (run_calls cs1 st).
Proof. apply fold_left_app. Qed.

Lemma run_calls_le {T} (cs : list (LimiterCall T)) :
  forall st,
    0 <= delayMs (config (this st)) ->
    config (this (run_calls cs st)) = config (this st)
    /\ metrics_le (metrics (this st)) (metrics (this (run_calls cs st))).
Proof.
  induction cs as [|c cs IH]; intros st Hd.
  - split; [done | apply metrics_le_refl].
  - rewrite run_calls_cons.
    destruct (run_call_le c st Hd) as (Hc & Hle).
    destruct (IH (run_call st c)) as (Hc' & Hle'); [by rewrite Hc|].
    split; [by rewrite Hc', Hc | by eapply metrics_le_trans].
Qed.

(** An execution whose first invocation succeeds. *)
Lemma execute_succeeds {T} (fn : Operation T) name st v :
  (1 <= maxRetries (config (this st)))%nat ->
  settled (fn (world (after_slot st))) = Ok v ->
  exists st',
    execute fn name st = (Ok v, st')
    /\ config (this st') = config (this st)
    /\ totalExecutions (metrics (this st')) = S (totalExecutions (metrics (this st)))
    /\ totalRetries (metrics (this st')) = totalRetries (metrics (this st))
    /\ totalFailures (metrics (this st')) = totalFailures (metrics (this st))
    /\ trace (world st') = trace (world st) ++ slot_events st ++ [EvCall]
    /\ lastCallTime (this st') = now (world (after_slot st))
    /\ now (world st') = now (world (after_slot st)) + Z.of_N (took (fn (world (after_slot st)))).
Proof.
  intros Hpos Hok.
  destruct (maxRetries (config (this st))) as [|r] eqn:Hm; [lia|].
  eexists. split.
  { unfold execute. run_monad. rewrite Hm, execute_loop_step, Hok. reflexivity. }
  destruct (after_slot_counters st) as (Hx & Hr & Hf).
  cbn. rewrite after_slot_config, after_slot_trace, after_slot_lastCallTime,
    <- app_assoc, Hx, Hr, Hf.
  repeat split; reflexivity.
Qed.

Lemma run_successes {T} (ops : list (Operation T * string)) :
  forall st,
    (1 <= maxRetries (config (this st)))%nat ->
    (forall fn name w, (fn, name) ∈ ops -> exists v, settled (fn w) = Ok v) ->
    totalExecutions (metrics (this (run_calls (map as_call ops) st)))
    = (totalExecutions (metrics (this st)) + length ops)%nat
    /\ totalRetries (metrics (this (run_calls (map as_call ops) st)))
       = totalRetries (metrics (this st))
    /\ totalFailures (metrics (this (run_calls (map as_call ops) st)))
       = totalFailures (metrics (this st)).
Proof.
  induction ops as [|[fn name] ops IH]; intros st Hpos Hok.
  - cbn. repeat split; lia.
  - cbn [map]. rewrite run_calls_cons. cbn [as_call run_call fst snd length].
    destruct (Hok fn name (world (after_slot st))) as (v & Hv); [left|].
    destruct (execute_succeeds fn name st v Hpos Hv)
      as (st' & Hrun & Hc & Hx & Hr & Hf & _).
    rewrite Hrun. cbn [snd].
    destruct (IH st') as (Hx' & Hr' & Hf').
    { by rewrite Hc. }
    { intros fn' name' w Hin. apply (Hok fn' name'). by right. }
    rewrite Hx', Hr', Hf', Hx, Hr, Hf.
    repeat split; lia.
Qed.

(** C9. For a scheduler with a non-negative [delayMs] and any sequence of
    [waitForNextSlot] and [execute] calls made on it: the four counters
    after any further calls are not below what they were at any earlier
    point of the sequence. If the counters are zero (a new scheduler, or
    one just reset), [maxRetries] is positive and [N] operations that
    succeed when invoked are executed one after the other, then
    [totalExecutions = N], [totalFailures = 0] and [totalRetries = 0]
    afterwards. [resetMetrics] sets the four counters to zero and leaves the
    configuration alone. *)
Theorem metrics_monotone_and_reset {T} (st : St)
    (earlier later : list (LimiterCall T))
    (ops : list (Operation T * string)) (l : RateLimiter) :
  0 <= delayMs (config (this st)) ->
  metrics_le (metrics (this (run_calls earlier st)))
    (metrics (this (run_calls (earlier ++ later) st)))
  /\ ((1 <= maxRetries (config (this st)))%nat ->
      (forall fn name w, (fn, name) ∈ ops -> exists v, settled (fn w) = Ok v) ->
      metrics (this st) = zero_metrics ->
      totalExecutions (metrics (this (run_calls (map as_call ops) st))) = length ops
      /\ totalFailures (metrics (this (run_calls (map as_call ops) st))) = 0%nat
      /\ totalRetries (metrics (this (run_calls (map as_call ops) st))) = 0%nat)
  /\ (totalExecutions (getMetrics (resetMetrics l)) = 0%nat
      /\ totalWaitTimeMs (getMetrics (resetMetrics l)) = 0
      /\ totalRetries (getMetrics (resetMetrics l)) = 0%nat
      /\ totalFailures (getMetrics (resetMetrics l)) = 0%nat
      /\ getConfig (resetMetrics l) = getConfig l).
Proof.
  intros Hd. split; [|split].
  - rewrite run_calls_app.
    destruct (run_calls_le earlier st Hd) as (Hc & _).
    apply run_calls_le. by rewrite Hc.
  - intros Hpos Hok Hzero.
    destruct (run_successes ops st Hpos Hok) as (Hx & Hr & Hf).
    rewrite Hx, Hr, Hf, Hzero. cbn. repeat split; lia.
  - repeat split; reflexivity.
Qed.

Lemma execute_loop_config {T} (fn : Operation T) name r :
  forall attempt lastErr st,
    config (this (snd (execute_loop fn name r attempt lastErr st))) = config (this st).
Proof.
  induction r as [|r IH]; intros attempt lastErr st.
  - by destruct lastErr.
  - rewrite execute_loop_step.
    pose proof (after_slot_config st) as Hcfg.
    destruct (settled (fn (world (after_slot st)))) as [v|e]; [done|].
    cbv zeta.
    destruct (isRateLimitError (as_Error e)
              && (attempt <? maxRetries (config (this st)))%nat).
    + by rewrite IH, after_backoff_config.
    + by destruct (isRateLimitError (as_Error e)).
Qed.

Lemma execute_config {T} (fn : Operation T) name st :
  config (this (snd (execute fn name st))) = config (this st).
Proof. unfold execute. run_monad. apply execute_loop_config. Qed.

(** Whatever the loop of [execute] does, it only adds events to the trace. *)
Lemma execute_loop_extends {T} (fn : Operation T) name r :
  forall attempt lastErr st,
    exists ext,
      trace (world (snd (execute_loop fn name r attempt lastErr st)))
      = trace (world st) ++ ext.
Proof.
  induction r as [|r IH]; intros attempt lastErr st.
  - exists []. destruct lastErr; cbn; by rewrite app_nil_r.
  - rewrite execute_loop_step.
    destruct (settled (fn (world (after_slot st)))) as [v|e].
    + eexists. cbn. rewrite after_slot_trace, <- app_assoc. reflexivity.
    + cbv zeta.
      destruct (isRateLimitError (as_Error e)
                && (attempt <? maxRetries (config (this st)))%nat).
      * destruct (IH (S attempt) (Some (as_Error e)) (after_backoff fn attempt st))
          as (ext & Hext).
        eexists. rewrite Hext. cbn. rewrite after_slot_trace, <- !app_assoc.
        reflexivity.
      * eexists. destruct (isRateLimitError (as_Error e)); cbn;
          rewrite after_slot_trace, <- app_assoc; reflexivity.
Qed.

(** An iteration of the loop starts with the slot wait and the invocation. *)
Lemma execute_loop_starts {T} (fn : Operation T) name r attempt lastErr st :
  exists ext,
    trace (world (snd (execute_loop fn name (S r) attempt lastErr st)))
    = trace (world st) ++ slot_events st ++ EvCall :: ext.
Proof.
  rewrite execute_loop_step.
  destruct (settled (fn (world (after_slot st)))) as [v|e].
  - exists []. cbn. by rewrite after_slot_trace, <- app_assoc.
  - cbv zeta.
    destruct (isRateLimitError (as_Error e)
              && (attempt <? maxRetries (config (this st)))%nat).
    + destruct (execute_loop_extends fn name r (S attempt) (Some (as_Error e))
                  (after_backoff fn attempt st)) as (ext & Hext).
      eexists. rewrite Hext. cbn. rewrite after_slot_trace, <- !app_assoc.
      reflexivity.
    + exists []. destruct (isRateLimitError (as_Error e)); cbn;
        by rewrite after_slot_trace, <- app_assoc.
Qed.

End RateLimiterFacts.

(** ** The extraction pipeline *)

Module PipelineFacts.
Import Errors Runtime Runtime.Notations Types RateLimiter Json Pipeline.
Import Expected PipelineExpected RateLimiterFacts.

Section WithCapabilities.
Variable stringify : Item -> string.
Variable generateObject : ExtractorConfig -> string -> Operation (list Item).
Variable onProgress : bool.

Abbreviation pages_loop := (Pipeline.pages_loop generateObject onProgress).
Abbreviation extractSingle := (Pipeline.extractSingle generateObject).
Abbreviation extractFromPages := (Pipeline.extractFromPages stringify generateObject onProgress).
Abbreviation deduplicateItems := (Pipeline.deduplicateItems stringify).
Abbreviation dedup_key := (Pipeline.dedup_key stringify).

(** One iteration of the loop over the chunks. *)
Lemma pages_loop_cons extractor total i chunk rest prs all st :
  pages_loop extractor total i (chunk :: rest) prs all st =
  let ran := execute (extractSingle (content chunk) extractor) (execute_label chunk)
               (after_progress onProgress total i chunk st) in
  pages_loop extractor total (S i) rest
    (prs ++ [recorded chunk (fst ran)])
    (all ++ items_of (fst ran))
    (snd ran).
Proof.
  cbn [Pipeline.pages_loop]. unfold report_progress, after_progress.
  fold (execute_label chunk). fold (progress_status chunk).
  destruct onProgress; run_monad;
    match goal with
    | |- context [execute ?op ?l ?s] => destruct (execute op l s) as [[items|e] st']
    end; cbn; rewrite ?app_nil_r; reflexivity.
Qed.

(** The loop does not throw: it records one outcome per chunk, in order,
    and the aggregate is the items of the recorded outcomes. *)
Lemma pages_loop_ok extractor total todo :
  forall i prs all st,
    exists news st',
      pages_loop extractor total i todo prs all st
      = (Ok (prs ++ news, all ++ concat (map page_items news)), st')
      /\ Forall2 (chunk_outcome generateObject extractor) todo news.
Proof.
  induction todo as [|chunk rest IH]; intros i prs all st.
  - exists [], st. cbn. rewrite !app_nil_r. split; [reflexivity | constructor].
  - rewrite pages_loop_cons. cbv zeta.
    set (st1 := after_progress onProgress total i chunk st).
    destruct (IH (S i)
                (prs ++ [recorded chunk
                           (fst (execute (extractSingle (content chunk) extractor)
                                   (execute_label chunk) st1))])
                (all ++ items_of (fst (execute (extractSingle (content chunk) extractor)
                                         (execute_label chunk) st1)))
                (snd (execute (extractSingle (content chunk) extractor)
                        (execute_label chunk) st1)))
      as (news & st' & Hrun & Hall).
    eexists (_ :: news), st'. split.
    + rewrite Hrun. rewrite <- !app_assoc. cbn [app map concat].
      do 3 f_equal.
      destruct (fst (execute _ _ st1)); reflexivity.
    + constructor; [by exists st1 | exact Hall].
Qed.

Lemma run_limiter_config extractor :
  config (run_limiter extractor) = default DEFAULT_RATE_LIMIT (rateLimit extractor).
Proof.
  unfold run_limiter, new_RateLimiter, merge_config, full_config. cbn.
  by destruct (default DEFAULT_RATE_LIMIT (rateLimit extractor)).
Qed.

(** [extractFromPages] returns, and what it returns is computed from the
    recorded outcomes as follows. *)
Lemma extractFromPages_ok chunks extractor w :
  exists r st' news,
    extractFromPages chunks extractor w = (Ok r, st')
    /\ Forall2 (chunk_outcome generateObject extractor) chunks news
    /\ pageResults r = news
    /\ items r = deduplicateItems (concat (map page_items news))
    /\ pagesProcessed r = length chunks
    /\ pagesFailed r = length (filter (fun pr => page_success pr = false) news)
    /\ totalItems (metrics r) = length (items r)
    /\ itemsBeforeDedup (metrics r) = length (concat (map page_items news))
    /\ averageConfidence (metrics r) = compute_averageConfidence (items r).
Proof.
  unfold Pipeline.extractFromPages, extractFromPages_run.
  destruct (pages_loop_ok extractor (length chunks) chunks 0%nat [] []
              {| this := run_limiter extractor; world := w |})
    as (news & st' & Hrun & Hall).
  run_monad. rewrite Hrun. cbn [app].
  eexists _, st', news. split; [reflexivity|].
  repeat split; try reflexivity; exact Hall.
Qed.

(** A run in which the way each chunk's [execute] ends does not depend on
    the state it starts in. *)
Lemma pages_loop_fixed extractor cfg total todo :
  forall outs i prs all st,
    Forall2
      (fun chunk out =>
         forall st, config (this st) = cfg ->
           fst (execute (extractSingle (content chunk) extractor)
                  (execute_label chunk) st) = out)
      todo outs ->
    config (this st) = cfg ->
    exists st',
      pages_loop extractor total i todo prs all st
      = (Ok (prs ++ zip_with recorded todo outs,
             all ++ concat (map items_of outs)), st').
Proof.
  induction todo as [|chunk rest IH]; intros outs i prs all st Hall Hcfg.
  - apply Forall2_nil_inv_l in Hall as ->. exists st. cbn. by rewrite !app_nil_r.
  - apply Forall2_cons_inv_l in Hall as (out & outs' & Hout & Hrest & ->).
    rewrite pages_loop_cons. cbv zeta.
    assert (Hcfg1 : config (this (after_progress onProgress total i chunk st)) = cfg).
    { unfold after_progress. by destruct onProgress. }
    rewrite (Hout _ Hcfg1).
    destruct (IH outs' (S i) (prs ++ [recorded chunk out]) (all ++ items_of out)
                (snd (execute (extractSingle (content chunk) extractor)
                        (execute_label chunk)
                        (after_progress onProgress total i chunk st))) Hrest)
      as (st' & Hrun).
    { rewrite execute_config. exact Hcfg1. }
    exists st'. rewrite Hrun. cbn [zip_with map concat].
    by rewrite <- !app_assoc.
Qed.

(** A chunk whose generation call succeeds whenever it is made. *)
Lemma execute_chunk_succeeds extractor chunk prompt found st :
  buildPrompt extractor (content chunk) = Ok prompt ->
  (forall w, settled (generateObject extractor prompt w) = Ok found) ->
  (1 <= maxRetries (config (this st)))%nat ->
  fst (execute (extractSingle (content chunk) extractor) (execute_label chunk) st)
  = Ok found.
Proof.
  intros Hprompt Hgen Hpos.
  destruct (execute_succeeds (extractSingle (content chunk) extractor)
              (execute_label chunk) st found Hpos) as (st' & Hrun & _).
  - unfold Pipeline.extractSingle. rewrite Hprompt. cbn. by rewrite Hgen.
  - by rewrite Hrun.
Qed.

(** A chunk whose generation call fails whenever it is made, in a way the
    scheduler does not classify as throttling. *)
Lemma execute_chunk_fails extractor chunk prompt e st :
  buildPrompt extractor (content chunk) = Ok prompt ->
  (forall w, settled (generateObject extractor prompt w) = Throw e) ->
  isRateLimitError
    (ThrownExtraction
       (wrapError e (Some ("Extraction failed for schema " +:+ dquote
                             +:+ name extractor +:+ dquote)))) = false ->
  (1 <= maxRetries (config (this st)))%nat ->
  fst (execute (extractSingle (content chunk) extractor) (execute_label chunk) st)
  = Throw (ThrownExtraction
             (wrapError e (Some ("Extraction failed for schema " +:+ dquote
                                   +:+ name extractor +:+ dquote)))).
Proof.
  intros Hprompt Hgen Hnot Hpos.
  rewrite (execute_not_throttled _ _ st
             (ThrownExtraction
                (wrapError e (Some ("Extraction failed for schema " +:+ dquote
                                      +:+ name extractor +:+ dquote)))) Hpos);
    [reflexivity | | exact Hnot].
  unfold Pipeline.extractSingle. rewrite Hprompt. cbn. by rewrite Hgen.
Qed.

Lemma fold_dedup_step l :
  forall seen acc,
    snd (fold_left (dedup_step stringify) l (seen, acc))
    = acc ++ dedup_from dedup_key seen l.
Proof.
  induction l as [|x l IH]; intros seen acc; cbn [fold_left dedup_from].
  - by rewrite app_nil_r.
  - unfold dedup_step at 2. destruct (decide (dedup_key x ∈ seen)).
    + apply IH.
    + rewrite IH, <- app_assoc. reflexivity.
Qed.

Lemma deduplicateItems_eq l : deduplicateItems l = dedup_from dedup_key ∅ l.
Proof. unfold Pipeline.deduplicateItems. by rewrite fold_dedup_step. Qed.

Lemma dedup_from_sublist (key : Item -> string) l :
  forall seen, dedup_from key seen l `sublist_of` l.
Proof.
  induction l as [|x l IH]; intros seen; cbn.
  - constructor.
  - destruct (decide (key x ∈ seen)); [apply sublist_cons | apply sublist_skip]; apply IH.
Qed.

(** Of the items with a given key, the survivors are the first one, unless
    the key had been seen before. *)
Lemma dedup_from_filter (key : Item -> string) (k : string) l :
  forall seen,
    filter (fun x => key x = k) (dedup_from key seen l)
    = if decide (k ∈ seen) then [] else take 1 (filter (fun x => key x = k) l).
Proof.
  induction l as [|x l IH]; intros seen; cbn [dedup_from].
  - by destruct (decide (k ∈ seen)).
  - destruct (decide (key x ∈ seen)) as [Hin|Hout].
    + rewrite IH. destruct (decide (k ∈ seen)); [done|].
      rewrite (filter_cons_False (fun x => key x = k)); [done|].
      intros Heq. by rewrite Heq in Hin.
    + destruct (decide (key x = k)) as [Hk|Hk].
      * rewrite !(filter_cons_True (fun x => key x = k)) by done.
        rewrite IH. subst k.
        rewrite decide_True by (apply elem_of_union; left; by apply elem_of_singleton).
        by rewrite decide_False by done.
      * rewrite !(filter_cons_False (fun x => key x = k)) by done.
        rewrite IH.
        destruct (decide (k ∈ seen)) as [Hs|Hs].
        -- rewrite decide_True; [done|]. apply elem_of_union. by right.
        -- rewrite decide_False; [done|].
           intros [Hx%elem_of_singleton|Hx]%elem_of_union; congruence.
Qed.

Lemma dedup_from_length (key : Item -> string) seen l :
  (length (dedup_from key seen l) <= length l)%nat.
Proof. apply sublist_length, dedup_from_sublist. Qed.

(** The result of a run in which the way each chunk's [execute] ends does
    not depend on the state it starts in. *)
Lemma extractFromPages_fixed chunks extractor w outs :
  Forall2
    (fun chunk out =>
       forall st, config (this st) = default DEFAULT_RATE_LIMIT (rateLimit extractor) ->
         fst (execute (extractSingle (content chunk) extractor)
                (execute_label chunk) st) = out)
    chunks outs ->
  exists r st',
    extractFromPages chunks extractor w = (Ok r, st')
    /\ pageResults r = zip_with recorded chunks outs
    /\ items r = deduplicateItems (concat (map items_of outs))
    /\ itemsBeforeDedup (metrics r) = length (concat (map items_of outs))
    /\ pagesFailed r
       = length (filter (fun pr => page_success pr = false) (zip_with recorded chunks outs)).
Proof.
  intros Hall.
  unfold Pipeline.extractFromPages, extractFromPages_run.
  destruct (pages_loop_fixed extractor _ (length chunks) chunks outs 0%nat [] []
              {| this := run_limiter extractor; world := w |} Hall)
    as (st' & Hrun); [apply run_limiter_config|].
  run_monad. rewrite Hrun. cbn [app].
  eexists _, st'. split; [reflexivity|].
  repeat split; reflexivity.
Qed.

(** C6. In every run, the returned items are the aggregate of the recorded
    outcomes, deduplicated: an item's key is its [description], lower-cased
    and trimmed, when that is a string, and [JSON.stringify] of the item
    otherwise; the items kept are in the order of the aggregate and, for
    every key, are exactly the first item of the aggregate with that key;
    two items with textual descriptions have the same key exactly when the
    descriptions are the same text up to letter case and surrounding white
    space; [itemsBeforeDedup] is the length of the aggregate, hence not
    below the number of items returned. In particular, when two chunks each
    yield one item whose description is "Shared ID" up to letter case and surrounding
    white space, the run returns the first of the two alone and
    [itemsBeforeDedup = 2]. *)
Theorem deduplication_keeps_first_seen (chunks : list PageChunk)
    (extractor : ExtractorConfig) (w : World) :
  exists r st',
    extractFromPages chunks extractor w = (Ok r, st')
    /\ (forall item d,
          prop item "description" = Some (JsStr d) ->
          dedup_key item = JsString.trim (JsString.toLowerCase d))
    /\ (forall item,
          (forall d, prop item "description" <> Some (JsStr d)) ->
          dedup_key item = stringify item)
    /\ (forall item1 item2 d1 d2,
          prop item1 "description" = Some (JsStr d1) ->
          prop item2 "description" = Some (JsStr d2) ->
          dedup_key item1 = dedup_key item2
          <-> exists base, case_space_variant base d1 /\ case_space_variant base d2)
    /\ items r `sublist_of` concat (map page_items (pageResults r))
    /\ (forall k,
          filter (fun x => dedup_key x = k) (items r)
          = take 1 (filter (fun x => dedup_key x = k)
                      (concat (map page_items (pageResults r)))))
    /\ itemsBeforeDedup (metrics r) = length (concat (map page_items (pageResults r)))
    /\ (length (items r) <= itemsBeforeDedup (metrics r))%nat
    /\ (forall c1 c2 p1 p2 i1 i2 d1 d2,
          chunks = [c1; c2] ->
          (1 <= maxRetries (default DEFAULT_RATE_LIMIT (rateLimit extractor)))%nat ->
          buildPrompt extractor (content c1) = Ok p1 ->
          buildPrompt extractor (content c2) = Ok p2 ->
          (forall w', settled (generateObject extractor p1 w') = Ok [i1]) ->
          (forall w', settled (generateObject extractor p2 w') = Ok [i2]) ->
          prop i1 "description" = Some (JsStr d1) ->
          prop i2 "description" = Some (JsStr d2) ->
          case_space_variant "Shared ID" d1 ->
          case_space_variant "Shared ID" d2 ->
          items r = [i1] /\ itemsBeforeDedup (metrics r) = 2%nat).
Proof.
  destruct (extractFromPages_ok chunks extractor w)
    as (r & st' & news & Hrun & _ & Hprs & Hitems & _ & _ & _ & Hbefore & _).
  exists r, st'. split; [exact Hrun|].
  rewrite Hprs, Hitems, Hbefore, deduplicateItems_eq.
  split; [|split; [|split; [|split; [|split; [|split; [|split]]]]]].
  - intros item d Hd. unfold Pipeline.dedup_key. by rewrite Hd.
  - intros item Hd. unfold Pipeline.dedup_key.
    destruct (prop item "description") as [[| | |d| |]|]; try reflexivity.
    by destruct (Hd d).
  - intros item1 item2 d1 d2 Hd1 Hd2. unfold Pipeline.dedup_key. rewrite Hd1, Hd2.
    split.
    + intros Hkey. exists (JsString.trim (JsString.toLowerCase d1)).
      split; [apply JsStringFacts.variant_of_key|].
      rewrite Hkey. apply JsStringFacts.variant_of_key.
    + intros (base & Hv1 & Hv2).
      by rewrite (JsStringFacts.variant_key _ _ Hv1), (JsStringFacts.variant_key _ _ Hv2).
  - apply dedup_from_sublist.
  - intros k. by rewrite dedup_from_filter, decide_False by set_solver.
  - reflexivity.
  - apply dedup_from_length.
  - intros c1 c2 p1 p2 i1 i2 d1 d2 -> Hpos Hp1 Hp2 Hg1 Hg2 Hd1 Hd2 Hv1 Hv2.
    destruct (extractFromPages_fixed [c1; c2] extractor w [Ok [i1]; Ok [i2]])
      as (r2 & st2 & Hrun2 & Hprs2 & Hitems2 & Hbefore2 & _).
    { repeat constructor; intros st Hcfg.
      - eapply execute_chunk_succeeds; eauto. by rewrite Hcfg.
      - eapply execute_chunk_succeeds; eauto. by rewrite Hcfg. }
    rewrite Hrun in Hrun2. injection Hrun2 as <- <-.
    rewrite Hprs2 in Hprs. rewrite <- Hprs. cbn [zip_with recorded map concat
      page_items page_ok app length].
    split; [|reflexivity].
    assert (Hk1 : dedup_key i1 = "shared id").
    { unfold Pipeline.dedup_key. rewrite Hd1.
      by rewrite (JsStringFacts.variant_key _ _ Hv1). }
    assert (Hk2 : dedup_key i2 = "shared id").
    { unfold Pipeline.dedup_key. rewrite Hd2.
      by rewrite (JsStringFacts.variant_key _ _ Hv2). }
    cbn [dedup_from]. rewrite Hk1, Hk2.
    rewrite decide_False by set_solver.
    by rewrite decide_True by set_solver.
Qed.

(** The loop over the chunks records, chunk by chunk, how the scheduler's
    [execute] ended in the state the chunk before left. *)
Lemma pages_loop_endings extractor total todo :
  forall i prs all st,
    length (chunk_endings generateObject onProgress extractor total i todo st)
    = length todo
    /\ exists st',
         pages_loop extractor total i todo prs all st
         = (Ok (prs ++ zip_with recorded todo
                         (chunk_endings generateObject onProgress extractor total i
                            todo st),
                all ++ concat (map items_of
                                 (chunk_endings generateObject onProgress extractor
                                    total i todo st))), st').
Proof.
  induction todo as [|chunk rest IH]; intros i prs all st.
  - split; [reflexivity|]. exists st. cbn. by rewrite !app_nil_r.
  - rewrite pages_loop_cons. cbv zeta. cbn [chunk_endings].
    set (ran := execute (extractSingle (content chunk) extractor) (execute_label chunk)
                  (after_progress onProgress total i chunk st)).
    destruct (IH (S i) (prs ++ [recorded chunk (fst ran)]) (all ++ items_of (fst ran))
                (snd ran)) as (Hlen & st' & Hrun).
    split; [cbn [length]; by rewrite Hlen|].
    exists st'. rewrite Hrun. cbn [zip_with map concat].
    by rewrite <- !app_assoc.
Qed.

(** The result of a run, from how [execute] ended for each chunk. *)
Lemma extractFromPages_endings chunks extractor w :
  exists r st',
    extractFromPages chunks extractor w = (Ok r, st')
    /\ pageResults r
       = zip_with recorded chunks
           (chunk_endings generateObject onProgress extractor (length chunks) 0 chunks
              {| this := run_limiter extractor; world := w |})
    /\ items r
       = deduplicateItems
           (concat (map items_of
                      (chunk_endings generateObject onProgress extractor (length chunks)
                         0 chunks {| this := run_limiter extractor; world := w |})))
    /\ itemsBeforeDedup (metrics r)
       = length (concat (map items_of
                           (chunk_endings generateObject onProgress extractor
                              (length chunks) 0 chunks
                              {| this := run_limiter extractor; world := w |})))
    /\ pagesProcessed r = length chunks
    /\ pagesFailed r
       = length (filter (fun pr => page_success pr = false) (pageResults r)).
Proof.
  unfold Pipeline.extractFromPages, extractFromPages_run.
  destruct (pages_loop_endings extractor (length chunks) chunks 0%nat [] []
              {| this := run_limiter extractor; world := w |})
    as (_ & st' & Hrun).
  run_monad. rewrite Hrun. cbn [app].
  eexists _, st'. split; [reflexivity|].
  repeat split; reflexivity.
Qed.

(** C2 (amended). No failure of a chunk's extraction escapes
    [extractFromPages]: the call returns a result with one recorded outcome
    per chunk, in order. The outcome of a chunk is decided by the way the
    scheduler's [execute] of that chunk ended in this run: when it threw,
    the outcome is a failure without items that carries the message and the
    code of what was thrown, wrapped by [wrapError]; when it returned, the
    outcome is a success with the items returned; and the run goes on to
    the next chunk either way. In particular, for three chunks of which the
    first and the third yield one item each and the second fails whenever
    its generation is called, with a failure the scheduler does not classify
    as throttling: [pagesProcessed = 3], [pagesFailed = 1],
    [itemsBeforeDedup = 2], the outcome at index 1 is a failure with that
    failure's message and code, and the run returns both items when their
    deduplication keys differ (the first alone when they share a key). *)
Theorem extraction_failures_are_isolated (chunks : list PageChunk)
    (extractor : ExtractorConfig) (w : World) :
  let endings :=
    chunk_endings generateObject onProgress extractor (length chunks) 0 chunks
      {| this := run_limiter extractor; world := w |} in
  exists r st',
    extractFromPages chunks extractor w = (Ok r, st')
    /\ pagesProcessed r = length chunks
    /\ length (pageResults r) = length chunks
    /\ length endings = length chunks
    /\ (forall i chunk failure,
          chunks !! i = Some chunk ->
          endings !! i = Some (Throw failure) ->
          pageResults r !! i
          = Some {| page_items := [];
                    page_pageNumber := pageNumber chunk;
                    page_success := false;
                    page_error := Some (message (wrapError failure None));
                    page_errorCode := Some (code (wrapError failure None)) |})
    /\ (forall i chunk found,
          chunks !! i = Some chunk ->
          endings !! i = Some (Ok found) ->
          pageResults r !! i
          = Some {| page_items := found;
                    page_pageNumber := pageNumber chunk;
                    page_success := true;
                    page_error := None;
                    page_errorCode := None |})
    /\ items r = deduplicateItems (concat (map items_of endings))
    /\ itemsBeforeDedup (metrics r) = length (concat (map items_of endings))
    /\ pagesFailed r
       = length (filter (fun pr => page_success pr = false) (pageResults r))
    /\ (forall c1 c2 c3 p1 p2 p3 i1 i3 e,
          let raised :=
            wrapError e (Some ("Extraction failed for schema " +:+ dquote
                                 +:+ name extractor +:+ dquote)) in
          chunks = [c1; c2; c3] ->
          (1 <= maxRetries (default DEFAULT_RATE_LIMIT (rateLimit extractor)))%nat ->
          buildPrompt extractor (content c1) = Ok p1 ->
          buildPrompt extractor (content c2) = Ok p2 ->
          buildPrompt extractor (content c3) = Ok p3 ->
          (forall w', settled (generateObject extractor p1 w') = Ok [i1]) ->
          (forall w', settled (generateObject extractor p2 w') = Throw e) ->
          (forall w', settled (generateObject extractor p3 w') = Ok [i3]) ->
          isRateLimitError (ThrownExtraction raised) = false ->
          pagesProcessed r = 3%nat
          /\ pagesFailed r = 1%nat
          /\ itemsBeforeDedup (metrics r) = 2%nat
          /\ pageResults r !! 1%nat = Some (page_failed raised (pageNumber c2))
          /\ (dedup_key i1 <> dedup_key i3 -> items r = [i1; i3])
          /\ (dedup_key i1 = dedup_key i3 -> items r = [i1])).
Proof.
  intros endings.
  destruct (extractFromPages_endings chunks extractor w)
    as (r & st' & Hrun & Hprs & Hitems & Hbefore & Hproc & Hfailed).
  destruct (pages_loop_endings extractor (length chunks) chunks 0%nat [] []
              {| this := run_limiter extractor; world := w |}) as (Hlen & _).
  fold endings in Hprs, Hitems, Hbefore, Hlen.
  exists r, st'. split; [exact Hrun|].
  split; [exact Hproc|].
  split; [by rewrite Hprs, length_zip_with, Hlen, Nat.min_id|].
  split; [exact Hlen|].
  split; [|split; [|split; [|split; [|split]]]]; try assumption.
  - intros i chunk failure Hchunk Hending.
    rewrite Hprs, lookup_zip_with, Hchunk. cbn. rewrite Hending. reflexivity.
  - intros i chunk found Hchunk Hending.
    rewrite Hprs, lookup_zip_with, Hchunk. cbn. rewrite Hending. reflexivity.
  - intros c1 c2 c3 p1 p2 p3 i1 i3 e raised -> Hpos Hp1 Hp2 Hp3 Hg1 Hg2 Hg3 Hnot.
    destruct (extractFromPages_fixed [c1; c2; c3] extractor w
                [Ok [i1]; Throw (ThrownExtraction raised); Ok [i3]])
      as (r2 & st2 & Hrun2 & Hprs2 & Hitems2 & Hbefore2 & Hfailed2).
    { repeat constructor; intros st Hcfg.
      - eapply execute_chunk_succeeds; eauto. by rewrite Hcfg.
      - eapply execute_chunk_fails; eauto. by rewrite Hcfg.
      - eapply execute_chunk_succeeds; eauto. by rewrite Hcfg. }
    rewrite Hrun in Hrun2. injection Hrun2 as <- <-.
    rewrite Hproc, Hfailed2, Hbefore2, Hprs2, Hitems2, deduplicateItems_eq.
    cbn [zip_with recorded map concat items_of app length dedup_from].
    repeat split.
    + intros Hne. rewrite decide_False by set_solver.
      rewrite decide_False; [done|].
      intros [Hx%elem_of_singleton|Hx]%elem_of_union; [congruence | set_solver].
    + intros Heq. rewrite decide_False by set_solver.
      rewrite decide_True; [done|]. rewrite Heq. set_solver.
Qed.

Lemma execute_extends {T} (fn : Operation T) label st :
  exists ext, trace (world (snd (execute fn label st))) = trace (world st) ++ ext.
Proof. unfold execute. run_monad. apply execute_loop_extends. Qed.

Lemma after_progress_trace total i chunk st :
  trace (world (after_progress onProgress total i chunk st))
  = trace (world st)
      ++ (if onProgress
          then [EvProgress (i + 1) total (progress_status chunk)] else []).
Proof. unfold after_progress. destruct onProgress; cbn; by rewrite ?app_nil_r. Qed.

Lemma after_progress_slot total i chunk st :
  slot_remaining (after_progress onProgress total i chunk st) = slot_remaining st.
Proof. unfold after_progress. by destruct onProgress. Qed.

Lemma after_progress_config total i chunk st :
  config (this (after_progress onProgress total i chunk st)) = config (this st).
Proof. unfold after_progress. by destruct onProgress. Qed.

(** The loop over the chunks only adds events to the trace. *)
Lemma pages_loop_extends extractor total todo :
  forall i prs all st,
    exists ext,
      trace (world (snd (pages_loop extractor total i todo prs all st)))
      = trace (world st) ++ ext.
Proof.
  induction todo as [|chunk rest IH]; intros i prs all st.
  - exists []. cbn. by rewrite app_nil_r.
  - rewrite pages_loop_cons. cbv zeta.
    set (st1 := after_progress onProgress total i chunk st).
    destruct (execute_extends (extractSingle (content chunk) extractor)
                (execute_label chunk) st1) as (ext1 & Hext1).
    destruct (IH (S i)
                (prs ++ [recorded chunk
                           (fst (execute (extractSingle (content chunk) extractor)
                                   (execute_label chunk) st1))])
                (all ++ items_of (fst (execute (extractSingle (content chunk) extractor)
                                         (execute_label chunk) st1)))
                (snd (execute (extractSingle (content chunk) extractor)
                        (execute_label chunk) st1)))
      as (ext2 & Hext2).
    eexists. rewrite Hext2, Hext1. unfold st1.
    rewrite after_progress_trace, <- !app_assoc. reflexivity.
Qed.

Lemma starts_without_wait_progress (evs rest : list Event) :
  (forall ev, ev ∈ evs -> exists c t s, ev = EvProgress c t s) ->
  starts_without_wait (evs ++ rest) = starts_without_wait rest.
Proof.
  induction evs as [|ev evs IH]; intros Hall; [done|].
  destruct (Hall ev) as (c & t & s & ->); [left|].
  cbn. apply IH. intros ev' Hin. apply Hall. by right.
Qed.

(** When the slot is free as the loop starts, no sleep comes before the
    first invocation. *)
Lemma pages_loop_starts extractor total todo :
  forall i prs all st,
    slot_remaining st <= 0 ->
    exists ext,
      trace (world (snd (pages_loop extractor total i todo prs all st)))
      = trace (world st) ++ ext
      /\ starts_without_wait ext = true.
Proof.
  induction todo as [|chunk rest IH]; intros i prs all st Hfree.
  - exists []. cbn. by rewrite app_nil_r.
  - rewrite pages_loop_cons. cbv zeta.
    set (st1 := after_progress onProgress total i chunk st).
    assert (Hfree1 : slot_remaining st1 <= 0)
      by (unfold st1; by rewrite after_progress_slot).
    set (prs' := prs ++ _). set (all' := all ++ _).
    destruct (maxRetries (config (this st1))) as [|r] eqn:Hm.
    + assert (Hsame : snd (execute (extractSingle (content chunk) extractor)
                              (execute_label chunk) st1) = st1).
      { by rewrite execute_unfold, Hm. }
      rewrite Hsame.
      destruct (IH (S i) prs' all' st1 Hfree1) as (ext & Hext & Hstart).
      exists ((if onProgress
               then [EvProgress (i + 1) total (progress_status chunk)] else []) ++ ext).
      split.
      * rewrite Hext. unfold st1. by rewrite after_progress_trace, <- app_assoc.
      * rewrite starts_without_wait_progress; [exact Hstart|].
        intros ev Hin. destruct onProgress; [|by apply elem_of_nil in Hin].
        apply list_elem_of_singleton in Hin. eauto.
    + destruct (pages_loop_extends extractor total rest (S i) prs' all'
                  (snd (execute (extractSingle (content chunk) extractor)
                          (execute_label chunk) st1))) as (ext2 & Hext2).
      destruct (execute_loop_starts (extractSingle (content chunk) extractor)
                  (execute_label chunk) r 1%nat None st1) as (ext1 & Hext1).
      rewrite (slot_events_free _ Hfree1) in Hext1.
      exists ((if onProgress
               then [EvProgress (i + 1) total (progress_status chunk)] else [])
                ++ EvCall :: ext1 ++ ext2).
      split.
      * rewrite Hext2, execute_unfold, Hm, Hext1.
        unfold st1. rewrite after_progress_trace, <- !app_assoc. reflexivity.
      * rewrite starts_without_wait_progress; [reflexivity|].
        intros ev Hin. destruct onProgress; [|by apply elem_of_nil in Hin].
        apply list_elem_of_singleton in Hin. eauto.
Qed.

Lemma extractFromPages_world chunks extractor w :
  world (snd (extractFromPages chunks extractor w))
  = world (snd (pages_loop extractor (length chunks) 0%nat chunks [] []
                  {| this := run_limiter extractor; world := w |})).
Proof.
  unfold Pipeline.extractFromPages, extractFromPages_run.
  destruct (pages_loop_ok extractor (length chunks) chunks 0%nat [] []
              {| this := run_limiter extractor; world := w |})
    as (news & st' & Hrun & _).
  run_monad. by rewrite Hrun.
Qed.

(** C10 (amended). A new scheduler, the one [extractFromPages] creates for
    each run included, starts with [lastCallTime = 0]. Whenever its
    [delayMs] is not above the clock reading [Date.now()] at the first
    call, that call does not wait: [waitForNextSlot] returns [0], leaves
    the world as it was and [totalWaitTimeMs] at [0]; in [execute], and in
    a whole run of [extractFromPages], no sleep comes before the first
    invocation. *)
Theorem first_call_does_not_wait {T} (partial : PartialRateLimitConfig)
    (fn : Operation T) (label : string) (chunks : list PageChunk)
    (extractor : ExtractorConfig) (w : World) :
  delayMs (merge_config partial) <= now w ->
  delayMs (default DEFAULT_RATE_LIMIT (rateLimit extractor)) <= now w ->
  lastCallTime (new_RateLimiter partial) = 0
  /\ lastCallTime (run_limiter extractor) = 0
  /\ (exists st',
        waitForNextSlot {| this := new_RateLimiter partial; world := w |} = (Ok 0, st')
        /\ world st' = w
        /\ totalWaitTimeMs (RateLimiter.metrics (this st')) = 0
        /\ lastCallTime (this st') = now w)
  /\ (exists ext,
        trace (world (snd (execute fn label
                             {| this := new_RateLimiter partial; world := w |})))
        = trace w ++ ext
        /\ starts_without_wait ext = true)
  /\ (exists ext,
        trace (world (snd (extractFromPages chunks extractor w))) = trace w ++ ext
        /\ starts_without_wait ext = true).
Proof.
  intros Hnew Hrun.
  set (fresh := {| this := new_RateLimiter partial; world := w |}).
  assert (Hfree : slot_remaining fresh <= 0).
  { unfold slot_remaining, fresh. cbn [this world config new_RateLimiter lastCallTime].
    lia. }
  split; [reflexivity|]. split; [reflexivity|]. split; [|split].
  - exists (after_slot fresh). rewrite waitForNextSlot_eq, (after_slot_free _ Hfree).
    rewrite Z.max_l by exact Hfree. repeat split.
  - rewrite execute_unfold.
    destruct (maxRetries (config (this fresh))) as [|r].
    + exists []. cbn. by rewrite app_nil_r.
    + destruct (execute_loop_starts fn label r 1%nat None fresh) as (ext & Hext).
      rewrite (slot_events_free _ Hfree) in Hext.
      exists (EvCall :: ext). split; [exact Hext | reflexivity].
  - rewrite extractFromPages_world.
    apply (pages_loop_starts extractor (length chunks) chunks 0%nat [] []
             {| this := run_limiter extractor; world := w |}).
    unfold slot_remaining. cbn [this world]. rewrite run_limiter_config.
    cbn [run_limiter new_RateLimiter lastCallTime]. lia.
Qed.

Lemma Qis_zero_eq (q : Q) : Qis_zero q = true -> (q == 0)%Q.
Proof.
  unfold Qis_zero, Qeq. intros H%Z.eqb_eq. rewrite H. reflexivity.
Qed.

(** The sum [reduce] computes over items whose [confidence] is a number or
    missing: the numbers add up, a missing one counts as [0]. *)
Lemma confidence_total_from (l : list Item) :
  forall a : Q,
    Forall numeric_or_absent l ->
    exists s,
      fold_left (fun sum item => js_add sum (or_zero (prop item "confidence")))
        l (SumNum a) = SumNum s
      /\ (s == a + fold_right Qplus 0 (map confidence_or_zero l))%Q.
Proof.
  induction l as [|item l IH]; intros a Hall.
  - exists a. split; [reflexivity|]. cbn. lra.
  - apply Forall_cons in Hall as [Hitem Hall].
    cbn [fold_left map fold_right]. unfold confidence_or_zero at 1.
    destruct Hitem as [Hnone|(q & Hq)].
    + rewrite Hnone. cbn [or_zero js_add].
      destruct (IH (a + 0)%Q Hall) as (s & Hs & Heq).
      exists s. split; [exact Hs|]. rewrite Heq. lra.
    + rewrite Hq. cbn [or_zero truthy].
      destruct (Qis_zero q) eqn:Hz; cbn [negb js_add].
      * destruct (IH (a + 0)%Q Hall) as (s & Hs & Heq).
        exists s. split; [exact Hs|]. rewrite Heq.
        rewrite (Qis_zero_eq q Hz). lra.
      * destruct (IH (a + q)%Q Hall) as (s & Hs & Heq).
        exists s. split; [exact Hs|]. rewrite Heq. lra.
Qed.

(** What the code computes for [averageConfidence]: it tests the first
    returned item alone, and counts an item without a numeric [confidence]
    as [0]. When every returned item has a numeric [confidence] this is the
    arithmetic mean. *)
Lemma averageConfidence_follows_first_item (chunks : list PageChunk)
    (extractor : ExtractorConfig) (w : World) :
  exists r st',
    extractFromPages chunks extractor w = (Ok r, st')
    /\ (is_Some (averageConfidence (metrics r))
        <-> exists first rest q,
              items r = first :: rest
              /\ prop first "confidence" = Some (JsNum q))
    /\ (forall first rest q,
          items r = first :: rest ->
          prop first "confidence" = Some (JsNum q) ->
          Forall numeric_or_absent (items r) ->
          exists v,
            averageConfidence (metrics r) = Some (AvgNum v)
            /\ (v == mean (map confidence_or_zero (items r)))%Q).
Proof.
  destruct (extractFromPages_ok chunks extractor w)
    as (r & st' & news & Hrun & _ & _ & _ & _ & _ & _ & _ & Havg).
  exists r, st'. split; [exact Hrun|]. rewrite Havg.
  unfold compute_averageConfidence. split.
  - destruct (items r) as [|first rest].
    + split; [by intros [? ?] | by intros (? & ? & ? & ? & ?)].
    + destruct (prop first "confidence") as [[| |q| | |]|] eqn:Hp; cbn [is_number];
        (split; [intros [? Hsome] | intros (f & rs & q' & Hcons & Hq)]);
        try discriminate; try (injection Hcons as <- <-; congruence); eauto.
  - intros first rest q Hitems Hq Hall. rewrite Hitems in *.
    rewrite Hq. cbn [is_number].
    destruct (confidence_total_from (first :: rest) 0%Q Hall) as (s & Hs & Heq).
    unfold confidence_total. rewrite Hs. cbn [js_div].
    eexists. split; [reflexivity|].
    unfold mean. rewrite length_map, Heq, Qplus_0_l. reflexivity.
Qed.

End WithCapabilities.

End PipelineFacts.

(** ** The chunker *)

Module ChunkerFacts.
Import JsString Pipeline PipelineExpected.

Lemma len_nonneg (s : string) : 0 <= len s.
Proof. unfold len. lia. Qed.

Lemma length_trimStart (s : string) :
  (String.length (trimStart s) <= String.length s)%nat.
Proof.
  induction s as [|c s IH]; cbn; [lia|].
  destruct (is_space c); cbn; lia.
Qed.

Lemma length_trimEnd (s : string) :
  (String.length (trimEnd s) <= String.length s)%nat.
Proof.
  induction s as [|c s IH]; cbn; [lia|].
  destruct (is_empty (trimEnd s) && is_space c); cbn; lia.
Qed.

Lemma len_trim (s : string) : len (trim s) <= len s.
Proof.
  unfold len, trim.
  pose proof (length_trimEnd (trimStart s)). pose proof (length_trimStart s). lia.
Qed.

Lemma length_substring (n m : nat) (s : string) :
  (String.length (substring n m s) <= m)%nat
  /\ (String.length (substring n m s) <= String.length s - n)%nat.
Proof.
  revert n m. induction s as [|c s IH]; intros n m.
  - destruct n, m; cbn; lia.
  - destruct n as [|n].
    + destruct m as [|m]; cbn; [lia|].
      destruct (IH 0%nat m). lia.
    + cbn. destruct (IH n m). lia.
Qed.

Lemma len_slice_prefix (s : string) (k : Z) :
  0 <= k -> len (slice s 0 k) <= k.
Proof.
  intros Hk. unfold slice, clamp_index, len.
  destruct (length_substring
              (Z.to_nat (if 0 <? 0 then Z.max (Z.of_nat (String.length s) + 0) 0
                         else Z.min 0 (Z.of_nat (String.length s))))
              (Z.to_nat ((if k <? 0 then Z.max (Z.of_nat (String.length s) + k) 0
                          else Z.min k (Z.of_nat (String.length s)))
                         - (if 0 <? 0 then Z.max (Z.of_nat (String.length s) + 0) 0
                            else Z.min 0 (Z.of_nat (String.length s)))))
              s) as [Hm _].
  revert Hm. cbn [Z.ltb Z.compare]. destruct (Z.ltb_spec k 0); lia.
Qed.

Lemma len_slice_from (s : string) (k : Z) :
  1 <= k -> 0 < len s -> len (slice_from s k) < len s.
Proof.
  intros Hk Hs. unfold slice_from, slice, clamp_index, len in *.
  destruct (Z.ltb_spec k 0); [lia|].
  destruct (Z.ltb_spec (Z.of_nat (String.length s)) 0); [lia|].
  match goal with
  | |- Z.of_nat (String.length (substring ?n ?m s)) < _ =>
      destruct (length_substring n m s) as [_ Hlen]
  end.
  lia.
Qed.

Lemma lastIndexOf_down_le (s pat : string) (i : nat) :
  lastIndexOf_down s pat i <= Z.of_nat i.
Proof.
  induction i as [|i IH]; cbn [lastIndexOf_down].
  - destruct (String.prefix pat (skip 0 s)); lia.
  - destruct (String.prefix pat (skip (S i) s)); lia.
Qed.

Lemma lastIndexOf_le (s pat : string) (from : Z) :
  0 <= from -> lastIndexOf s pat from <= from.
Proof.
  intros Hfrom. unfold lastIndexOf.
  destruct (len s <? len pat) eqn:Hlen; [lia|].
  apply Z.ltb_ge in Hlen.
  pose proof (lastIndexOf_down_le s pat
                (Z.to_nat (Z.min (Z.max from 0) (len s - len pat)))).
  lia.
Qed.

Lemma splitIndex_of_bounds (maxChunkSize : Z) (remaining : string) :
  1 <= maxChunkSize -> 0 < len remaining ->
  1 <= splitIndex_of maxChunkSize remaining <= maxChunkSize + 1.
Proof.
  intros Hmax Hlen. unfold splitIndex_of.
  pose proof (lastIndexOf_le remaining (newline +:+ newline) maxChunkSize).
  pose proof (lastIndexOf_le remaining ". " maxChunkSize).
  repeat match goal with
         | |- context [?a <? ?b] => destruct (Z.ltb_spec a b)
         end; lia.
Qed.

(** With [1 <= maxChunkSize] the loop ends within as many iterations as the
    remaining text has characters, and no chunk it adds is longer than
    [maxChunkSize + 1]. *)
Lemma chunkBySize_loop_total (maxChunkSize : Z) (fuel : nat) :
  1 <= maxChunkSize ->
  forall remaining pageNum chunks,
    (String.length remaining <= fuel)%nat ->
    exists added,
      chunkBySize_loop fuel maxChunkSize remaining pageNum chunks
      = Some (chunks ++ added)
      /\ Forall (fun chunk => len (content chunk) <= maxChunkSize + 1) added.
Proof.
  intros Hmax. induction fuel as [|fuel IH]; intros remaining pageNum chunks Hfuel.
  - destruct remaining; [|cbn in Hfuel; lia].
    exists []. split; [by rewrite app_nil_r | constructor].
  - cbn [chunkBySize_loop]. fold (splitIndex_of maxChunkSize remaining).
    destruct (Z.ltb_spec 0 (len remaining)) as [Hpos|Hzero].
    + pose proof (splitIndex_of_bounds maxChunkSize remaining Hmax Hpos) as Hsplit.
      pose proof (len_slice_from remaining _ (proj1 Hsplit) Hpos) as Hless.
      pose proof (len_trim (slice_from remaining (splitIndex_of maxChunkSize remaining))).
      pose proof (len_trim (slice remaining 0 (splitIndex_of maxChunkSize remaining))).
      pose proof (len_slice_prefix remaining (splitIndex_of maxChunkSize remaining)).
      edestruct (IH (trim (slice_from remaining (splitIndex_of maxChunkSize remaining)))
                   (S pageNum)) as (added & Hrun & Hall).
      { unfold len in *. lia. }
      eexists (_ :: added). rewrite Hrun, <- app_assoc. split; [reflexivity|].
      constructor; [cbn; lia | exact Hall].
    + exists []. split; [by rewrite app_nil_r | constructor].
Qed.

(** [chunkBySize] returns for every text when [1 <= maxChunkSize], and its
    chunks are at most [maxChunkSize + 1] characters long. *)
Lemma chunkBySize_total (text : string) (maxChunkSize : Z) :
  1 <= maxChunkSize ->
  exists chunks,
    chunkBySize text maxChunkSize = Some chunks
    /\ Forall (fun chunk => len (content chunk) <= maxChunkSize + 1) chunks.
Proof.
  intros Hmax.
  destruct (chunkBySize_loop_total maxChunkSize (String.length text) Hmax
              text 1%nat []) as (added & Hrun & Hall); [lia|].
  exists added. split; [exact Hrun | exact Hall].
Qed.

End ChunkerFacts.

(** ** The statements at concrete inputs *)

Module Examples.
Import Errors Runtime Types RateLimiter Json Pipeline.
Import Expected PipelineExpected Fixtures.




(** An operation throttled once and then failing otherwise, on a scheduler
    with [maxRetries = 5]: two invocations, one retry, and the second
    failure thrown. *)
Example no_retry_after_other_failure :
  exists st' raised,
    execute throttled_then_broken "API call" limiter5
    = (Throw (ThrownExtraction raised), st')
    /\ message raised = "API call: Database connection failed"
    /\ code raised = UNKNOWN
    /\ calls (world st') = 2%nat
    /\ totalRetries (RateLimiter.metrics (this st')) = 1%nat
    /\ totalFailures (RateLimiter.metrics (this st')) = 1%nat.
Proof. eexists _, _. split; [vm_compute; reflexivity|]. repeat split. Qed.

(** Letter case and white space beyond ASCII: "CAFE" with an accented E and
    the same in lower case between no-break spaces have one key. *)
Example accented_descriptions_collapse :
  Pipeline.dedup_key property_names cafe_upper = "caf" +:+ e_acute
  /\ Pipeline.dedup_key property_names cafe_lower = "caf" +:+ e_acute
  /\ deduplicateItems property_names [cafe_upper; cafe_lower] = [cafe_upper]
  /\ chunkBySize (nbsp +:+ "x") 10 = Some [ {| content := "x"; pageNumber := 1 |} ].
Proof. repeat split. Qed.

(** C4 at the same scheduler, against an operation that always answers
    "Database connection failed". *)
Lemma execute_fails_fast_witness :
  (1 <= maxRetries (config (this limiter0)))%nat
  /\ settled (always_broken (world (snd (waitForNextSlot limiter0))))
     = Throw (ThrownError {| err_message := "Database connection failed" |})
  /\ exists st' raised,
       execute always_broken "API call" limiter0
       = (Throw (ThrownExtraction raised), st')
       /\ calls (world st') = 1%nat
       /\ message raised = "API call: Database connection failed".
Proof.
  split; [vm_compute; lia|]. split; [reflexivity|].
  destruct (RateLimiterFacts.execute_fails_fast always_broken "API call" limiter0
              (ThrownError {| err_message := "Database connection failed" |})
              ltac:(vm_compute; lia) eq_refl ltac:(vm_compute; reflexivity))
    as (st' & raised & Hrun & Hcalls & _ & _ & _ & _ & _ & _ & Hmsg).
  exists st', raised. split; [exact Hrun|]. split; [exact Hcalls|]. exact Hmsg.
Defined.

(** C9 at the same scheduler: a slot wait, then a throttled execution, then
    three executions that succeed. *)
Lemma metrics_monotone_and_reset_witness :
  0 <= delayMs (config (this limiter0))
  /\ metrics_le
       (RateLimiter.metrics (this (run_calls (T:=nat) [CallWaitForNextSlot] limiter0)))
       (RateLimiter.metrics
          (this (run_calls ([CallWaitForNextSlot]
                              ++ [CallExecute always_throttled "API call"]) limiter0)))
  /\ totalExecutions
       (RateLimiter.metrics
          (this (run_calls (map as_call [(always_fine, "a"); (always_fine, "b");
                                         (always_fine, "c")]) limiter0))) = 3%nat.
Proof.
  split; [vm_compute; discriminate|].
  destruct (RateLimiterFacts.metrics_monotone_and_reset limiter0
              [CallWaitForNextSlot] [CallExecute always_throttled "API call"]
              [(always_fine, "a"); (always_fine, "b"); (always_fine, "c")]
              (this limiter0) ltac:(vm_compute; discriminate))
    as (Hmono & Hcount & _).
  split; [exact Hmono|].
  apply Hcount; [vm_compute; lia | | reflexivity].
  intros fn name w Hin. exists 1%nat.
  rewrite !elem_of_cons, elem_of_nil in Hin.
  destruct Hin as [Heq|[Heq|[Heq|[]]]]; injection Heq as -> _; reflexivity.
Defined.

(** C7. [chunkBySize("abcd. efgh", 4)] returns a first chunk of five
    characters: the sentence break found at index 4, the largest index
    [lastIndexOf(". ", 4)] may return, puts the split at index 5. *)
Theorem chunkBySize_overshoots :
  chunkBySize "abcd. efgh" 4
  = Some [ {| content := "abcd."; pageNumber := 1 |};
           {| content := "efgh"; pageNumber := 2 |} ]
  /\ JsString.lastIndexOf "abcd. efgh" ". " 4 = 4
  /\ JsString.len "abcd." = 5.
Proof. repeat split. Qed.

(** A text of white space only yields one chunk, whose content is empty. *)
Lemma chunkBySize_blank_text :
  chunkBySize "   " 10 = Some [ {| content := ""; pageNumber := 1 |} ].
Proof. reflexivity. Qed.

(** C10 as stated fails for a scheduler whose interval exceeds the clock
    reading: its first [waitForNextSlot] sleeps. *)
Lemma first_call_waits_under_long_interval :
  fst (waitForNextSlot patient_limiter) = Ok 207000000000
  /\ trace (world (snd (waitForNextSlot patient_limiter))) = [EvSleep 207000000000]
  /\ totalWaitTimeMs (RateLimiter.metrics (this (snd (waitForNextSlot patient_limiter))))
     = 207000000000.
Proof. repeat split. Qed.

(** C10 (amended) at the scheduler of the tests and the three-page run. *)
Lemma first_call_does_not_wait_witness :
  delayMs (merge_config {| opt_delayMs := Some 10; opt_maxRetries := Some 2%nat |})
  <= now world0
  /\ delayMs (default DEFAULT_RATE_LIMIT (rateLimit testExtractor)) <= now world0
  /\ exists ext,
       trace (world (snd (extractFromPages property_names header_generation true
                            three_pages testExtractor world0)))
       = trace world0 ++ ext
       /\ starts_without_wait ext = true.
Proof.
  split; [vm_compute; discriminate|]. split; [vm_compute; discriminate|].
  destruct (PipelineFacts.first_call_does_not_wait property_names header_generation
              true {| opt_delayMs := Some 10; opt_maxRetries := Some 2%nat |}
              always_fine "API call" three_pages testExtractor world0
              ltac:(vm_compute; discriminate) ltac:(vm_compute; discriminate))
    as (_ & _ & _ & _ & Hrun).
  exact Hrun.
Defined.

(** C1. [averageConfidence] is to be present only if the returned items
    have a [confidence], as their mean. The run below returns an item with
    confidence 0.9 and one without the field, and reports an average of
    0.45: the code tests the first item alone and counts the missing
    confidence as 0. *)
Theorem averageConfidence_present_despite_unrated :
  exists r st',
    extractFromPages property_names mixed_generation false one_page testExtractor world0
    = (Ok r, st')
    /\ items r = [rated_item; unrated_item]
    /\ prop unrated_item "confidence" = None
    /\ averageConfidence (metrics r) = Some (AvgNum (9 # 20)).
Proof.
  eexists _, _. split; [vm_compute; reflexivity|]. repeat split.
Qed.

(** C2 as stated fails when the two items share a deduplication key: in
    the run below pages 1 and 3 each yield the same page header and page 2
    fails; one item is returned, not two. *)
Lemma shared_items_collapse :
  exists r st',
    extractFromPages property_names header_generation false three_pages
      testExtractor world0 = (Ok r, st')
    /\ map page_items (pageResults r) = [[header_item]; []; [header_item]]
    /\ map page_success (pageResults r) = [true; false; true]
    /\ pagesProcessed r = 3%nat
    /\ pagesFailed r = 1%nat
    /\ length (items r) = 1%nat.
Proof.
  eexists _, _. split; [vm_compute; reflexivity|]. repeat split.
Qed.

(** The run of the integration test for deduplication. *)
Example shared_id_run :
  exists r st',
    extractFromPages property_names
      (fun _ prompt _ =>
         {| settled := Ok (if String.eqb prompt "Extract from: Page 1"
                           then [shared_upper] else [shared_lower]);
            took := 3%N |})
      false
      [ {| content := "Page 1"; pageNumber := 1 |};
        {| content := "Page 2"; pageNumber := 2 |} ]
      testExtractor world0 = (Ok r, st')
    /\ items r = [shared_upper]
    /\ itemsBeforeDedup (metrics r) = 2%nat.
Proof.
  eexists _, _. split; [vm_compute; reflexivity|]. repeat split.
Qed.

(** The run of the integration test for error isolation. *)
Example isolated_failure_run :
  exists r st',
    extractFromPages property_names isolation_generation false three_pages
      testExtractor world0 = (Ok r, st')
    /\ items r = [page1_item; page3_item]
    /\ pagesProcessed r = 3%nat
    /\ pagesFailed r = 1%nat
    /\ map page_error (pageResults r)
       = [None;
          Some ("Extraction failed for schema " +:+ dquote +:+ "test-extractor"
                  +:+ dquote +:+ ": Simulated LLM Failure");
          None].
Proof.
  eexists _, _. split; [vm_compute; reflexivity|]. repeat split.
Qed.

(** With [maxChunkSize = 0] the loop of [chunkBySize] makes no progress on
    the text "a": no number of iterations is enough. *)
Lemma chunkBySize_zero_diverges (fuel : nat) :
  chunkBySize_fuel fuel "a" 0 = None.
Proof.
  unfold chunkBySize_fuel. generalize 1%nat, (@nil PageChunk).
  induction fuel as [|fuel IH]; intros pageNum chunks; [reflexivity|].
  cbn [chunkBySize_loop].
  change (JsString.trim (JsString.slice_from "a" _)) with "a".
  apply IH.
Qed.

(** With a negative [delayMs] the back-off is negative too, and
    [totalWaitTimeMs] goes down: from 0 to -10 in one throttled execution. *)
Example negative_delay_lowers_wait :
  totalWaitTimeMs (RateLimiter.metrics (this negative_limiter)) = 0
  /\ totalWaitTimeMs
       (RateLimiter.metrics
          (this (snd (execute always_throttled "API call" negative_limiter)))) = -10.
Proof. split; reflexivity. Qed.

End Examples.

(** ** More about the call scheduler *)

Module SchedulerMore.
Import Errors Runtime Runtime.Notations Types RateLimiter.
Import Expected Accounting RateLimiterFacts.

Lemma sleep_total_app (a b : list Event) :
  sleep_total (a ++ b) = sleep_total a + sleep_total b.
Proof.
  induction a as [|ev a IH]; [reflexivity|].
  destruct ev; cbn; rewrite IH; lia.
Qed.

Lemma call_count_app (a b : list Event) :
  call_count (a ++ b) = (call_count a + call_count b)%nat.
Proof.
  induction a as [|ev a IH]; [reflexivity|].
  destruct ev; cbn; rewrite IH; lia.
Qed.

Lemma slot_events_sleep st : sleep_total (slot_events st) = Z.max 0 (slot_remaining st).
Proof.
  unfold slot_events. destruct (Z.ltb_spec 0 (slot_remaining st)); cbn; lia.
Qed.

Lemma slot_events_calls st : call_count (slot_events st) = 0%nat.
Proof. unfold slot_events. by destruct (0 <? slot_remaining st). Qed.

(** What one run of the loop of [execute] does to the counters, the clock
    and the trace, when the iterations left are those up to [maxRetries]. *)
Lemma execute_loop_account {T} (fn : Operation T) name r :
  forall attempt lastErr st,
    maxRetries (config (this st)) = (attempt + r)%nat ->
    exists ext,
      trace (world (snd (execute_loop fn name (S r) attempt lastErr st)))
      = trace (world st) ++ slot_events st ++ EvCall :: ext
      /\ calls (world (snd (execute_loop fn name (S r) attempt lastErr st)))
         = (calls (world st) + S (call_count ext))%nat
      /\ (call_count ext <= r)%nat
      /\ totalWaitTimeMs (metrics (this (snd (execute_loop fn name (S r) attempt lastErr st))))
         = totalWaitTimeMs (metrics (this st))
           + sleep_total (slot_events st ++ EvCall :: ext)
      /\ totalRetries (metrics (this (snd (execute_loop fn name (S r) attempt lastErr st))))
         = (totalRetries (metrics (this st)) + call_count ext)%nat
      /\ match fst (execute_loop fn name (S r) attempt lastErr st) with
         | Ok _ =>
             totalExecutions (metrics (this (snd (execute_loop fn name (S r) attempt lastErr st))))
             = S (totalExecutions (metrics (this st)))
             /\ totalFailures (metrics (this (snd (execute_loop fn name (S r) attempt lastErr st))))
                = totalFailures (metrics (this st))
         | Throw e =>
             (exists x, e = ThrownExtraction x)
             /\ totalExecutions (metrics (this (snd (execute_loop fn name (S r) attempt lastErr st))))
                = totalExecutions (metrics (this st))
             /\ totalFailures (metrics (this (snd (execute_loop fn name (S r) attempt lastErr st))))
                = S (totalFailures (metrics (this st)))
         end
      /\ now (world st) <= now (world (snd (execute_loop fn name (S r) attempt lastErr st)))
      /\ lastCallTime (this (snd (execute_loop fn name (S r) attempt lastErr st)))
         <= now (world (snd (execute_loop fn name (S r) attempt lastErr st))).
Proof.
  induction r as [|r IH]; intros attempt lastErr st Hmax;
    rewrite execute_loop_step;
    destruct (after_slot_counters st) as (Hx & Hr & Hf);
    pose proof (after_slot_now st) as Hnow;
    pose proof (after_slot_lastCallTime st) as Hlast;
    pose proof (N2Z.is_nonneg (took (fn (world (after_slot st))))) as Htook;
    destruct (settled (fn (world (after_slot st)))) as [v|e].
  - exists []. cbn. rewrite after_slot_trace, after_slot_calls, after_slot_wait,
      sleep_total_app, slot_events_sleep, <- app_assoc, Hx, Hr, Hf, Hlast.
    cbn. repeat split; lia.
  - cbv zeta. rewrite Hmax, Nat.add_0_r, Nat.ltb_irrefl, andb_false_r.
    exists []. destruct (isRateLimitError (as_Error e)); cbn;
      rewrite after_slot_trace, after_slot_calls, after_slot_wait,
        sleep_total_app, slot_events_sleep, <- app_assoc, Hx, Hr, Hf, Hlast;
      cbn; repeat split; eauto; lia.
  - exists []. cbn. rewrite after_slot_trace, after_slot_calls, after_slot_wait,
      sleep_total_app, slot_events_sleep, <- app_assoc, Hx, Hr, Hf, Hlast.
    cbn. repeat split; lia.
  - cbv zeta.
    destruct (isRateLimitError (as_Error e)) eqn:Hrl; cbn [andb].
    + rewrite Hmax. replace (attempt <? attempt + S r)%nat with true
        by (symmetry; apply Nat.ltb_lt; lia).
      destruct (IH (S attempt) (Some (as_Error e)) (after_backoff fn attempt st))
        as (ext & Htrace & Hcalls & Hbound & Hwait & Hretries & Hres & Hclock & Hlc).
      { rewrite after_backoff_config. lia. }
      exists (EvSleep (2 ^ Z.of_nat attempt * delayMs (config (this st)))
                :: slot_events (after_backoff fn attempt st) ++ EvCall :: ext).
      rewrite Htrace, Hcalls, Hwait, Hretries.
      rewrite !sleep_total_app, !slot_events_sleep.
      change (call_count (EvSleep ?ms :: ?l)) with (call_count l).
      rewrite call_count_app, slot_events_calls.
      split; [|split; [|split; [|split; [|split; [|split; [|split]]]]]].
      * cbn. by rewrite after_slot_trace, <- !app_assoc.
      * cbn. rewrite after_slot_calls. lia.
      * cbn. lia.
      * cbn. rewrite after_slot_wait, sleep_total_app, slot_events_sleep. cbn. lia.
      * cbn. rewrite Hr. lia.
      * destruct (fst (execute_loop fn name (S r) (S attempt) (Some (as_Error e))
                         (after_backoff fn attempt st))).
        -- destruct Hres as (H1 & H2). rewrite H1, H2. cbn. by rewrite Hx, Hf.
        -- destruct Hres as (H0 & H1 & H2). rewrite H1, H2. cbn. by rewrite Hx, Hf.
      * etransitivity; [|exact Hclock]. cbn. unfold timer_wait. lia.
      * exact Hlc.
    + exists []. cbn.
      rewrite after_slot_trace, after_slot_calls, after_slot_wait,
        sleep_total_app, slot_events_sleep, <- app_assoc, Hx, Hr, Hf, Hlast.
      cbn. repeat split; eauto; lia.
Qed.

(** X1. With a positive [maxRetries], every [execute] invokes the operation
    at least once and at most [maxRetries] times, counts one retry per
    invocation after the first, and ends in exactly one of two ways: a
    result, with one more execution counted, or an [ExtractionError] thrown,
    with one more failure counted. The configuration is never changed. *)
Theorem execute_settles_once {T} (fn : Operation T) (name : string) (st : St) :
  (1 <= maxRetries (config (this st)))%nat ->
  (S (calls (world st)) <= calls (world (snd (execute fn name st)))
   <= calls (world st) + maxRetries (config (this st)))%nat
  /\ (totalRetries (metrics (this (snd (execute fn name st))))
      + S (calls (world st))
      = totalRetries (metrics (this st)) + calls (world (snd (execute fn name st))))%nat
  /\ config (this (snd (execute fn name st))) = config (this st)
  /\ match fst (execute fn name st) with
     | Ok _ =>
         totalExecutions (metrics (this (snd (execute fn name st))))
         = S (totalExecutions (metrics (this st)))
         /\ totalFailures (metrics (this (snd (execute fn name st))))
            = totalFailures (metrics (this st))
     | Throw e =>
         (exists x, e = ThrownExtraction x)
         /\ totalExecutions (metrics (this (snd (execute fn name st))))
            = totalExecutions (metrics (this st))
         /\ totalFailures (metrics (this (snd (execute fn name st))))
            = S (totalFailures (metrics (this st)))
     end.
Proof.
  intros Hpos. rewrite execute_config, !execute_unfold.
  destruct (maxRetries (config (this st))) as [|r] eqn:Hm; [lia|].
  destruct (execute_loop_account fn name r 1%nat None st)
    as (ext & _ & Hcalls & Hbound & _ & Hretries & Hres & _); [by rewrite Hm|].
  rewrite Hcalls, Hretries. repeat split; try lia. exact Hres.
Qed.

(** X2. Whatever [execute] does, it only adds events to the trace, and
    its books agree with them: [totalWaitTimeMs] grows by the milliseconds
    of the sleeps added (those of [waitForNextSlot] and the back-offs), the
    number of invocations is the number of call events added, and the clock
    does not go back. *)
Theorem execute_accounts_for_sleeps {T} (fn : Operation T) (name : string) (st : St) :
  exists ext,
    trace (world (snd (execute fn name st))) = trace (world st) ++ ext
    /\ totalWaitTimeMs (metrics (this (snd (execute fn name st))))
       = totalWaitTimeMs (metrics (this st)) + sleep_total ext
    /\ calls (world (snd (execute fn name st)))
       = (calls (world st) + call_count ext)%nat
    /\ now (world st) <= now (world (snd (execute fn name st))).
Proof.
  rewrite !execute_unfold.
  destruct (maxRetries (config (this st))) as [|r] eqn:Hm.
  - exists []. cbn. rewrite app_nil_r. repeat split; lia.
  - destruct (execute_loop_account fn name r 1%nat None st)
      as (ext & Htrace & Hcalls & _ & Hwait & _ & _ & Hclock & _); [by rewrite Hm|].
    exists (slot_events st ++ EvCall :: ext).
    rewrite Htrace, Hcalls, Hwait, call_count_app, slot_events_calls.
    repeat split; lia.
Qed.

(** The clock after a back-off is not behind the slot of the attempt. *)
Lemma after_backoff_now {T} (fn : Operation T) a st :
  now (world (after_slot st)) <= now (world (after_backoff fn a st)).
Proof.
  pose proof (N2Z.is_nonneg (took (fn (world (after_slot st))))).
  cbn. unfold timer_wait. lia.
Qed.

(** Two operations that settle alike in every world from a given clock
    reading on are run alike by the loop, when its first slot is not before
    that reading. *)
Lemma execute_loop_agree {T} (fn fn' : Operation T) name (t0 : Z) :
  (forall w, t0 <= now w -> fn w = fn' w) ->
  forall r attempt lastErr st,
    t0 <= now (world (after_slot st)) ->
    execute_loop fn name r attempt lastErr st
    = execute_loop fn' name r attempt lastErr st.
Proof.
  intros Hagree r. induction r as [|r IH]; intros attempt lastErr st Ht0; [reflexivity|].
  rewrite !execute_loop_step.
  assert (Hsame : fn (world (after_slot st)) = fn' (world (after_slot st)))
    by (by apply Hagree).
  assert (Hcall : after_call fn st = after_call fn' st).
  { unfold after_call, on_world, world_call. by rewrite Hsame. }
  assert (Hback : after_backoff fn attempt st = after_backoff fn' attempt st).
  { unfold after_backoff. by rewrite Hcall. }
  rewrite Hsame, Hcall, Hback.
  destruct (settled (fn' (world (after_slot st)))) as [v|e]; [reflexivity|].
  cbv zeta.
  destruct (isRateLimitError (as_Error e)
            && (attempt <? maxRetries (config (this st)))%nat); [|reflexivity].
  apply IH.
  pose proof (after_slot_now (after_backoff fn' attempt st)).
  pose proof (after_backoff_now fn' attempt st). lia.
Qed.

(** The slot [waitForNextSlot] grants when the timer of its wait fires at
    most [eps] ms early. *)
Lemma after_slot_spacing st eps :
  0 <= eps ->
  (0 < slot_remaining st -> slot_remaining st - eps <= slot_wait st) ->
  lastCallTime (this st) + delayMs (config (this st)) - eps
  <= now (world (after_slot st)).
Proof.
  intros Heps Htimer. rewrite after_slot_clock.
  destruct (Z.lt_ge_cases 0 (slot_remaining st)) as [Hpos|Hfree].
  - specialize (Htimer Hpos). unfold slot_remaining in *. lia.
  - pose proof (slot_wait_nonneg st). unfold slot_remaining in *. lia.
Qed.

(** X3. [execute] never invokes the operation before the slot
    [waitForNextSlot] grants, which is the clock reading when its wait ends.
    When the timer of that wait fires at most [eps] ms early, the slot is
    not before [lastCallTime + delayMs - eps]: consecutive slots of one
    scheduler are at least [delayMs - eps] ms apart, and two operations that
    settle alike in every world whose clock reads at least that (and is not
    behind the present one) are executed alike. *)
Theorem execute_respects_spacing {T} (fn fn' : Operation T) (name : string)
    (st : St) (eps : Z) :
  0 <= eps ->
  (0 < slot_remaining st -> slot_remaining st - eps <= slot_wait st) ->
  (forall w,
      now (world st) <= now w ->
      lastCallTime (this st) + delayMs (config (this st)) - eps <= now w ->
      fn w = fn' w) ->
  execute fn name st = execute fn' name st
  /\ lastCallTime (this (snd (waitForNextSlot st))) = now (world st) + slot_wait st
  /\ now (world st) <= lastCallTime (this (snd (waitForNextSlot st)))
  /\ lastCallTime (this st) + delayMs (config (this st)) - eps
     <= lastCallTime (this (snd (waitForNextSlot st))).
Proof.
  intros Heps Htimer Hagree.
  pose proof (after_slot_spacing st eps Heps Htimer) as Hslot.
  pose proof (after_slot_now st) as Hnow.
  split; [|split; [|split]].
  - rewrite !execute_unfold.
    apply (execute_loop_agree fn fn' name
             (Z.max (now (world st))
                (lastCallTime (this st) + delayMs (config (this st)) - eps))).
    + intros w Hw. apply Hagree; lia.
    + lia.
  - rewrite waitForNextSlot_eq. cbn [snd].
    by rewrite after_slot_lastCallTime, after_slot_clock.
  - rewrite waitForNextSlot_eq. cbn [snd]. by rewrite after_slot_lastCallTime.
  - rewrite waitForNextSlot_eq. cbn [snd]. by rewrite after_slot_lastCallTime.
Qed.

(** The loop against an operation that is throttled [j] more times and
    then succeeds, when every back-off timer lasts at least [delayMs]. *)
Lemma execute_loop_recovers {T} (fn : Operation T) name (v : T) :
  forall j attempt lastErr st r,
    maxRetries (config (this st)) = (attempt + r)%nat ->
    (j <= r)%nat ->
    backoffs_last st attempt (attempt + j) ->
    (forall w, (calls (world st) <= calls w < calls (world st) + j)%nat ->
               exists e, settled (fn w) = Throw e
                         /\ isRateLimitError (as_Error e) = true) ->
    (forall w, calls w = (calls (world st) + j)%nat -> settled (fn w) = Ok v) ->
    exists st',
      execute_loop fn name (S r) attempt lastErr st = (Ok v, st')
      /\ calls (world st') = (calls (world st) + S j)%nat
      /\ trace (world st')
         = trace (world st) ++ slot_events st
             ++ backoff_schedule (delayMs (config (this st))) attempt j
      /\ totalWaitTimeMs (metrics (this st'))
         = totalWaitTimeMs (metrics (this st)) + Z.max 0 (slot_remaining st)
           + (2 ^ Z.of_nat (attempt + j) - 2 ^ Z.of_nat attempt)
             * delayMs (config (this st))
      /\ totalRetries (metrics (this st')) = (totalRetries (metrics (this st)) + j)%nat
      /\ totalFailures (metrics (this st')) = totalFailures (metrics (this st))
      /\ totalExecutions (metrics (this st')) = S (totalExecutions (metrics (this st)))
      /\ lastExecutionAt (metrics (this st')) = Some (now (world st')).
Proof.
  induction j as [|j IH]; intros attempt lastErr st r Hmax Hj Htimers Hfail Hok;
    rewrite execute_loop_step;
    destruct (after_slot_counters st) as (Hx & Hr & Hf).
  - rewrite (Hok (world (after_slot st))) by (rewrite after_slot_calls; lia).
    eexists. split; [reflexivity|].
    cbn. rewrite after_slot_calls, after_slot_trace, after_slot_wait,
      <- app_assoc, Hx, Hr, Hf, Nat.add_0_r.
    repeat split; lia.
  - destruct r as [|r]; [lia|].
    destruct (Hfail (world (after_slot st))) as (e & He & Hrl);
      [rewrite after_slot_calls; lia|].
    rewrite He. cbv zeta. rewrite Hrl, Hmax.
    replace (attempt <? attempt + S r)%nat with true
      by (symmetry; apply Nat.ltb_lt; lia).
    cbn [andb].
    assert (Hc : calls (world (after_backoff fn attempt st)) = S (calls (world st)))
      by (cbn; by rewrite after_slot_calls).
    destruct (IH (S attempt) (Some (as_Error e)) (after_backoff fn attempt st) r)
      as (st' & Hrun & Hcalls & Htrace & Hwait & Hretries & Hfailures & Hexec & Hat).
    { rewrite after_backoff_config. lia. }
    { lia. }
    { apply backoffs_last_after. eapply backoffs_last_narrow; [| |exact Htimers]; lia. }
    { intros w Hw. apply Hfail. lia. }
    { intros w Hw. apply Hok. lia. }
    assert (Hfree : slot_remaining (after_backoff fn attempt st) <= 0).
    { apply after_backoff_free. eapply backoffs_last_narrow; [| |exact Htimers]; lia. }
    rewrite (slot_events_free _ Hfree) in Htrace.
    rewrite after_backoff_config in *.
    exists st'. split; [exact Hrun|].
    rewrite Hcalls, Htrace, Hwait, Hretries, Hfailures, Hexec, Hc.
    rewrite (Z.max_l 0 _ Hfree).
    cbn. rewrite ?after_slot_trace, ?after_slot_wait, ?Hx, ?Hr, ?Hf.
    repeat split; try lia; try exact Hat.
    + rewrite <- !app_assoc. reflexivity.
    + replace (attempt + S j)%nat with (S (attempt + j)) by lia.
      rewrite !Nat2Z.inj_succ, !Z.pow_succ_r by lia. ring.
Qed.

(** X4. An operation that is throttled on its first [k] invocations and
    then succeeds, with [k < maxRetries], when every back-off timer lasts at
    least [delayMs]: [execute] returns its result after [k + 1]
    invocations, with exactly one sleep, of [2^i * delayMs] ms, after the
    [i]-th failure, [k] retries and one execution counted, no failure
    counted, and [lastExecutionAt] set to the time of return. *)
Theorem execute_recovers_after_throttling {T} (fn : Operation T) (name : string)
    (st : St) (k : nat) (v : T) :
  (k < maxRetries (config (this st)))%nat ->
  backoffs_last st 1 (S k) ->
  (forall w, (calls (world st) <= calls w < calls (world st) + k)%nat ->
             exists e, settled (fn w) = Throw e
                       /\ isRateLimitError (as_Error e) = true) ->
  (forall w, calls w = (calls (world st) + k)%nat -> settled (fn w) = Ok v) ->
  exists st' attempts,
    execute fn name st = (Ok v, st')
    /\ calls (world st') = (calls (world st) + k + 1)%nat
    /\ trace (world st') = trace (world st) ++ slot_events st ++ attempts
    /\ length attempts = (2 * k + 1)%nat
    /\ (forall i, (1 <= i <= k + 1)%nat -> attempts !! (2 * (i - 1))%nat = Some EvCall)
    /\ (forall i, (1 <= i <= k)%nat ->
          attempts !! (2 * i - 1)%nat
          = Some (EvSleep (2 ^ Z.of_nat i * delayMs (config (this st)))))
    /\ totalRetries (metrics (this st')) = (totalRetries (metrics (this st)) + k)%nat
    /\ totalExecutions (metrics (this st')) = S (totalExecutions (metrics (this st)))
    /\ totalFailures (metrics (this st')) = totalFailures (metrics (this st))
    /\ lastExecutionAt (metrics (this st')) = Some (now (world st')).
Proof.
  intros Hk Htimers Hfail Hok. rewrite execute_unfold.
  destruct (maxRetries (config (this st))) as [|r] eqn:Hm; [lia|].
  destruct (execute_loop_recovers fn name v k 1%nat None st r)
    as (st' & Hrun & Hcalls & Htrace & _ & Hretries & Hfailures & Hexec & Hat);
    [by rewrite Hm | lia | exact Htimers | exact Hfail | exact Hok |].
  exists st', (backoff_schedule (delayMs (config (this st))) 1 k).
  split; [exact Hrun|].
  repeat split; try assumption; try lia.
  - rewrite backoff_schedule_length. lia.
  - intros i Hi. apply backoff_schedule_call. lia.
  - intros i Hi. replace (2 * i - 1)%nat with (2 * (i - 1) + 1)%nat by lia.
    rewrite backoff_schedule_sleep by lia. do 4 f_equal. lia.
Qed.

End SchedulerMore.

(** ** More about the errors and the pipeline *)

Module PipelineMore.
Import Errors Runtime Runtime.Notations Types RateLimiter Json Pipeline.
Import Expected PipelineExpected Accounting RateLimiterFacts PipelineFacts SchedulerMore.

Lemma append_assoc (a b c : string) : (a +:+ b) +:+ c = a +:+ b +:+ c.
Proof.
  induction a as [|x a IH]; [reflexivity|].
  rewrite !JsStringFacts.append_cons. by rewrite IH.
Qed.

Lemma append_empty_r (a : string) : a +:+ EmptyString = a.
Proof.
  induction a as [|x a IH]; [reflexivity|].
  rewrite JsStringFacts.append_cons. by rewrite IH.
Qed.

(** The message [wrapError] gives to what is not an [ExtractionError]: the
    original message, after the context, a colon and a space when a context
    is given and is not the empty string. *)
Lemma with_context_cases (context : option string) (msg : string) :
  (context = None -> with_context context msg = msg)
  /\ (context = Some EmptyString -> with_context context msg = msg)
  /\ (forall c, context = Some c -> c <> EmptyString ->
        with_context context msg = c +:+ ": " +:+ msg).
Proof.
  split; [by intros ->|]. split; [by intros ->|].
  intros c -> Hc. unfold with_context. by destruct c.
Qed.

(** X5. [wrapError] passes an [ExtractionError] through untouched, whatever
    the context, so wrapping twice is wrapping once: contexts do not pile
    up. Anything else becomes an [ExtractionError] of code [UNKNOWN] whose
    message is the original message (for a value that is not an [Error],
    its string conversion), after the context, a colon and a space when a
    context is given and is not empty, and whose cause is the original error
    exactly when that was an [Error]. *)
Theorem wrapError_wraps_once (e : Thrown) (c1 c2 : option string) :
  wrapError (ThrownExtraction (wrapError e c1)) c2 = wrapError e c1
  /\ match e with
     | ThrownExtraction x => wrapError e c1 = x
     | ThrownError original =>
         code (wrapError e c1) = UNKNOWN
         /\ cls (wrapError e c1) = ClsExtractionError
         /\ (c1 = None -> message (wrapError e c1) = err_message original)
         /\ (c1 = Some EmptyString -> message (wrapError e c1) = err_message original)
         /\ (forall c, c1 = Some c -> c <> EmptyString ->
               message (wrapError e c1) = c +:+ ": " +:+ err_message original)
         /\ metadata (wrapError e c1)
            = Some {| retryAfter := None; attemptsMade := None; cause := Some original |}
     | ThrownValue repr =>
         code (wrapError e c1) = UNKNOWN
         /\ cls (wrapError e c1) = ClsExtractionError
         /\ (c1 = None -> message (wrapError e c1) = repr)
         /\ (c1 = Some EmptyString -> message (wrapError e c1) = repr)
         /\ (forall c, c1 = Some c -> c <> EmptyString ->
               message (wrapError e c1) = c +:+ ": " +:+ repr)
         /\ metadata (wrapError e c1)
            = Some {| retryAfter := None; attemptsMade := None; cause := None |}
     end.
Proof.
  split; [reflexivity|].
  destruct e as [x|original|repr]; [reflexivity| |]; cbn [wrapError code cls message metadata].
  - destruct (with_context_cases c1 (err_message original)) as (H1 & H2 & H3).
    repeat split; assumption.
  - destruct (with_context_cases c1 repr) as (H1 & H2 & H3).
    repeat split; assumption.
Qed.

Section WithCapabilities.
Variable stringify : Item -> string.
Variable generateObject : ExtractorConfig -> string -> Operation (list Item).
Variable onProgress : bool.

Abbreviation pages_loop := (Pipeline.pages_loop generateObject onProgress).
Abbreviation extractSingle := (Pipeline.extractSingle generateObject).
Abbreviation extractFromPages := (Pipeline.extractFromPages stringify generateObject onProgress).
Abbreviation deduplicateItems := (Pipeline.deduplicateItems stringify).
Abbreviation dedup_key := (Pipeline.dedup_key stringify).

Lemma dedup_from_keys (key : Item -> string) l :
  forall seen,
    NoDup (map key (dedup_from key seen l))
    /\ (forall x, x ∈ dedup_from key seen l -> key x ∉ seen)
    /\ (forall x, x ∈ l -> key x ∈ seen \/ exists y, y ∈ dedup_from key seen l /\ key y = key x).
Proof.
  induction l as [|a l IH]; intros seen; cbn [dedup_from].
  - split; [constructor|]. split; intros x Hx; by apply elem_of_nil in Hx.
  - destruct (decide (key a ∈ seen)) as [Hin|Hout].
    + destruct (IH seen) as (Hnd & Hfresh & Hcov). split; [exact Hnd|].
      split; [exact Hfresh|].
      intros x [->|Hx]%elem_of_cons; [by left | by apply Hcov].
    + destruct (IH ({[ key a ]} ∪ seen)) as (Hnd & Hfresh & Hcov).
      split; [|split].
      * cbn. constructor; [|exact Hnd].
        intros (y & Hy & Hiny)%list_elem_of_fmap.
        apply (Hfresh y Hiny). rewrite <- Hy. apply elem_of_union. left.
        by apply elem_of_singleton.
      * intros x [->|Hx]%elem_of_cons; [exact Hout|].
        intros Hseen. apply (Hfresh x Hx). apply elem_of_union. by right.
      * intros x [->|Hx]%elem_of_cons.
        -- right. exists a. split; [left|reflexivity].
        -- destruct (Hcov x Hx) as [[Hk%elem_of_singleton|Hs]%elem_of_union|(y & Hy & Hk)].
           ++ right. exists a. split; [left | done].
           ++ by left.
           ++ right. exists y. split; [by right | exact Hk].
Qed.

Lemma dedup_from_fixed (key : Item -> string) l :
  forall seen,
    NoDup (map key l) ->
    (forall x, x ∈ l -> key x ∉ seen) ->
    dedup_from key seen l = l.
Proof.
  induction l as [|a l IH]; intros seen Hnd Hfresh; [reflexivity|].
  cbn [dedup_from]. rewrite decide_False by (apply Hfresh; left).
  apply NoDup_cons in Hnd as [Ha Hnd]. f_equal. apply IH; [exact Hnd|].
  intros x Hx [Hk%elem_of_singleton|Hs]%elem_of_union.
  - apply Ha. rewrite <- Hk. apply list_elem_of_fmap. by exists x.
  - apply (Hfresh x); [by right | exact Hs].
Qed.

(** X6. No two items [deduplicateItems] returns have the same key, and
    every item it was given has its key among those returned. Items whose
    keys are already distinct are returned unchanged, so deduplicating twice
    changes nothing. *)
Theorem deduplicateItems_is_idempotent (l : list Item) :
  NoDup (map dedup_key (deduplicateItems l))
  /\ (forall x, x ∈ l ->
        exists y, y ∈ deduplicateItems l /\ dedup_key y = dedup_key x)
  /\ (NoDup (map dedup_key l) -> deduplicateItems l = l)
  /\ deduplicateItems (deduplicateItems l) = deduplicateItems l.
Proof.
  rewrite !deduplicateItems_eq.
  destruct (dedup_from_keys dedup_key l ∅) as (Hnd & _ & Hcov).
  split; [exact Hnd|]. split; [|split].
  - intros x Hx. destruct (Hcov x Hx) as [Hin|Hy]; [set_solver | exact Hy].
  - intros Hl. apply dedup_from_fixed; [exact Hl | set_solver].
  - apply dedup_from_fixed; [exact Hnd | set_solver].
Qed.

Lemma progress_reports_app (a b : list Event) :
  progress_reports (a ++ b) = progress_reports a ++ progress_reports b.
Proof.
  induction a as [|ev a IH]; [reflexivity|].
  destruct ev; cbn; by rewrite IH.
Qed.

Lemma after_slot_progress st :
  progress_reports (trace (world (after_slot st))) = progress_reports (trace (world st)).
Proof.
  rewrite after_slot_trace, progress_reports_app. unfold slot_events.
  destruct (0 <? slot_remaining st); cbn; by rewrite app_nil_r.
Qed.

(** The loop of [execute] reports no progress. *)
Lemma execute_loop_quiet {T} (fn : Operation T) name r :
  forall attempt lastErr st,
    progress_reports (trace (world (snd (execute_loop fn name r attempt lastErr st))))
    = progress_reports (trace (world st)).
Proof.
  induction r as [|r IH]; intros attempt lastErr st.
  - by destruct lastErr.
  - rewrite execute_loop_step.
    pose proof (after_slot_progress st) as Hslot.
    destruct (settled (fn (world (after_slot st)))) as [v|e].
    + cbn. by rewrite progress_reports_app, Hslot, app_nil_r.
    + cbv zeta.
      destruct (isRateLimitError (as_Error e)
                && (attempt <? maxRetries (config (this st)))%nat).
      * rewrite IH. cbn. by rewrite !progress_reports_app, Hslot, !app_nil_r.
      * destruct (isRateLimitError (as_Error e)); cbn;
          by rewrite progress_reports_app, Hslot, app_nil_r.
Qed.

(** After the loop of [execute] has run at least once, the last slot
    granted is not before the first one. *)
Lemma execute_loop_last_slot {T} (fn : Operation T) name r :
  forall attempt lastErr st,
    now (world (after_slot st))
    <= lastCallTime (this (snd (execute_loop fn name (S r) attempt lastErr st))).
Proof.
  induction r as [|r IH]; intros attempt lastErr st;
    rewrite execute_loop_step;
    pose proof (after_slot_lastCallTime st) as Hlast;
    destruct (settled (fn (world (after_slot st)))) as [v|e];
    try (cbn; lia).
  - cbv zeta.
    destruct (isRateLimitError (as_Error e)
              && (attempt <? maxRetries (config (this st)))%nat).
    + cbn. lia.
    + destruct (isRateLimitError (as_Error e)); cbn; lia.
  - cbv zeta.
    destruct (isRateLimitError (as_Error e)
              && (attempt <? maxRetries (config (this st)))%nat).
    + etransitivity; [|apply IH].
      pose proof (after_slot_now (after_backoff fn attempt st)).
      pose proof (after_backoff_now fn attempt st). lia.
    + destruct (isRateLimitError (as_Error e)); cbn; lia.
Qed.

(** What one [execute] does to the clock, the slots and the call counter. *)
Lemma execute_bounds {T} (fn : Operation T) label st :
  (calls (world st) <= calls (world (snd (execute fn label st)))
   <= calls (world st) + maxRetries (config (this st)))%nat
  /\ now (world st) <= now (world (snd (execute fn label st)))
  /\ ((1 <= maxRetries (config (this st)))%nat ->
      (S (calls (world st)) <= calls (world (snd (execute fn label st))))%nat
      /\ now (world (after_slot st)) <= lastCallTime (this (snd (execute fn label st)))
      /\ lastCallTime (this (snd (execute fn label st)))
         <= now (world (snd (execute fn label st)))).
Proof.
  rewrite !execute_unfold.
  destruct (maxRetries (config (this st))) as [|r] eqn:Hm.
  - cbn. repeat split; lia.
  - destruct (execute_loop_account fn label r 1%nat None st)
      as (ext & _ & Hcalls & Hbound & _ & _ & _ & Hclock & Hlc); [by rewrite Hm|].
    pose proof (execute_loop_last_slot fn label r 1%nat None st) as Hslot.
    rewrite Hcalls. repeat split; lia.
Qed.

(** The timers are the world's: nothing the scheduler does changes them. *)
Lemma execute_loop_timer {T} (fn : Operation T) name r :
  forall attempt lastErr st,
    timer (world (snd (execute_loop fn name r attempt lastErr st))) = timer (world st).
Proof.
  induction r as [|r IH]; intros attempt lastErr st.
  - by destruct lastErr.
  - rewrite execute_loop_step.
    pose proof (after_slot_timer st) as Htimer.
    destruct (settled (fn (world (after_slot st)))) as [v|e]; [done|].
    cbv zeta.
    destruct (isRateLimitError (as_Error e)
              && (attempt <? maxRetries (config (this st)))%nat).
    + by rewrite IH, after_backoff_timer.
    + by destruct (isRateLimitError (as_Error e)).
Qed.

Lemma after_progress_world total i chunk st :
  now (world (after_progress onProgress total i chunk st)) = now (world st)
  /\ calls (world (after_progress onProgress total i chunk st)) = calls (world st)
  /\ this (after_progress onProgress total i chunk st) = this st.
Proof. unfold after_progress. by destruct onProgress. Qed.

Lemma after_progress_timer total i chunk st :
  timer (world (after_progress onProgress total i chunk st)) = timer (world st).
Proof. unfold after_progress. by destruct onProgress. Qed.

(** What the loop over the chunks does to the clock, the call counter and
    the progress reports. *)
Lemma pages_loop_bounds extractor total todo :
  forall i prs all st,
    config (this (snd (pages_loop extractor total i todo prs all st))) = config (this st)
    /\ (calls (world st)
        <= calls (world (snd (pages_loop extractor total i todo prs all st)))
        <= calls (world st) + length todo * maxRetries (config (this st)))%nat
    /\ now (world st) <= now (world (snd (pages_loop extractor total i todo prs all st)))
    /\ progress_reports (trace (world (snd (pages_loop extractor total i todo prs all st))))
       = progress_reports (trace (world st))
         ++ (if onProgress
             then imap (fun j chunk => ((i + j + 1)%nat, total, progress_status chunk)) todo
             else [])
    /\ ((1 <= maxRetries (config (this st)))%nat ->
        (calls (world st) + length todo
         <= calls (world (snd (pages_loop extractor total i todo prs all st))))%nat).
Proof.
  induction todo as [|chunk rest IH]; intros i prs all st.
  - assert (Hnone : (if onProgress
                     then imap (fun j chunk => ((i + j + 1)%nat, total,
                                                progress_status chunk)) []
                     else []) = []) by (by destruct onProgress).
    rewrite Hnone, app_nil_r. cbn. repeat split; lia.
  - rewrite pages_loop_cons. cbv zeta.
    set (st1 := after_progress onProgress total i chunk st).
    set (ran := execute (extractSingle (content chunk) extractor) (execute_label chunk) st1).
    destruct (after_progress_world total i chunk st) as (Hn1 & Hc1 & Ht1).
    fold st1 in Hn1, Hc1, Ht1.
    destruct (execute_bounds (extractSingle (content chunk) extractor)
                (execute_label chunk) st1) as (Hcalls & Hclock & Hpos).
    pose proof (execute_config (extractSingle (content chunk) extractor)
                  (execute_label chunk) st1) as Hcfg.
    fold ran in Hcalls, Hclock, Hpos, Hcfg.
    rewrite Ht1 in Hcalls, Hpos, Hcfg.
    destruct (IH (S i) (prs ++ [recorded chunk (fst ran)]) (all ++ items_of (fst ran))
                (snd ran)) as (Hcfg' & Hcalls' & Hclock' & Hprog' & Hpos').
    rewrite Hcfg in Hcfg', Hcalls', Hpos'.
    split; [exact Hcfg'|]. split; [cbn [length]; lia|]. split; [lia|]. split.
    + rewrite Hprog'. unfold ran. rewrite execute_unfold, execute_loop_quiet.
      unfold st1. rewrite after_progress_trace, progress_reports_app, <- app_assoc.
      f_equal. destruct onProgress; [|reflexivity].
      cbn [progress_reports app imap]. rewrite Nat.add_0_r. f_equal.
      apply imap_ext. intros j x _. cbn. do 2 f_equal. lia.
    + intros Hmax. destruct (Hpos Hmax) as (Hc & _).
      specialize (Hpos' Hmax). cbn [length]. lia.
Qed.

Lemma fires_within_same (w w' : World) eps limit :
  timer w' = timer w -> fires_within w eps limit -> fires_within w' eps limit.
Proof. intros Hsame Hw n d Hd. rewrite Hsame. by apply Hw. Qed.

(** The slot of the first attempt of an [execute] started when the previous
    slot is not ahead of the clock, with timers that fire at most [eps] ms
    early. *)
Lemma first_slot_spacing st eps :
  0 <= eps ->
  0 <= delayMs (config (this st)) <= TIMEOUT_MAX ->
  fires_within (world st) eps (delayMs (config (this st))) ->
  lastCallTime (this st) <= now (world st) ->
  lastCallTime (this st) + delayMs (config (this st)) - eps
  <= now (world (after_slot st)).
Proof.
  intros Heps Hd Htimers Hpast. apply after_slot_spacing; [exact Heps|].
  intros Hpos. unfold slot_wait.
  destruct (Z.ltb_spec 0 (slot_remaining st)); [|lia].
  unfold timer_wait.
  assert (Hrange : 1 <= slot_remaining st <= delayMs (config (this st)))
    by (unfold slot_remaining in *; lia).
  rewrite timeout_delay_in_range by lia.
  by apply Htimers.
Qed.

(** With timers that fire at most [eps] ms early, every chunk moves the
    last slot on by at least [delayMs - eps] ms. *)
Lemma pages_loop_spacing extractor total todo eps :
  forall i prs all st,
    (1 <= maxRetries (config (this st)))%nat ->
    0 <= eps ->
    0 <= delayMs (config (this st)) <= TIMEOUT_MAX ->
    fires_within (world st) eps (delayMs (config (this st))) ->
    lastCallTime (this st) <= now (world st) ->
    lastCallTime (this st)
    + Z.of_nat (length todo) * (delayMs (config (this st)) - eps)
    <= lastCallTime (this (snd (pages_loop extractor total i todo prs all st)))
    /\ lastCallTime (this (snd (pages_loop extractor total i todo prs all st)))
       <= now (world (snd (pages_loop extractor total i todo prs all st))).
Proof.
  induction todo as [|chunk rest IH]; intros i prs all st Hmax Heps Hd Htimers Hpast.
  - cbn. lia.
  - rewrite pages_loop_cons. cbv zeta.
    set (st1 := after_progress onProgress total i chunk st).
    set (ran := execute (extractSingle (content chunk) extractor) (execute_label chunk) st1).
    destruct (after_progress_world total i chunk st) as (Hn1 & Hc1 & Ht1).
    pose proof (after_progress_timer total i chunk st) as Htm1.
    fold st1 in Hn1, Hc1, Ht1, Htm1.
    destruct (execute_bounds (extractSingle (content chunk) extractor)
                (execute_label chunk) st1) as (_ & _ & Hpos).
    pose proof (execute_config (extractSingle (content chunk) extractor)
                  (execute_label chunk) st1) as Hcfg.
    pose proof (execute_loop_timer (extractSingle (content chunk) extractor)
                  (execute_label chunk) (maxRetries (config (this st1))) 1%nat None st1)
      as Htm.
    rewrite <- execute_unfold in Htm.
    fold ran in Hpos, Hcfg, Htm.
    rewrite Ht1 in Hpos, Hcfg.
    destruct (Hpos Hmax) as (_ & Hslot & Hlc).
    assert (Hfirst : lastCallTime (this st) + delayMs (config (this st)) - eps
                     <= now (world (after_slot st1))).
    { rewrite <- Ht1. apply first_slot_spacing; rewrite ?Ht1, ?Hn1; try assumption.
      by apply (fires_within_same (world st)). }
    destruct (IH (S i) (prs ++ [recorded chunk (fst ran)]) (all ++ items_of (fst ran))
                (snd ran)) as (Hlow & Hhigh);
      rewrite ?Hcfg; try assumption.
    { apply (fires_within_same (world st)); [by rewrite Htm, Htm1 | assumption]. }
    rewrite Hcfg in Hlow.
    split; [|exact Hhigh].
    cbn [length]. rewrite Nat2Z.inj_succ. lia.
Qed.

(** [extractFromPages] in terms of its loop. *)
Lemma extractFromPages_unfold chunks extractor w :
  exists prs all,
    fst (pages_loop extractor (length chunks) 0%nat chunks [] []
           {| this := run_limiter extractor; world := w |}) = Ok (prs, all)
    /\ Forall2 (chunk_outcome generateObject extractor) chunks prs
    /\ all = concat (map page_items prs)
    /\ extractFromPages chunks extractor w
       = (Ok {| items := deduplicateItems all;
                pagesProcessed := length chunks;
                pagesFailed := length (filter (fun r => page_success r = false) prs);
                pageResults := prs;
                metrics :=
                  {| totalItems := length (deduplicateItems all);
                     itemsBeforeDedup := length all;
                     processingTimeMs :=
                       now (world (snd (pages_loop extractor (length chunks) 0%nat chunks
                                          [] [] {| this := run_limiter extractor;
                                                   world := w |})))
                       - now w;
                     averageConfidence :=
                       compute_averageConfidence (deduplicateItems all) |} |},
          snd (pages_loop extractor (length chunks) 0%nat chunks [] []
                 {| this := run_limiter extractor; world := w |})).
Proof.
  destruct (pages_loop_ok generateObject onProgress extractor (length chunks) chunks
              0%nat [] [] {| this := run_limiter extractor; world := w |})
    as (news & st' & Hrun & Hall).
  exists news, (concat (map page_items news)).
  unfold Pipeline.extractFromPages, extractFromPages_run.
  rewrite Hrun. run_monad. rewrite Hrun. cbn [app].
  repeat split; try reflexivity. exact Hall.
Qed.

Lemma elem_of_concat {A} (x : A) (ls : list (list A)) :
  x ∈ concat ls -> exists l, x ∈ l /\ l ∈ ls.
Proof.
  induction ls as [|l ls IH]; cbn; [by intros ?%elem_of_nil|].
  intros [Hl|Hls]%elem_of_app.
  - exists l. split; [exact Hl | left].
  - destruct (IH Hls) as (l' & Hx & Hl'). exists l'. split; [exact Hx | by right].
Qed.

Lemma chunk_outcome_facts extractor chunk pr :
  chunk_outcome generateObject extractor chunk pr ->
  page_pageNumber pr = pageNumber chunk
  /\ (page_success pr = true <-> page_error pr = None)
  /\ (page_success pr = false -> page_items pr = []).
Proof.
  intros (st & ->). destruct (fst (execute _ _ st)); cbn; repeat split; congruence.
Qed.

(** X7. The result of a run is consistent: one recorded outcome per chunk,
    in the order of the chunks and with their page numbers;
    [pagesFailed <= pagesProcessed]; [totalItems] counts the returned items
    and is not above [itemsBeforeDedup]; every returned item was found on a
    page recorded as successful; an outcome has an error message exactly
    when it is not successful, and then no items; and [processingTimeMs] is
    the time the clock advanced during the run, never negative. *)
Theorem extraction_result_is_consistent (chunks : list PageChunk)
    (extractor : ExtractorConfig) (w : World) :
  exists r st',
    extractFromPages chunks extractor w = (Ok r, st')
    /\ map page_pageNumber (pageResults r) = map pageNumber chunks
    /\ pagesProcessed r = length (pageResults r)
    /\ (pagesFailed r <= pagesProcessed r)%nat
    /\ totalItems (metrics r) = length (items r)
    /\ (totalItems (metrics r) <= itemsBeforeDedup (metrics r))%nat
    /\ (forall item, item ∈ items r ->
          exists pr, pr ∈ pageResults r /\ page_success pr = true
                     /\ item ∈ page_items pr)
    /\ (forall pr, pr ∈ pageResults r ->
          (page_success pr = true <-> page_error pr = None)
          /\ (page_success pr = false -> page_items pr = []))
    /\ processingTimeMs (metrics r) = now (world st') - now w
    /\ 0 <= processingTimeMs (metrics r).
Proof.
  destruct (extractFromPages_unfold chunks extractor w)
    as (prs & all & _ & Hall & -> & Hrun).
  eexists _, _. split; [exact Hrun|]. cbn [pageResults pagesProcessed pagesFailed
    items metrics totalItems itemsBeforeDedup processingTimeMs].
  assert (Hfacts : forall pr, pr ∈ prs ->
             (page_success pr = true <-> page_error pr = None)
             /\ (page_success pr = false -> page_items pr = [])).
  { intros pr [i Hi]%list_elem_of_lookup.
    destruct (Forall2_lookup_r _ _ _ _ _ Hall Hi) as (chunk & _ & Hout).
    by destruct (chunk_outcome_facts _ _ _ Hout) as (_ & H1 & H2). }
  split; [|split; [|split; [|split; [|split; [|split; [|split; [|split]]]]]]].
  - clear Hrun Hfacts. induction Hall as [|chunk pr chunks prs Hout Hall IH]; [done|].
    cbn. destruct (chunk_outcome_facts _ _ _ Hout) as (-> & _). by rewrite IH.
  - by apply Forall2_length in Hall.
  - apply Forall2_length in Hall. rewrite Hall. apply length_filter.
  - reflexivity.
  - rewrite deduplicateItems_eq. apply dedup_from_length.
  - intros item Hin. rewrite deduplicateItems_eq in Hin.
    apply (fun H => elem_of_sublist _ _ _ H (dedup_from_sublist _ _ _)) in Hin.
    apply elem_of_concat in Hin as (found & Hitem & Hfound).
    apply list_elem_of_fmap in Hfound as (pr & -> & Hpr).
    exists pr. split; [exact Hpr|]. split; [|exact Hitem].
    destruct (page_success pr) eqn:Hs; [reflexivity|].
    destruct (Hfacts pr Hpr) as (_ & Hempty).
    rewrite (Hempty Hs) in Hitem. by apply elem_of_nil in Hitem.
  - exact Hfacts.
  - reflexivity.
  - destruct (pages_loop_bounds extractor (length chunks) chunks 0%nat [] []
                {| this := run_limiter extractor; world := w |})
      as (_ & _ & Hclock & _).
    cbn [world now] in Hclock. lia.
Qed.

Lemma extraction_calls_are_bounded_aux chunks extractor w :
  (calls w <= calls (world (snd (extractFromPages chunks extractor w)))
   <= calls w
      + length chunks * maxRetries (default DEFAULT_RATE_LIMIT (rateLimit extractor)))%nat.
Proof.
  rewrite extractFromPages_world.
  destruct (pages_loop_bounds extractor (length chunks) chunks 0%nat [] []
              {| this := run_limiter extractor; world := w |})
    as (_ & Hcalls & _).
  cbn [world this calls] in Hcalls. by rewrite run_limiter_config in Hcalls.
Qed.

(** X8. A run starts at most [maxRetries] extraction attempts per chunk
    (invocations of [extractSingle] by the scheduler, each of which calls
    the generation unless [buildPrompt] throws), and with a positive
    [maxRetries] at least one per chunk. *)
Theorem extraction_calls_are_bounded (chunks : list PageChunk)
    (extractor : ExtractorConfig) (w : World) :
  (calls (world (snd (extractFromPages chunks extractor w)))
   <= calls w
      + length chunks * maxRetries (default DEFAULT_RATE_LIMIT (rateLimit extractor)))%nat
  /\ ((1 <= maxRetries (default DEFAULT_RATE_LIMIT (rateLimit extractor)))%nat ->
      (calls w + length chunks
       <= calls (world (snd (extractFromPages chunks extractor w))))%nat).
Proof.
  rewrite extractFromPages_world.
  destruct (pages_loop_bounds extractor (length chunks) chunks 0%nat [] []
              {| this := run_limiter extractor; world := w |})
    as (_ & Hcalls & _ & _ & Hpos).
  cbn [world this calls] in Hcalls, Hpos. rewrite run_limiter_config in Hcalls, Hpos.
  split; [lia|]. intros Hmax. exact (Hpos Hmax).
Qed.

(** X9. A pipeline constructed with [onProgress] reports progress exactly
    once per chunk, before the chunk is processed and in the order of the
    chunks, as [(index + 1, chunks.length, "Processing page N")]; one
    constructed without reports nothing. Retries report nothing more. *)
Theorem progress_is_reported_once_per_chunk (chunks : list PageChunk)
    (extractor : ExtractorConfig) (w : World) :
  progress_reports (trace (world (snd (extractFromPages chunks extractor w))))
  = progress_reports (trace w)
      ++ (if onProgress
          then imap (fun index chunk =>
                       ((index + 1)%nat, length chunks,
                        "Processing page " +:+ pretty (pageNumber chunk))) chunks
          else []).
Proof.
  rewrite extractFromPages_world.
  destruct (pages_loop_bounds extractor (length chunks) chunks 0%nat [] []
              {| this := run_limiter extractor; world := w |})
    as (_ & _ & _ & Hprog & _).
  exact Hprog.
Qed.

(** X10. With a positive [maxRetries], a [delayMs] between 0 and
    [TIMEOUT_MAX], and timers that fire at most [eps] ms early, a run over
    [n >= 1] chunks takes at least [(n - 1) * (delayMs - eps)] milliseconds,
    however the chunks' extractions end: the first invocation for each chunk
    waits for a slot at least [delayMs - eps] after the previous one. *)
Theorem extraction_takes_its_time (chunks : list PageChunk)
    (extractor : ExtractorConfig) (w : World) (eps : Z) :
  chunks <> [] ->
  (1 <= maxRetries (default DEFAULT_RATE_LIMIT (rateLimit extractor)))%nat ->
  0 <= delayMs (default DEFAULT_RATE_LIMIT (rateLimit extractor)) <= TIMEOUT_MAX ->
  0 <= eps ->
  fires_within w eps (delayMs (default DEFAULT_RATE_LIMIT (rateLimit extractor))) ->
  exists r st',
    extractFromPages chunks extractor w = (Ok r, st')
    /\ (Z.of_nat (length chunks) - 1)
       * (delayMs (default DEFAULT_RATE_LIMIT (rateLimit extractor)) - eps)
       <= processingTimeMs (metrics r).
Proof.
  intros Hne Hmax Hd Heps Htimers.
  destruct (extractFromPages_unfold chunks extractor w)
    as (prs & all & _ & _ & _ & Hrun).
  eexists _, _. split; [exact Hrun|]. cbn [metrics processingTimeMs].
  destruct chunks as [|chunk rest]; [done|].
  rewrite pages_loop_cons. cbv zeta.
  set (st0 := {| this := run_limiter extractor; world := w |}).
  set (st1 := after_progress onProgress (length (chunk :: rest)) 0 chunk st0).
  set (ran := execute (extractSingle (content chunk) extractor) (execute_label chunk) st1).
  destruct (after_progress_world (length (chunk :: rest)) 0 chunk st0) as (Hn1 & _ & Ht1).
  pose proof (after_progress_timer (length (chunk :: rest)) 0 chunk st0) as Htm1.
  fold st1 in Hn1, Ht1, Htm1.
  destruct (execute_bounds (extractSingle (content chunk) extractor)
              (execute_label chunk) st1) as (_ & _ & Hpos).
  pose proof (execute_config (extractSingle (content chunk) extractor)
                (execute_label chunk) st1) as Hcfg.
  pose proof (execute_loop_timer (extractSingle (content chunk) extractor)
                (execute_label chunk) (maxRetries (config (this st1))) 1%nat None st1)
    as Htm.
  rewrite <- execute_unfold in Htm.
  fold ran in Hpos, Hcfg, Htm.
  rewrite Ht1 in Hpos, Hcfg.
  assert (Hc0 : config (this st0) = default DEFAULT_RATE_LIMIT (rateLimit extractor))
    by apply run_limiter_config.
  rewrite Hc0 in Hpos, Hcfg.
  destruct (Hpos Hmax) as (_ & Hslot & Hlc).
  pose proof (after_slot_now st1) as Hnow1. rewrite Hn1 in Hnow1.
  destruct (pages_loop_spacing extractor (length (chunk :: rest)) rest eps 1%nat
              ([] ++ [recorded chunk (fst ran)]) ([] ++ items_of (fst ran)) (snd ran))
    as (Hlow & Hhigh); rewrite ?Hcfg; try assumption.
  { apply (fires_within_same w); [by rewrite Htm, Htm1 | assumption]. }
  rewrite Hcfg in Hlow.
  cbn [length world now] in *. rewrite Nat2Z.inj_succ.
  change (now (world st0)) with (now w) in Hnow1.
  nia.
Qed.

Lemma zip_with_recorded (chunks : list PageChunk) (f : PageChunk -> Res (list Item)) :
  zip_with recorded chunks (map f chunks) = map (fun chunk => recorded chunk (f chunk)) chunks.
Proof. induction chunks as [|chunk chunks IH]; cbn; [done | by rewrite IH]. Qed.

(** X11. With [maxRetries = 0] the loop of [execute] is never entered:
    [execute] throws a plain [Error] ("... failed after 0 attempts") without
    invoking the operation, waiting or touching a counter. A run whose
    extractor is configured so makes no generation call at all: every chunk
    is recorded as failed with code [UNKNOWN] and that message, and no item
    is returned. *)
Theorem zero_retries_never_call {T} (fn : Operation T) (label : string) (st : St)
    (chunks : list PageChunk) (extractor : ExtractorConfig) (w : World) :
  (maxRetries (config (this st)) = 0%nat ->
   execute fn label st = (Throw (never_attempted label), st))
  /\ (maxRetries (default DEFAULT_RATE_LIMIT (rateLimit extractor)) = 0%nat ->
      exists r st',
        extractFromPages chunks extractor w = (Ok r, st')
        /\ calls (world st') = calls w
        /\ items r = []
        /\ pagesFailed r = length chunks
        /\ pageResults r
           = map (fun chunk =>
                    {| page_items := []; page_pageNumber := pageNumber chunk;
                       page_success := false;
                       page_error := Some ("Page " +:+ pretty (pageNumber chunk)
                                             +:+ " extraction failed after 0 attempts");
                       page_errorCode := Some UNKNOWN |}) chunks).
Proof.
  split.
  - intros Hm. by rewrite execute_unfold, Hm, execute_loop_zero, Hm.
  - intros Hm.
    destruct (extractFromPages_fixed stringify generateObject onProgress chunks extractor w
                (map (fun chunk => Throw (never_attempted (execute_label chunk))) chunks))
      as (r & st' & Hrun & Hprs & Hitems & _ & Hfailed).
    { apply Forall2_fmap_r, Forall_Forall2_diag, Forall_forall.
      intros chunk _ st0 Hcfg.
      rewrite execute_unfold, Hcfg, Hm, execute_loop_zero, Hcfg, Hm. reflexivity. }
    exists r, st'. split; [exact Hrun|].
    pose proof (extraction_calls_are_bounded_aux chunks extractor w) as Hcalls.
    rewrite Hrun, Hm in Hcalls. cbn [snd] in Hcalls.
    split; [lia|].
    rewrite Hitems, Hfailed, Hprs, zip_with_recorded. clear.
    split; [|split].
    + induction chunks as [|chunk chunks IH]; [reflexivity | exact IH].
    + induction chunks as [|chunk chunks IH]; [reflexivity|].
      cbn [map]. rewrite filter_cons_True by reflexivity. cbn [length]. by rewrite IH.
    + apply map_ext. intros chunk. cbn. unfold page_failed, execute_label. cbn.
      by rewrite !append_assoc.
Qed.

Lemma contains_ci_inside (a m b pat : string) :
  contains_ci m pat -> contains_ci (a +:+ m +:+ b) pat.
Proof.
  intros (pre & mid & post & -> & Hmid).
  exists (a +:+ pre), mid, (post +:+ b). split; [|exact Hmid].
  by rewrite !append_assoc.
Qed.

Lemma isRateLimitError_of_pattern (e : Thrown) (pat : string) :
  pat ∈ rate_limit_patterns ->
  contains_ci (message_of e) pat ->
  isRateLimitError e = true.
Proof.
  intros Hin Hc. unfold isRateLimitError. rewrite !orb_true_iff.
  rewrite !JsStringFacts.includes_toLowerCase by reflexivity.
  unfold rate_limit_patterns in Hin.
  rewrite !elem_of_cons, elem_of_nil in Hin.
  destruct Hin as [->|[->|[->|[->|[->|[]]]]]]; tauto.
Qed.

(** X12. The scheduler classifies a chunk's failure by the message
    [extractSingle] gives it, and that message starts with the extractor's
    name. So for an extractor whose name contains one of the throttling
    patterns (in any letter case), every generation failure that is not
    already an [ExtractionError] is classified as throttling, whatever its
    own message: a chunk whose generation always fails so is attempted
    [maxRetries] times and ends in a [RateLimitError]. *)
Theorem extractor_name_can_throttle (extractor : ExtractorConfig)
    (chunk : PageChunk) (prompt pat : string) (st : St) :
  pat ∈ rate_limit_patterns ->
  contains_ci (name extractor) pat ->
  buildPrompt extractor (content chunk) = Ok prompt ->
  (forall w, exists e,
      settled (generateObject extractor prompt w) = Throw e
      /\ forall x, e <> ThrownExtraction x) ->
  (1 <= maxRetries (config (this st)))%nat ->
  exists st' raised,
    execute (extractSingle (content chunk) extractor) (execute_label chunk) st
    = (Throw (ThrownExtraction raised), st')
    /\ cls raised = ClsRateLimitError
    /\ code raised = RATE_LIMIT
    /\ calls (world st') = (calls (world st) + maxRetries (config (this st)))%nat.
Proof.
  intros Hpat Hname Hprompt Hgen Hmax.
  assert (Hfn : forall w, exists e,
             settled (extractSingle (content chunk) extractor w) = Throw e
             /\ isRateLimitError (as_Error e) = true).
  { intros w. destruct (Hgen w) as (e & He & Hplain).
    unfold Pipeline.extractSingle. rewrite Hprompt. cbn [settled]. rewrite He.
    eexists. split; [reflexivity|]. cbn [as_Error].
    apply (isRateLimitError_of_pattern _ pat Hpat). cbn [message_of].
    assert (Hmsg : forall msg,
               with_context (Some ("Extraction failed for schema " +:+ dquote
                                     +:+ name extractor +:+ dquote)) msg
               = ("Extraction failed for schema " +:+ dquote) +:+ name extractor
                   +:+ (dquote +:+ ": " +:+ msg)).
    { intros msg. unfold with_context.
      change (JsString.is_empty _) with false. cbv iota.
      by rewrite !append_assoc. }
    destruct e as [x|original|repr]; [by destruct (Hplain x)| |];
      cbn [wrapError message]; rewrite Hmsg; by apply contains_ci_inside. }
  rewrite execute_unfold.
  destruct (maxRetries (config (this st))) as [|more] eqn:Hm; [lia|].
  destruct (execute_loop_exhausts (extractSingle (content chunk) extractor)
              (execute_label chunk) Hfn more 1%nat None st)
    as (st' & Hrun & _ & Hcalls & _); [by rewrite Hm|].
  eexists st', _. split; [exact Hrun|]. repeat split. rewrite Hcalls. lia.
Qed.

End WithCapabilities.

End PipelineMore.

(** ** More about the chunkers *)

Module ChunkerMore.
Import JsString Pipeline PipelineExpected PipelineUtils Accounting.
Import JsStringFacts ChunkerFacts PipelineMore.

Lemma trimEnd_idem (s : string) : trimEnd (trimEnd s) = trimEnd s.
Proof.
  induction s as [|c s IH]; [reflexivity|]. cbn [trimEnd].
  destruct (is_empty (trimEnd s) && is_space c) eqn:Hcase; [reflexivity|].
  cbn [trimEnd]. by rewrite IH, Hcase.
Qed.

Lemma trimStart_no_leading (s : string) : starts_with_space (trimStart s) = false.
Proof.
  induction s as [|c s IH]; [reflexivity|]. cbn [trimStart].
  destruct (is_space c) eqn:Hc; [exact IH|].
  cbn [starts_with_space]. by rewrite <- is_space_white.
Qed.

Lemma trimStart_fixed (s : string) : starts_with_space s = false -> trimStart s = s.
Proof.
  destruct s as [|c s]; [done|]. cbn [starts_with_space trimStart].
  rewrite <- is_space_white. by intros ->.
Qed.

Lemma trimEnd_head (s : string) :
  starts_with_space s = false ->
  starts_with_space (trimEnd s) = false /\ (s <> EmptyString -> trimEnd s <> EmptyString).
Proof.
  destruct s as [|c s]; [done|]. cbn [starts_with_space trimEnd]. intros Hc.
  rewrite is_space_white, Hc, andb_false_r. cbn [starts_with_space]. by split.
Qed.

Lemma trim_no_leading (s : string) : starts_with_space (trim s) = false.
Proof. unfold trim. apply trimEnd_head, trimStart_no_leading. Qed.

Lemma trim_idem (s : string) : trim (trim s) = trim s.
Proof.
  unfold trim at 1. rewrite trimStart_fixed by apply trim_no_leading.
  unfold trim. apply trimEnd_idem.
Qed.

Lemma trim_nonempty (s : string) :
  starts_with_space s = false -> s <> EmptyString -> trim s <> EmptyString.
Proof.
  intros Hs Hne. unfold trim. rewrite trimStart_fixed by exact Hs.
  by apply trimEnd_head.
Qed.

Lemma strip_space_app (a b : string) :
  strip_space (a +:+ b) = strip_space a +:+ strip_space b.
Proof.
  induction a as [|c a IH]; [reflexivity|].
  rewrite append_cons. cbn [strip_space].
  destruct (Expected.white_space c); [exact IH|]. by rewrite append_cons, IH.
Qed.

Lemma strip_space_trimStart (s : string) : strip_space (trimStart s) = strip_space s.
Proof.
  induction s as [|c s IH]; [reflexivity|]. cbn [trimStart strip_space].
  rewrite is_space_white.
  destruct (Expected.white_space c) eqn:Hc; [exact IH|]. cbn [strip_space]. by rewrite Hc.
Qed.

Lemma strip_space_trimEnd (s : string) : strip_space (trimEnd s) = strip_space s.
Proof.
  induction s as [|c s IH]; [reflexivity|]. cbn [trimEnd strip_space].
  destruct (is_empty (trimEnd s)) eqn:He; cbn [andb].
  - destruct (trimEnd s); [|discriminate]. rewrite is_space_white.
    destruct (Expected.white_space c) eqn:Hc; [exact IH|].
    cbn [strip_space]. by rewrite Hc, <- IH.
  - cbn [strip_space]. by rewrite IH.
Qed.

Lemma strip_space_trim (s : string) : strip_space (trim s) = strip_space s.
Proof. unfold trim. by rewrite strip_space_trimEnd, strip_space_trimStart. Qed.

Lemma substring_split (k : nat) (s : string) :
  substring 0 k s +:+ substring k (String.length s - k) s = s.
Proof.
  revert k. induction s as [|c s IH]; intros k.
  - by destruct k.
  - destruct k as [|k].
    + cbn [substring String.length Nat.sub]. rewrite append_nil.
      f_equal. specialize (IH 0%nat). rewrite Nat.sub_0_r in IH.
      destruct s; [reflexivity|]. cbn [substring] in IH. by rewrite append_nil in IH.
    + cbn [substring String.length Nat.sub]. rewrite append_cons. f_equal. apply IH.
Qed.

Lemma substring_all (s : string) : substring 0 (String.length s) s = s.
Proof. induction s as [|c s IH]; [reflexivity|]. cbn. by rewrite IH. Qed.

(** A split at a non-negative index loses nothing. *)
Lemma slice_split (s : string) (k : Z) :
  0 <= k -> slice s 0 k +:+ slice_from s k = s.
Proof.
  intros Hk. unfold slice_from, slice, clamp_index, len.
  replace (0 <? 0) with false by reflexivity.
  destruct (Z.ltb_spec k 0); [lia|].
  destruct (Z.ltb_spec (Z.of_nat (String.length s)) 0); [lia|].
  rewrite (Z.min_l 0) by lia. rewrite (Z.min_id (Z.of_nat (String.length s))).
  rewrite Z.sub_0_r. cbn [Z.to_nat].
  replace (Z.to_nat (Z.of_nat (String.length s) - Z.min k (Z.of_nat (String.length s))))
    with (String.length s - Z.to_nat (Z.min k (Z.of_nat (String.length s))))%nat by lia.
  apply substring_split.
Qed.

Lemma slice_head (c : ascii) (r : string) (k : Z) :
  1 <= k -> exists x, slice (String c r) 0 k = String c x.
Proof.
  intros Hk. unfold slice, clamp_index, len.
  replace (0 <? 0) with false by reflexivity.
  destruct (Z.ltb_spec k 0); [lia|].
  rewrite (Z.min_l 0) by lia. rewrite Z.sub_0_r. cbn [Z.to_nat].
  destruct (Z.to_nat (Z.min k (Z.of_nat (String.length (String c r))))) as [|m] eqn:Hm.
  - cbn [String.length] in Hm. lia.
  - cbn [substring]. eauto.
Qed.

Lemma substring_none (s : string) : substring (String.length s) 0 s = EmptyString.
Proof. induction s as [|c s IH]; [reflexivity | exact IH]. Qed.

Lemma slice_all (s : string) : slice s 0 (len s) = s.
Proof.
  unfold slice, clamp_index, len.
  replace (0 <? 0) with false by reflexivity.
  destruct (Z.ltb_spec (Z.of_nat (String.length s)) 0); [lia|].
  rewrite (Z.min_l 0) by lia. rewrite Z.min_id, Z.sub_0_r, Nat2Z.id.
  apply substring_all.
Qed.

Lemma slice_from_end (s : string) : slice_from s (len s) = EmptyString.
Proof.
  unfold slice_from, slice, clamp_index, len.
  destruct (Z.ltb_spec (Z.of_nat (String.length s)) 0); [lia|].
  rewrite Z.min_id, Z.sub_diag, Nat2Z.id. apply substring_none.
Qed.

Lemma slice_from_start (s : string) : slice_from s 0 = s.
Proof.
  pose proof (slice_split s 0 ltac:(lia)) as Hsplit.
  assert (slice s 0 0 = EmptyString) as Hnone.
  { unfold slice, clamp_index. replace (0 <? 0) with false by reflexivity.
    rewrite Z.sub_diag. by destruct s. }
  by rewrite Hnone, append_nil in Hsplit.
Qed.

Lemma len_zero (s : string) : len s <= 0 -> s = EmptyString.
Proof. destruct s; [done|]. unfold len. cbn [String.length]. lia. Qed.

Lemma chunkBySize_loop_done (fuel : nat) (maxChunkSize : Z) (pageNum : nat)
    (chunks : list PageChunk) :
  chunkBySize_loop fuel maxChunkSize EmptyString pageNum chunks = Some chunks.
Proof. by destruct fuel. Qed.

(** What the loop of [chunkBySize] adds when [1 <= maxChunkSize]. *)
Lemma chunkBySize_loop_shape (maxChunkSize : Z) (fuel : nat) :
  1 <= maxChunkSize ->
  forall remaining pageNum chunks,
    (String.length remaining <= fuel)%nat ->
    exists added,
      chunkBySize_loop fuel maxChunkSize remaining pageNum chunks
      = Some (chunks ++ added)
      /\ map pageNumber added = seq pageNum (length added)
      /\ Forall (fun chunk => trim (content chunk) = content chunk) added
      /\ strip_space (join_contents added) = strip_space remaining
      /\ Forall (fun chunk => content chunk <> EmptyString) (tail added)
      /\ (starts_with_space remaining = false ->
          Forall (fun chunk => content chunk <> EmptyString) added)
      /\ (added = [] <-> remaining = EmptyString).
Proof.
  intros Hmax. induction fuel as [|fuel IH]; intros remaining pageNum chunks Hfuel.
  - destruct remaining; [|cbn in Hfuel; lia].
    exists []. rewrite app_nil_r. repeat split; constructor.
  - cbn [chunkBySize_loop]. fold (splitIndex_of maxChunkSize remaining).
    destruct (Z.ltb_spec 0 (len remaining)) as [Hpos|Hzero].
    + pose proof (splitIndex_of_bounds maxChunkSize remaining Hmax Hpos) as Hsplit.
      pose proof (len_slice_from remaining _ (proj1 Hsplit) Hpos) as Hless.
      pose proof (len_trim (slice_from remaining (splitIndex_of maxChunkSize remaining))).
      set (k := splitIndex_of maxChunkSize remaining) in *.
      edestruct (IH (trim (slice_from remaining k)) (S pageNum))
        as (added & Hrun & Hnum & Htrim & Hkeep & _ & Hfull & _).
      { unfold len in *. lia. }
      specialize (Hfull (trim_no_leading _)).
      eexists (_ :: added). rewrite Hrun, <- app_assoc. split; [reflexivity|].
      split; [cbn; by rewrite Hnum|].
      split; [constructor; [apply trim_idem | exact Htrim]|].
      split.
      { cbn [join_contents content].
        rewrite strip_space_app, strip_space_trim, Hkeep, strip_space_trim.
        rewrite <- strip_space_app, slice_split by lia. reflexivity. }
      split; [exact Hfull|].
      split.
      { intros Hhead. constructor; [|exact Hfull]. cbn [content].
        destruct remaining as [|c r]; [unfold len in Hpos; cbn in Hpos; lia|].
        destruct (slice_head c r k (proj1 Hsplit)) as [x Hx]. rewrite Hx.
        by apply trim_nonempty. }
      split; [discriminate|].
      intros ->. unfold len in Hpos. cbn in Hpos. lia.
    + apply len_zero in Hzero as ->.
      exists []. rewrite app_nil_r. repeat split; constructor.
Qed.

(** X13. For [maxChunkSize >= 1], [chunkBySize] returns, and its chunks are
    numbered 1, 2, ... in order, hold at most [maxChunkSize + 1] characters,
    are trimmed, and are not empty from the second on (all of them when the
    text does not start with white space); there is no chunk exactly when
    the text is empty. *)
Theorem chunkBySize_chunks_are_well_formed (text : string) (maxChunkSize : Z) :
  1 <= maxChunkSize ->
  exists chunks,
    chunkBySize text maxChunkSize = Some chunks
    /\ map pageNumber chunks = seq 1 (length chunks)
    /\ Forall (fun chunk => len (content chunk) <= maxChunkSize + 1) chunks
    /\ Forall (fun chunk => trim (content chunk) = content chunk) chunks
    /\ Forall (fun chunk => content chunk <> EmptyString) (tail chunks)
    /\ (starts_with_space text = false ->
        Forall (fun chunk => content chunk <> EmptyString) chunks)
    /\ (chunks = [] <-> text = EmptyString).
Proof.
  intros Hmax.
  destruct (chunkBySize_loop_shape maxChunkSize (String.length text) Hmax
              text 1%nat []) as (added & Hrun & Hnum & Htrim & _ & Htail & Hfull & Hnone);
    [lia|].
  destruct (chunkBySize_loop_total maxChunkSize (String.length text) Hmax
              text 1%nat []) as (added' & Hrun' & Hsize); [lia|].
  rewrite Hrun in Hrun'. injection Hrun' as <-.
  exists added. by repeat split; try apply Hnone.
Qed.

(** X14. For [maxChunkSize >= 1], what [chunkBySize] drops between chunks is
    white space only: the chunks' contents, one after the other and without
    their white space, are the text without its white space. *)
Theorem chunkBySize_drops_only_white_space (text : string) (maxChunkSize : Z) :
  1 <= maxChunkSize ->
  exists chunks,
    chunkBySize text maxChunkSize = Some chunks
    /\ strip_space (join_contents chunks) = strip_space text.
Proof.
  intros Hmax.
  destruct (chunkBySize_loop_shape maxChunkSize (String.length text) Hmax
              text 1%nat []) as (added & Hrun & _ & _ & Hkeep & _); [lia|].
  exists added. by split.
Qed.

(** X15. A text of at most [maxChunkSize] characters is one chunk, numbered
    1, holding the trimmed text (an empty chunk for a blank text); the empty
    text gives no chunk, whatever [maxChunkSize] is. *)
Theorem chunkBySize_short_text_is_one_chunk (text : string) (maxChunkSize : Z) :
  (text = EmptyString -> chunkBySize text maxChunkSize = Some [])
  /\ (0 < len text <= maxChunkSize ->
      chunkBySize text maxChunkSize
      = Some [{| content := trim text; pageNumber := 1 |}]).
Proof.
  split; [by intros ->|].
  intros [Hpos Hfit]. unfold chunkBySize, chunkBySize_fuel.
  destruct text as [|c r]; [unfold len in Hpos; cbn in Hpos; lia|].
  cbn [String.length chunkBySize_loop].
  destruct (Z.ltb_spec 0 (len (String c r))); [|lia].
  destruct (Z.ltb_spec maxChunkSize (len (String c r))); [lia|].
  rewrite slice_from_end, slice_all. apply chunkBySize_loop_done.
Qed.

Lemma chunkBySize_loop_stuck (fuel : nat) :
  forall remaining pageNum chunks,
    trim remaining <> EmptyString ->
    chunkBySize_loop fuel 0 remaining pageNum chunks = None.
Proof.
  induction fuel as [|fuel IH]; intros remaining pageNum chunks Hrest.
  - destruct remaining as [|c r]; [done | reflexivity].
  - cbn [chunkBySize_loop]. fold (splitIndex_of 0 remaining).
    destruct (Z.ltb_spec 0 (len remaining)) as [Hpos|Hzero].
    + assert (splitIndex_of 0 remaining = 0) as ->.
      { unfold splitIndex_of.
        pose proof (lastIndexOf_le remaining (newline +:+ newline) 0).
        pose proof (lastIndexOf_le remaining ". " 0).
        repeat match goal with
               | |- context [?a <? ?b] => destruct (Z.ltb_spec a b)
               end; lia. }
      rewrite slice_from_start. apply IH. by rewrite trim_idem.
    + apply len_zero in Hzero as ->. done.
Qed.

(** X16. With [maxChunkSize = 0] and a text that is not blank, [chunkBySize]
    never returns: every iteration leaves the trimmed text as it was, and
    no number of iterations is enough. *)
Theorem chunkBySize_zero_never_returns (text : string) (fuel : nat) :
  trim text <> EmptyString ->
  chunkBySize_fuel fuel text 0 = None.
Proof. intros Hrest. by apply chunkBySize_loop_stuck. Qed.

End ChunkerMore.

(** ** More about the page splitter *)

Module SplitterMore.
Import JsString Pipeline PipelineUtils Accounting.
Import JsStringFacts PipelineMore.

Lemma split_scan_nonempty (sep : string) (s : string) :
  forall skipping cur, split_scan sep skipping cur s <> [].
Proof.
  induction s as [|c r IH]; intros skipping cur; [done|].
  cbn [split_scan]. destruct skipping as [|k]; [|apply IH].
  destruct (String.prefix sep (String c r)); [done | apply IH].
Qed.

Lemma concat_cons (sep x : string) (xs : list string) :
  xs <> [] -> String.concat sep (x :: xs) = x +:+ sep +:+ String.concat sep xs.
Proof. by destruct xs. Qed.

Lemma skip_app (a b : string) : skip (String.length a) (a +:+ b) = b.
Proof. induction a as [|c a IH]; [reflexivity|]. rewrite append_cons. exact IH. Qed.

(** Joining the pieces of a split with the separator gives the text back. *)
Lemma split_scan_join (sep : string) :
  sep <> EmptyString ->
  forall s skipping cur,
    String.concat sep (split_scan sep skipping cur s) = cur +:+ skip skipping s.
Proof.
  intros Hsep. induction s as [|c r IH]; intros skipping cur.
  - cbn. destruct skipping; by rewrite append_empty_r.
  - cbn [split_scan]. destruct skipping as [|k]; [|apply IH].
    destruct (String.prefix sep (String c r)) eqn:Hp.
    + rewrite concat_cons by apply split_scan_nonempty.
      rewrite IH, append_nil. cbn [skip].
      apply prefix_spec in Hp as [post Hpost].
      destruct sep as [|a sep']; [done|].
      rewrite append_cons in Hpost. injection Hpost as -> ->.
      replace (String.length (String a sep') - 1)%nat with (String.length sep')
        by (cbn [String.length]; lia).
      by rewrite skip_app, append_cons.
    + rewrite IH. cbn [skip]. by rewrite append_assoc, append_cons, append_nil.
Qed.

Lemma prefix_trans (a b c : string) :
  String.prefix a b = true -> String.prefix b c = true -> String.prefix a c = true.
Proof.
  rewrite !prefix_spec. intros [x ->] [y ->]. exists (x +:+ y). apply append_assoc.
Qed.

Lemma prefix_cons (c : ascii) (a b : string) :
  String.prefix a b = true -> String.prefix (String c a) (String c b) = true.
Proof.
  rewrite !prefix_spec. intros [x ->]. exists x. by rewrite append_cons.
Qed.

Lemma clear_of_empty (sep s : string) : clear_of sep EmptyString s.
Proof. intros q _. by rewrite append_nil. Qed.

Lemma clear_of_step (sep cur : string) (c : ascii) (r : string) :
  String.prefix sep (String c r) = false ->
  clear_of sep cur (String c r) ->
  clear_of sep (cur +:+ String c EmptyString) r.
Proof.
  intros Hp Hclear q Hq.
  rewrite append_assoc, append_cons, append_nil.
  rewrite (Hclear (String c q)) by by apply prefix_cons.
  cbn [includes]. destruct (String.prefix sep (String c q)) eqn:Hsq; [|done].
  rewrite (prefix_trans _ _ _ Hsq (prefix_cons c _ _ Hq)) in Hp. discriminate.
Qed.

Lemma clear_of_piece (sep cur s : string) :
  sep <> EmptyString -> clear_of sep cur s -> includes cur sep = false.
Proof.
  intros Hsep Hclear.
  specialize (Hclear EmptyString). rewrite append_empty_r in Hclear.
  rewrite Hclear by by destruct s. cbn. by destruct sep.
Qed.

(** No piece of a split contains the separator. *)
Lemma split_scan_pieces (sep : string) :
  sep <> EmptyString ->
  forall s skipping cur,
    cur = EmptyString \/ (skipping = 0%nat /\ clear_of sep cur s) ->
    Forall (fun piece => includes piece sep = false) (split_scan sep skipping cur s).
Proof.
  intros Hsep. induction s as [|c r IH]; intros skipping cur Hcur.
  - cbn. destruct skipping; constructor; try constructor.
    all: destruct Hcur as [->|[_ Hclear]];
      [by destruct sep | by apply (clear_of_piece sep cur EmptyString)].
  - cbn [split_scan]. destruct skipping as [|k].
    + assert (clear_of sep cur (String c r)) as Hclear.
      { destruct Hcur as [->|[_ H]]; [apply clear_of_empty | exact H]. }
      destruct (String.prefix sep (String c r)) eqn:Hp.
      * constructor; [by apply (clear_of_piece sep cur (String c r))|].
        apply IH. by left.
      * apply IH. right. split; [done|]. by apply clear_of_step.
    + apply IH. left. by destruct Hcur as [->|[? _]].
Qed.

Lemma split_scan_whole (sep : string) (s : string) :
  forall cur, includes s sep = false -> split_scan sep 0 cur s = [cur +:+ s].
Proof.
  induction s as [|c r IH]; intros cur Hnone.
  - cbn. by rewrite append_empty_r.
  - cbn [includes] in Hnone. apply orb_false_iff in Hnone as [Hp Hr].
    cbn [split_scan]. rewrite Hp, IH by exact Hr.
    by rewrite append_assoc, append_cons, append_nil.
Qed.

Lemma number_pages_from (pieces : list string) (n : nat) :
  map pageNumber
    (imap (fun index piece => {| content := trim piece; pageNumber := index + n |}) pieces)
  = seq n (length pieces)
  /\ map content
       (imap (fun index piece => {| content := trim piece; pageNumber := index + n |}) pieces)
     = map trim pieces.
Proof.
  revert n. induction pieces as [|p pieces IH]; intros n; [done|].
  cbn [imap map length seq content pageNumber].
  destruct (IH (S n)) as [Hnum Hcontent].
  rewrite (imap_ext _ (fun index piece =>
                         {| content := trim piece; pageNumber := index + S n |})).
  - rewrite Hnum, Hcontent. done.
  - intros i x _. cbn. f_equal. lia.
Qed.

(** X17. With a non-empty delimiter, [splitIntoPages] makes one page per
    piece of the text between delimiters: there is at least one piece, the
    pieces joined with the delimiter are the text, no piece contains the
    delimiter, the pages hold the trimmed pieces in order and are numbered
    1, 2, ...; a text without the delimiter is a single page. *)
Theorem splitIntoPages_pages_are_the_pieces (text delimiter : string) :
  delimiter <> EmptyString ->
  exists pieces,
    pieces <> []
    /\ String.concat delimiter pieces = text
    /\ Forall (fun piece => includes piece delimiter = false) pieces
    /\ map content (splitIntoPages text delimiter) = map trim pieces
    /\ map pageNumber (splitIntoPages text delimiter) = seq 1 (length pieces)
    /\ (includes text delimiter = false ->
        splitIntoPages text delimiter = [{| content := trim text; pageNumber := 1 |}]).
Proof.
  intros Hsep. unfold splitIntoPages, split, number_pages.
  destruct delimiter as [|a sep']; [done|]. cbn [is_empty].
  set (sep := String a sep') in *.
  exists (split_scan sep 0 EmptyString text).
  split; [apply split_scan_nonempty|].
  split; [by rewrite split_scan_join|].
  split; [apply split_scan_pieces; [done | by left]|].
  destruct (number_pages_from (split_scan sep 0 EmptyString text) 1) as [Hnum Hcontent].
  split; [exact Hcontent|]. split; [exact Hnum|].
  intros Hnone. by rewrite split_scan_whole.
Qed.

End SplitterMore.

(** ** The further statements at concrete inputs *)

Module MoreExamples.
Import Errors Runtime Types RateLimiter Json Pipeline.
Import Expected PipelineExpected Fixtures PipelineUtils Accounting MoreFixtures.

(** X1 at the scheduler with [maxRetries = 2], against an operation that is
    always throttled: at most two invocations, and one failure counted. *)
Lemma execute_settles_once_witness :
  (1 <= maxRetries (config (this limiter0)))%nat
  /\ (calls (world (snd (execute always_throttled "API call" limiter0))) <= 2)%nat
  /\ config (this (snd (execute always_throttled "API call" limiter0)))
     = config (this limiter0).
Proof.
  assert (Hpos : (1 <= maxRetries (config (this limiter0)))%nat) by (vm_compute; lia).
  destruct (SchedulerMore.execute_settles_once always_throttled "API call" limiter0 Hpos)
    as ([_ Hcalls] & _ & Hconfig & _).
  split; [exact Hpos|]. split; [exact Hcalls | exact Hconfig].
Defined.

(** X3 at a scheduler whose last slot was 4 ms ago, with timers that fire
    a millisecond early: the slot is granted 5 ms later, not 6, and an
    operation that would fail before that is executed like one that always
    succeeds. *)
Lemma execute_respects_spacing_witness :
  0 <= 1
  /\ (0 < slot_remaining recent_limiter ->
      slot_remaining recent_limiter - 1 <= slot_wait recent_limiter)
  /\ (forall w,
        now (world recent_limiter) <= now w ->
        lastCallTime (this recent_limiter) + delayMs (config (this recent_limiter)) - 1
        <= now w ->
        fine_from_slot w = always_fine w)
  /\ execute fine_from_slot "API call" recent_limiter
     = execute always_fine "API call" recent_limiter
  /\ slot_remaining recent_limiter = 6
  /\ lastCallTime (this (snd (waitForNextSlot recent_limiter)))
     = now (world recent_limiter) + 5.
Proof.
  assert (Heps : 0 <= 1) by lia.
  assert (Htimer : 0 < slot_remaining recent_limiter ->
                   slot_remaining recent_limiter - 1 <= slot_wait recent_limiter).
  { intros _. vm_compute. discriminate. }
  assert (Hagree : forall w,
             now (world recent_limiter) <= now w ->
             lastCallTime (this recent_limiter)
             + delayMs (config (this recent_limiter)) - 1 <= now w ->
             fine_from_slot w = always_fine w).
  { intros w _ Hw. unfold fine_from_slot.
    destruct (Z.ltb_spec (now w) (now world0 + 5)) as [Hearly|_]; [|reflexivity].
    exfalso. revert Hw Hearly. cbn. lia. }
  destruct (SchedulerMore.execute_respects_spacing fine_from_slot always_fine
              "API call" recent_limiter 1 Heps Htimer Hagree) as (Hsame & Hslot & _).
  split; [exact Heps|]. split; [exact Htimer|]. split; [exact Hagree|].
  split; [exact Hsame|]. split; [reflexivity|].
  rewrite Hslot. reflexivity.
Defined.

(** X4 at the scheduler with [delayMs = 10] and [maxRetries = 2], against an
    operation throttled once: two invocations, one retry, the result
    returned. *)
Lemma execute_recovers_after_throttling_witness :
  (1 < maxRetries (config (this limiter0)))%nat
  /\ backoffs_last limiter0 1 2
  /\ (forall w, (calls (world limiter0) <= calls w < calls (world limiter0) + 1)%nat ->
                exists e, settled (throttled_once w) = Throw e
                          /\ isRateLimitError (as_Error e) = true)
  /\ (forall w, calls w = (calls (world limiter0) + 1)%nat ->
                settled (throttled_once w) = Ok 7%nat)
  /\ exists st',
       execute throttled_once "API call" limiter0 = (Ok 7%nat, st')
       /\ calls (world st') = 2%nat
       /\ trace (world st') = [EvCall; EvSleep 20; EvCall]
       /\ totalRetries (RateLimiter.metrics (this st')) = 1%nat.
Proof.
  assert (Hk : (1 < maxRetries (config (this limiter0)))%nat) by (vm_compute; lia).
  assert (Hlast : backoffs_last limiter0 1 2).
  { intros n k Hk'. replace k with 1%nat by lia. vm_compute. discriminate. }
  assert (Hfail : forall w,
             (calls (world limiter0) <= calls w < calls (world limiter0) + 1)%nat ->
             exists e, settled (throttled_once w) = Throw e
                       /\ isRateLimitError (as_Error e) = true).
  { intros w Hw. unfold throttled_once.
    destruct (Nat.ltb_spec (calls w) 1) as [_|Hlate].
    - eexists. split; [reflexivity | vm_compute; reflexivity].
    - exfalso. revert Hw Hlate. cbn. lia. }
  assert (Hok : forall w, calls w = (calls (world limiter0) + 1)%nat ->
                          settled (throttled_once w) = Ok 7%nat).
  { intros w Hw. unfold throttled_once. cbn in Hw. rewrite Hw. reflexivity. }
  destruct (SchedulerMore.execute_recovers_after_throttling throttled_once
              "API call" limiter0 1 7%nat Hk Hlast Hfail Hok)
    as (st' & attempts & Hrun & Hcalls & _ & _ & _ & _ & Hretries & _).
  split; [exact Hk|]. split; [exact Hlast|]. split; [exact Hfail|]. split; [exact Hok|].
  exists st'. split; [exact Hrun|]. split; [exact Hcalls|].
  assert (Hst : st' = snd (execute throttled_once "API call" limiter0))
    by (by rewrite Hrun).
  split; [rewrite Hst; vm_compute; reflexivity | exact Hretries].
Defined.

(** X10 at the run of the error-isolation test with timers that fire a
    millisecond early: three chunks with [delayMs = 10] take at least
    18 ms. *)
Lemma extraction_takes_its_time_witness :
  three_pages <> []
  /\ (1 <= maxRetries (default DEFAULT_RATE_LIMIT (rateLimit testExtractor)))%nat
  /\ 0 <= delayMs (default DEFAULT_RATE_LIMIT (rateLimit testExtractor)) <= TIMEOUT_MAX
  /\ 0 <= 1
  /\ fires_within early_world 1
       (delayMs (default DEFAULT_RATE_LIMIT (rateLimit testExtractor)))
  /\ exists r st',
       extractFromPages property_names isolation_generation false three_pages
         testExtractor early_world = (Ok r, st')
       /\ 18 <= processingTimeMs (Pipeline.metrics r).
Proof.
  assert (Hne : three_pages <> []) by discriminate.
  assert (Hmax : (1 <= maxRetries (default DEFAULT_RATE_LIMIT
                                     (rateLimit testExtractor)))%nat)
    by (vm_compute; lia).
  assert (Hd : 0 <= delayMs (default DEFAULT_RATE_LIMIT (rateLimit testExtractor))
               <= TIMEOUT_MAX)
    by (split; vm_compute; discriminate).
  assert (Heps : 0 <= 1) by lia.
  assert (Htimers : fires_within early_world 1
                      (delayMs (default DEFAULT_RATE_LIMIT (rateLimit testExtractor)))).
  { intros n d Hrange. cbn. unfold early. lia. }
  destruct (PipelineMore.extraction_takes_its_time property_names
              isolation_generation false three_pages testExtractor early_world 1
              Hne Hmax Hd Heps Htimers) as (r & st' & Hrun & Htime).
  split; [exact Hne|]. split; [exact Hmax|]. split; [exact Hd|]. split; [exact Heps|].
  split; [exact Htimers|].
  exists r, st'. split; [exact Hrun | exact Htime].
Defined.

(** X12 at an extractor named "Quota-report": a generation failure whose
    message says nothing of throttling is retried and ends in a
    [RateLimitError] after two invocations. *)
Lemma extractor_name_can_throttle_witness :
  "quota" ∈ rate_limit_patterns
  /\ contains_ci (name quotaExtractor) "quota"
  /\ buildPrompt quotaExtractor (content {| content := "Page 1"; pageNumber := 1 |})
     = Ok "Extract from: Page 1"
  /\ (forall w, exists e,
        settled (failing_generation quotaExtractor "Extract from: Page 1" w) = Throw e
        /\ forall x, e <> ThrownExtraction x)
  /\ (1 <= maxRetries (config (this limiter0)))%nat
  /\ exists st' raised,
       execute
         (extractSingle failing_generation "Page 1" quotaExtractor)
         "Page 1 extraction" limiter0
       = (Throw (ThrownExtraction raised), st')
       /\ code raised = RATE_LIMIT
       /\ calls (world st') = 2%nat.
Proof.
  assert (Hpat : "quota" ∈ rate_limit_patterns).
  { unfold rate_limit_patterns. rewrite !elem_of_cons. tauto. }
  assert (Hname : contains_ci (name quotaExtractor) "quota").
  { exists EmptyString, "Quota", "-report". split; reflexivity. }
  assert (Hgen : forall w, exists e,
             settled (failing_generation quotaExtractor "Extract from: Page 1" w)
             = Throw e
             /\ forall x, e <> ThrownExtraction x).
  { intros w. eexists. split; [reflexivity | discriminate]. }
  assert (Hmax : (1 <= maxRetries (config (this limiter0)))%nat) by (vm_compute; lia).
  destruct (PipelineMore.extractor_name_can_throttle failing_generation
              quotaExtractor {| content := "Page 1"; pageNumber := 1 |}
              "Extract from: Page 1" "quota" limiter0
              Hpat Hname eq_refl Hgen Hmax)
    as (st' & raised & Hrun & _ & Hcode & Hcalls).
  split; [exact Hpat|]. split; [exact Hname|]. split; [reflexivity|].
  split; [exact Hgen|]. split; [exact Hmax|].
  exists st', raised. split; [exact Hrun|]. split; [exact Hcode | exact Hcalls].
Defined.

(** X13 at a text of two paragraphs and [maxChunkSize = 40]. *)
Lemma chunkBySize_chunks_are_well_formed_witness :
  1 <= 40
  /\ exists chunks,
       chunkBySize two_paragraphs 40 = Some chunks
       /\ map pageNumber chunks = seq 1 (length chunks)
       /\ Forall (fun chunk => JsString.len (content chunk) <= 40 + 1) chunks.
Proof.
  assert (Hmax : 1 <= 40) by lia.
  destruct (ChunkerMore.chunkBySize_chunks_are_well_formed two_paragraphs 40 Hmax)
    as (chunks & Hrun & Hnum & Hsize & _).
  split; [exact Hmax|]. exists chunks. split; [exact Hrun|].
  split; [exact Hnum | exact Hsize].
Defined.

(** X14 at the same text and size. *)
Lemma chunkBySize_drops_only_white_space_witness :
  1 <= 40
  /\ exists chunks,
       chunkBySize two_paragraphs 40 = Some chunks
       /\ strip_space (join_contents chunks)
          = "Firstparagraph.Ithastwosentences.Secondparagraphofthetext.".
Proof.
  assert (Hmax : 1 <= 40) by lia.
  destruct (ChunkerMore.chunkBySize_drops_only_white_space two_paragraphs 40 Hmax)
    as (chunks & Hrun & Hkeep).
  split; [exact Hmax|]. exists chunks. split; [exact Hrun|].
  rewrite Hkeep. vm_compute. reflexivity.
Defined.

(** X16 at the text " ab " and ten iterations. *)
Lemma chunkBySize_zero_never_returns_witness :
  JsString.trim " ab " <> EmptyString
  /\ chunkBySize_fuel 10 " ab " 0 = None.
Proof.
  assert (Hrest : JsString.trim " ab " <> EmptyString) by (vm_compute; discriminate).
  split; [exact Hrest|].
  exact (ChunkerMore.chunkBySize_zero_never_returns " ab " 10 Hrest).
Defined.

(** X17 at a text of two pages and the default delimiter. *)
Lemma splitIntoPages_pages_are_the_pieces_witness :
  PAGE_DELIMITER <> EmptyString
  /\ map content (splitIntoPages two_page_text PAGE_DELIMITER) = ["Page one"; "Page two"]
  /\ exists pieces,
       String.concat PAGE_DELIMITER pieces = two_page_text
       /\ map pageNumber (splitIntoPages two_page_text PAGE_DELIMITER)
          = seq 1 (length pieces).
Proof.
  assert (Hsep : PAGE_DELIMITER <> EmptyString) by (vm_compute; discriminate).
  destruct (SplitterMore.splitIntoPages_pages_are_the_pieces two_page_text
              PAGE_DELIMITER Hsep) as (pieces & _ & Hjoin & _ & _ & Hnum & _).
  split; [exact Hsep|]. split; [vm_compute; reflexivity|].
  exists pieces. split; [exact Hjoin | exact Hnum].
Defined.

End MoreExamples.
